(** * Directed graphs with DFS / BFS visits (exercises/graphs/graph_solution.py)

    A shallow embedding of the [VertexLog], [Visit] and [DiGraph] classes and
    of the factories [full_graph], [dag], [list_graph] and [star_graph],
    followed by the properties of the traversal and bookkeeping core.

    Modelling conventions.
    - A Python [dict] is an insertion-ordered association list with unique
      keys ([dict K A]); [d[k] = a] updates in place when [k] is present and
      appends otherwise, exactly as CPython orders its keys.
    - Python integers are [Z]; the sentinel of the time fields is [-1].
    - Vertices are values of an arbitrary type [V] with decidable equality.
      A vertex can be any object, Python's [None] included: [py_None] is
      the vertex of [V], if there is one, that is [None].  The [parent]
      field, initialised to [None], is an [option V] holding what the
      field reads as: after [parent = p] it reads [None] when [p] is the
      vertex [None], as it does when it was never set.
    - Methods that mutate [self] or a [Visit] are computations in a
      state-and-exception monad [M]: the state survives a raised exception,
      as the mutated Python object does.  Recursion and [while] loops take a
      [fuel] argument; running out of it is the third outcome [OutOfFuel],
      which is never a behaviour of the program.
    - The state of a traversal pairs the [Visit] with a ghost [trace]: the
      list of the mutations of the visit, in program order.  Nothing reads
      the trace; it only lets statements speak about the order in which
      fields were assigned.
    - Limits of the interpreter (recursion depth, memory) are not modelled. *)

From stdpp Require Import base list sorting.
From Stdlib Require Import ZArith Lia.

Local Open Scope Z_scope.
Set Warnings "-clear-no-such-hyp".

(** ** Insertion-ordered dictionaries *)

Definition dict (K A : Type) : Type := list (K * A).

Section Dict.
Context {K A : Type} {EqK : EqDecision K}.

(** [d[k]], [None] standing for [KeyError]. *)
Fixpoint dict_get (k : K) (d : dict K A) : option A :=
  match d with
  | [] => None
  | (k', a) :: d' => if decide (k = k') then Some a else dict_get k d'
  end.

(** [k in d] *)
Definition dict_mem (k : K) (d : dict K A) : bool :=
  match dict_get k d with Some _ => true | None => false end.

(** [d[k] = a] *)
Fixpoint dict_set (k : K) (a : A) (d : dict K A) : dict K A :=
  match d with
  | [] => [(k, a)]
  | (k', a') :: d' =>
      if decide (k = k') then (k, a) :: d' else (k', a') :: dict_set k a d'
  end.

(** the dictionary left by [d.pop(k)] *)
Fixpoint dict_pop (k : K) (d : dict K A) : dict K A :=
  match d with
  | [] => []
  | (k', a') :: d' =>
      if decide (k = k') then d' else (k', a') :: dict_pop k d'
  end.

(** in-place mutation of the object stored under [k] *)
Fixpoint dict_alter (f : A → A) (k : K) (d : dict K A) : dict K A :=
  match d with
  | [] => []
  | (k', a') :: d' =>
      if decide (k = k') then (k', f a') :: d' else (k', a') :: dict_alter f k d'
  end.

Definition dict_keys (d : dict K A) : list K := d.*1.
Definition dict_values (d : dict K A) : list A := d.*2.
End Dict.

(** ** Python list helpers *)

Section PyList.
Context {A : Type} {EqA : EqDecision A}.

(** [x in l] *)
Definition py_in (x : A) (l : list A) : bool := bool_decide (x ∈ l).

(** [l.remove(x)]: drops the first occurrence *)
Fixpoint py_remove (x : A) (l : list A) : list A :=
  match l with
  | [] => []
  | y :: l' => if decide (x = y) then l' else y :: py_remove x l'
  end.

(** [set(l1) == set(l2)] *)
Definition set_eqb (l1 l2 : list A) : bool :=
  forallb (λ x, py_in x l2) l1 && forallb (λ x, py_in x l1) l2.
End PyList.

(** [l.sort(key=key)] for an integer key: an insertion sort that, like
    Python's sort, keeps elements with equal keys in their original order. *)
Section PySort.
Context {A : Type} (key : A → Z).

(** Insertion of [x], which stood before every element of [l]. *)
Fixpoint sort_insert (x : A) (l : list A) : list A :=
  match l with
  | [] => [x]
  | y :: l' => if key y <? key x then y :: sort_insert x l' else x :: y :: l'
  end.

Definition py_sort (l : list A) : list A := foldr sort_insert [] l.
End PySort.

(** ** Outcomes and the state-and-exception monad *)

Inductive res (E A : Type) : Type :=
  | Ok (a : A)
  | Raise (e : E)
  | OutOfFuel.
Arguments Ok {E A} a.
Arguments Raise {E A} e.
Arguments OutOfFuel {E A}.

Definition M (E S A : Type) : Type := S → res E A * S.

Section Monad.
Context {E S : Type}.

Definition ret {A} (a : A) : M E S A := λ s, (Ok a, s).

Definition bind {A B} (c : M E S A) (k : A → M E S B) : M E S B :=
  λ s, match c s with
       | (Ok a, s') => k a s'
       | (Raise e, s') => (Raise e, s')
       | (OutOfFuel, s') => (OutOfFuel, s')
       end.

Definition raise {A} (e : E) : M E S A := λ s, (Raise e, s).
Definition out_of_fuel {A} : M E S A := λ s, (OutOfFuel, s).
Definition get : M E S S := λ s, (Ok s, s).
Definition put (s : S) : M E S unit := λ _, (Ok tt, s).
Definition modify (f : S → S) : M E S unit := λ s, (Ok tt, f s).

(** [for x in l: body(x)] *)
Fixpoint for_each {B} (l : list B) (body : B → M E S unit) : M E S unit :=
  match l with
  | [] => ret tt
  | x :: l' => bind (body x) (λ _, for_each l' body)
  end.

(** [if b: c] *)
Definition when (b : bool) (c : M E S unit) : M E S unit :=
  if b then c else ret tt.
End Monad.

Notation "'let*' x ':=' c1 'in' c2" := (bind c1 (λ x, c2))
  (at level 10, x name, c1 at level 100, c2 at level 200, only parsing).
Notation "c1 '>>' c2" := (bind c1 (λ _, c2))
  (at level 100, c2 at level 200, right associativity, only parsing).

(** Weakest preconditions: [wp c Q R s] holds when running [c] from [s]
    either returns [a] in a state satisfying [Q a], or stops (on an exception
    or out of fuel) in a state satisfying [R]. *)
Definition wp {E S A} (c : M E S A) (Q : A → S → Prop) (R : S → Prop) (s : S)
    : Prop :=
  match c s with
  | (Ok a, s') => Q a s'
  | (Raise _, s') => R s'
  | (OutOfFuel, s') => R s'
  end.

(** The vertex of [V], if any, that is Python's [None]. *)
Class PyNone (V : Type) := py_None : option V.

Section Graphs.
Context {V : Type} {EqV : EqDecision V} {NoneV : PyNone V}.

(** [v == None] for a vertex [v] *)
Definition is_None (v : V) : bool := bool_decide (py_None = Some v).

(** What a field reads as after the vertex [v] is stored in it. *)
Definition field_of (v : V) : option V := if is_None v then None else Some v.

(** The [Exception]s of the module, one constructor per [raise] site
    message, carrying the vertex the message prints. *)
Inductive exn : Type :=
  | CouldntFindVertex (v : V)         (* remove_vertex *)
  | CouldntFindSourceVertex (v : V)   (* add_edge *)
  | CouldntFindTargetVertex (v : V)   (* add_edge *)
  | CouldntFindAVertex (v : V)        (* adj *)
  | ThereIsNoVertex (v : V)           (* has_edge *)
  | CantFindVertex (v : V)            (* bfs, distances *)
  | CannotDFSEmpty                    (* dfs *)
  | CannotBFSEmpty                    (* bfs *)
  | KeyError (v : V)                  (* a failed dictionary lookup *)
  | AttributeError (v : V).           (* a log without [distance] *)

(** The error kinds of the specification. *)
Definition is_NotFoundError (e : exn) : bool :=
  match e with
  | CouldntFindVertex _ | CouldntFindSourceVertex _
  | CouldntFindTargetVertex _ | CouldntFindAVertex _
  | ThereIsNoVertex _ | CantFindVertex _ => true
  | _ => false
  end.

Definition is_EmptyGraphError (e : exn) : bool :=
  match e with
  | CannotDFSEmpty | CannotBFSEmpty => true
  | _ => false
  end.

(** ** VertexLog *)

Record VertexLog : Type := mkVertexLog {
  vertex : V;
  discovery_time : Z;
  finish_time : Z;
  parent : option V;
  distance : option Z   (* the field [distances] adds; [None] = no such attribute *)
}.

(** [VertexLog(vertex)] *)
Definition VertexLog_init (v : V) : VertexLog :=
  {| vertex := v; discovery_time := -1; finish_time := -1;
     parent := None; distance := None |}.

Definition set_discovery_time (t : Z) (l : VertexLog) : VertexLog :=
  {| vertex := vertex l; discovery_time := t; finish_time := finish_time l;
     parent := parent l; distance := distance l |}.
Definition set_finish_time (t : Z) (l : VertexLog) : VertexLog :=
  {| vertex := vertex l; discovery_time := discovery_time l; finish_time := t;
     parent := parent l; distance := distance l |}.
(** [l.parent = p]: the field reads [None] afterwards when [p] is the
    vertex [None], so the tests [parent == None] of [bfs] and [distances]
    take it for a field never set. *)
Definition set_parent (p : V) (l : VertexLog) : VertexLog :=
  {| vertex := vertex l; discovery_time := discovery_time l;
     finish_time := finish_time l; parent := field_of p; distance := distance l |}.
Definition set_distance (d : Z) (l : VertexLog) : VertexLog :=
  {| vertex := vertex l; discovery_time := discovery_time l;
     finish_time := finish_time l; parent := parent l; distance := Some d |}.

(** ** Visit *)

Record Visit : Type := mkVisit { _logs : dict V VertexLog }.

(** [Visit()] *)
Definition Visit_init : Visit := {| _logs := [] |}.

Definition is_discovered (self : Visit) (v : V) : bool :=
  match dict_get v (_logs self) with
  | Some l => negb (discovery_time l =? -1)
  | None => false
  end.

(** The object [self.log(v)] returns once the log exists. *)
Definition the_log (v : V) (self : Visit) : VertexLog :=
  match dict_get v (_logs self) with
  | Some l => l
  | None => VertexLog_init v
  end.

(** [self.logs()] with the default arguments: the discovered logs sorted
    by discovery time. *)
Definition logs (self : Visit) : list VertexLog :=
  py_sort discovery_time
    (filter (λ l, -1 < discovery_time l) (dict_values (_logs self))).

(** [self.logs(get_all=True)] *)
Definition logs_all (self : Visit) : list VertexLog :=
  py_sort discovery_time (dict_values (_logs self)).

(** [self.verteces()] with the default arguments *)
Definition Visit_verteces (self : Visit) : list V := vertex <$> logs self.

Definition last_time_step (max_time : Z) (l : VertexLog) : Z :=
  let max_time :=
    if max_time <? discovery_time l then discovery_time l else max_time in
  if max_time <? finish_time l then finish_time l else max_time.

Definition last_time (self : Visit) : Z :=
  foldl last_time_step 0 (dict_values (_logs self)).

(** ** Traversal state: the visit and the ghost trace of its mutations *)

Inductive event : Type :=
  | NewLog (v : V)
  | SetDiscovery (v : V) (t : Z)
  | SetFinish (v : V) (t : Z)
  | SetParent (v p : V)
  | SetDistance (v : V) (d : Z).

Record tstate : Type := mkT { visit : Visit; trace : list event }.

Definition tstate_init : tstate := {| visit := Visit_init; trace := [] |}.

(** The mutation an event records. *)
Definition apply_event (e : event) (vis : Visit) : Visit :=
  match e with
  | NewLog v => {| _logs := dict_set v (VertexLog_init v) (_logs vis) |}
  | SetDiscovery v t => {| _logs := dict_alter (set_discovery_time t) v (_logs vis) |}
  | SetFinish v t => {| _logs := dict_alter (set_finish_time t) v (_logs vis) |}
  | SetParent v p => {| _logs := dict_alter (set_parent p) v (_logs vis) |}
  | SetDistance v d => {| _logs := dict_alter (set_distance d) v (_logs vis) |}
  end.

Definition emit (e : event) : M exn tstate unit :=
  modify (λ st, {| visit := apply_event e (visit st); trace := trace st ++ [e] |}).

(** [visit.log(v)]; the log object is afterwards referred to by its key. *)
Definition log (v : V) : M exn tstate unit :=
  let* st := get in
  when (negb (dict_mem v (_logs (visit st)))) (emit (NewLog v)).

(** [visit.last_time()] *)
Definition get_last_time : M exn tstate Z :=
  let* st := get in ret (last_time (visit st)).

(** [visit.is_discovered(v)] *)
Definition get_is_discovered (v : V) : M exn tstate bool :=
  let* st := get in ret (is_discovered (visit st) v).

(** reading [visit.log(v).parent] of an existing log *)
Definition get_parent (v : V) : M exn tstate (option V) :=
  let* st := get in ret (parent (the_log v (visit st))).

(** reading [visit.log(v).distance]; a log without the attribute raises *)
Definition get_distance (v : V) : M exn tstate Z :=
  let* st := get in
  match distance (the_log v (visit st)) with
  | Some d => ret d
  | None => raise (AttributeError v)
  end.

(** ** DiGraph *)

Record DiGraph : Type := mkDiGraph { _edges : dict V (list V) }.

(** [DiGraph()] *)
Definition DiGraph_init : DiGraph := {| _edges := [] |}.

Definition add_vertex (v : V) : M exn DiGraph unit := λ self,
  if dict_mem v (_edges self) then (Ok tt, self)
  else (Ok tt, {| _edges := dict_set v [] (_edges self) |}).

(** [self.verteces()]: a set, listed here in key order. *)
Definition verteces (self : DiGraph) : list V := dict_keys (_edges self).

Definition has_vertex (self : DiGraph) (v : V) : bool :=
  dict_mem v (_edges self).

(** One iteration of the loop of [remove_vertex]. *)
Definition strip_from (v : V) (source : V) : M exn DiGraph unit := λ self,
  match dict_get source (_edges self) with
  | None => (Raise (KeyError source), self)
  | Some l =>
      if py_in v l
      then (Ok tt, {| _edges := dict_set source (py_remove v l) (_edges self) |})
      else (Ok tt, self)
  end.

(** [self._edges.pop(v)] *)
Definition pop_vertex (v : V) : M exn DiGraph (list V) := λ self,
  match dict_get v (_edges self) with
  | None => (Raise (KeyError v), self)
  | Some l => (Ok l, {| _edges := dict_pop v (_edges self) |})
  end.

Definition remove_vertex (v : V) : M exn DiGraph (list V) :=
  let* self := get in
  if negb (dict_mem v (_edges self)) then raise (CouldntFindVertex v)
  else
    for_each (verteces self) (strip_from v) >>
    pop_vertex v.

Definition add_edge (vertex1 vertex2 : V) : M exn DiGraph unit := λ self,
  if negb (dict_mem vertex1 (_edges self)) then
    (Raise (CouldntFindSourceVertex vertex1), self)
  else if negb (dict_mem vertex2 (_edges self)) then
    (Raise (CouldntFindTargetVertex vertex2), self)
  else
    match dict_get vertex1 (_edges self) with
    | None => (Raise (KeyError vertex1), self)
    | Some l =>
        if negb (py_in vertex2 l)
        then (Ok tt, {| _edges := dict_set vertex1 (l ++ [vertex2]) (_edges self) |})
        else (Ok tt, self)
    end.

(** [self.adj(v)]; the slice copy is the value itself. *)
Definition adj (self : DiGraph) (v : V) : res exn (list V) :=
  match dict_get v (_edges self) with
  | None => Raise (CouldntFindAVertex v)
  | Some l => Ok l
  end.

(** The loop of [__eq__] over the keys of [self]. *)
Fixpoint eq_loop (self other : DiGraph) (sources : list V) : res exn bool :=
  match sources with
  | [] => Ok true
  | source :: rest =>
      match dict_get source (_edges self), dict_get source (_edges other) with
      | Some l1, Some l2 =>
          if negb (set_eqb l1 l2) then Ok false else eq_loop self other rest
      | None, _ | _, None => Raise (KeyError source)
      end
  end.

(** [self == other] for two [DiGraph]s. *)
Definition DiGraph_eq (self other : DiGraph) : res exn bool :=
  if negb (set_eqb (verteces self) (verteces other)) then Ok false
  else eq_loop self other (dict_keys (_edges self)).

Definition is_empty (self : DiGraph) : bool :=
  (length (_edges self) =? 0)%nat.

Definition has_edge (self : DiGraph) (source target : V) : res exn bool :=
  if negb (has_vertex self source) then Raise (ThereIsNoVertex source)
  else if negb (has_vertex self target) then Raise (ThereIsNoVertex target)
  else match dict_get source (_edges self) with
       | None => Raise (KeyError source)
       | Some l => Ok (py_in target l)
       end.

(** [reverse]: the old dictionary is kept aside, the new one starts with
    the same keys and empty lists, and is filled by [add_edge]. *)
Definition reverse : M exn DiGraph unit :=
  let* self := get in
  let old_edges := _edges self in
  put {| _edges := [] |} >>
  for_each (dict_keys old_edges)
    (λ v, modify (λ self, {| _edges := dict_set v [] (_edges self) |})) >>
  for_each old_edges
    (λ '(source, targets), for_each targets (λ target, add_edge target source)).

Fixpoint has_self_loops_from (self : DiGraph) (sources : list V) : res exn bool :=
  match sources with
  | [] => Ok false
  | source :: rest =>
      match dict_get source (_edges self) with
      | None => Raise (KeyError source)
      | Some l => if py_in source l then Ok true else has_self_loops_from self rest
      end
  end.

Definition has_self_loops (self : DiGraph) : res exn bool :=
  has_self_loops_from self (dict_keys (_edges self)).

(** ** Depth-first search *)

(** The body of [dfs] on a given visit. *)
Fixpoint dfs_visit (fuel : nat) (self : DiGraph) (source : V)
    : M exn tstate unit :=
  match fuel with
  | O => out_of_fuel
  | S fuel' =>
      if is_empty self then raise CannotDFSEmpty
      else
        log source >>
        let* t := get_last_time in
        emit (SetDiscovery source (t + 1)) >>
        match adj self source with
        | Raise e => raise e
        | OutOfFuel => out_of_fuel
        | Ok neighbors =>
            for_each neighbors (λ neighbor,
              let* discovered := get_is_discovered neighbor in
              when (negb discovered)
                (log neighbor >>
                 emit (SetParent neighbor source) >>
                 dfs_visit fuel' self neighbor)) >>
            let* t := get_last_time in
            emit (SetFinish source (t + 1))
        end
  end.

(** [self.dfs(source, visit)]: [None] stands for the default argument, a
    given state for a visit supplied by the caller.  The visit returned is
    the one in the final state. *)
Definition dfs (fuel : nat) (self : DiGraph) (source : V)
    (visit : option tstate) : res exn unit * tstate :=
  dfs_visit fuel self source (default tstate_init visit).

(** ** Breadth-first search *)

(** Lifting of a visit computation to the state of the loops of [bfs] and
    [distances]: the visit together with the FIFO [Queue]. *)
Definition on_visit {A} (c : M exn tstate A) : M exn (tstate * list V) A :=
  λ '(st, queue),
    match c st with (r, st') => (r, (st', queue)) end.

(** [queue.put(v)] on an unbounded queue *)
Definition queue_put (v : V) : M exn (tstate * list V) unit :=
  modify (λ '(st, queue), (st, queue ++ [v])).

(** The body of [for neighbor in self.adj(vertex)] in [bfs]. *)
Definition bfs_neighbor (source vertex neighbor : V)
    : M exn (tstate * list V) unit :=
  on_visit
    (log neighbor >>
     let* p := get_parent neighbor in
     when (bool_decide (p = None) && negb (bool_decide (neighbor = source)))
       (emit (SetParent neighbor vertex))) >>
  queue_put neighbor.

(** The [while not queue.empty()] loop of [bfs]. *)
Fixpoint bfs_loop (fuel : nat) (self : DiGraph) (source : V)
    : M exn (tstate * list V) unit :=
  match fuel with
  | O => out_of_fuel
  | S fuel' => λ '(st, queue),
      match queue with
      | [] => (Ok tt, (st, queue))
      | vertex :: queue' =>
          (let* discovered := on_visit (get_is_discovered vertex) in
           when (negb discovered)
             (on_visit
                (let* t := get_last_time in
                 log vertex >>
                 emit (SetDiscovery vertex (t + 1))) >>
              match adj self vertex with
              | Raise e => raise e
              | OutOfFuel => out_of_fuel
              | Ok neighbors =>
                  for_each neighbors (bfs_neighbor source vertex)
              end) >>
           bfs_loop fuel' self source) (st, queue')
      end
  end.

Definition bfs (fuel : nat) (self : DiGraph) (source : V)
    : res exn unit * tstate :=
  if is_empty self then (Raise CannotBFSEmpty, tstate_init)
  else if negb (py_in source (verteces self)) then
    (Raise (CantFindVertex source), tstate_init)
  else
    match bfs_loop fuel self source (tstate_init, [source]) with
    | (r, (st, _)) => (r, st)
    end.

(** ** Unweighted distances *)

(** The body of [for neighbor in self.adj(vertex)] in [distances]. *)
Definition distances_neighbor (source vertex neighbor : V)
    : M exn (tstate * list V) unit :=
  on_visit
    (log neighbor >>
     let* p := get_parent neighbor in
     when (bool_decide (p = None) && negb (bool_decide (neighbor = source)))
       (emit (SetParent neighbor vertex) >>
        let* d := (log vertex >> get_distance vertex) in
        emit (SetDistance neighbor (d + 1)))) >>
  queue_put neighbor.

Fixpoint distances_loop (fuel : nat) (self : DiGraph) (source : V)
    : M exn (tstate * list V) unit :=
  match fuel with
  | O => out_of_fuel
  | S fuel' => λ '(st, queue),
      match queue with
      | [] => (Ok tt, (st, queue))
      | vertex :: queue' =>
          (let* discovered := on_visit (get_is_discovered vertex) in
           when (negb discovered)
             (on_visit
                (let* t := get_last_time in
                 log vertex >>
                 emit (SetDiscovery vertex (t + 1))) >>
              match adj self vertex with
              | Raise e => raise e
              | OutOfFuel => out_of_fuel
              | Ok neighbors =>
                  for_each neighbors (distances_neighbor source vertex)
              end) >>
           distances_loop fuel' self source) (st, queue')
      end
  end.

(** [for log in visit.logs(): ret[log.vertex] = log.distance] *)
Fixpoint distances_collect (ls : list VertexLog) (ret : dict V Z)
    : res exn (dict V Z) :=
  match ls with
  | [] => Ok ret
  | l :: ls' =>
      match distance l with
      | Some d => distances_collect ls' (dict_set (vertex l) d ret)
      | None => Raise (AttributeError (vertex l))
      end
  end.

(** The traversal part of [distances]: everything before [ret = {}]. *)
Definition distances_run (fuel : nat) (self : DiGraph) (source : V)
    : res exn unit * (tstate * list V) :=
  (on_visit (log source >> emit (SetDistance source 0)) >>
   distances_loop fuel self source) (tstate_init, [source]).

Definition distances (fuel : nat) (self : DiGraph) (source : V)
    : res exn (dict V Z) :=
  if negb (py_in source (verteces self)) then Raise (CantFindVertex source)
  else
    match distances_run fuel self source with
    | (Ok _, (st, _)) =>
        let ret :=
          foldl (λ ret vertex, dict_set vertex (-1) ret) [] (dict_keys (_edges self)) in
        distances_collect (logs (visit st)) ret
    | (Raise e, _) => Raise e
    | (OutOfFuel, _) => OutOfFuel
    end.

(** ** The [dag] factory *)

(** The outer loop of [dag]; [i] is the running slice index. *)
Fixpoint dag_loop (verteces : list V) (i : nat) (vs : list V)
    : M exn DiGraph unit :=
  match vs with
  | [] => ret tt
  | v :: vs' =>
      for_each (drop i verteces) (λ w, add_edge v w) >>
      dag_loop verteces (S i) vs'
  end.

(** [dag(verteces)]: the graph [g] is the final state. *)
Definition dag (verteces : list V) : res exn unit * DiGraph :=
  (for_each verteces add_vertex >>
   when (1 <? length verteces)%nat (dag_loop verteces 1 verteces))
    DiGraph_init.
(** ** Vocabulary of the statements *)

(** [u -> w] is an edge of the graph. *)
Definition edge (g : DiGraph) (u w : V) : Prop :=
  ∃ l, dict_get u (_edges g) = Some l ∧ w ∈ l.

(** The representation invariant every graph built through the methods
    satisfies: keys are unique (it is a dictionary), adjacency lists have
    no duplicate and hold registered vertices only. *)
Definition wf_graph (g : DiGraph) : Prop :=
  NoDup (verteces g) ∧
  ∀ v l, dict_get v (_edges g) = Some l →
         NoDup l ∧ ∀ w, w ∈ l → w ∈ verteces g.

(** [None] is not a vertex of the graph. *)
Definition none_free (g : DiGraph) : Prop :=
  ∀ v, v ∈ verteces g → is_None v = false.

(** The same invariant as a boolean check. *)
Definition wf_graphb (g : DiGraph) : bool :=
  bool_decide (NoDup (verteces g)) &&
  forallb (λ '(_, l), bool_decide (NoDup l) &&
                      forallb (λ w, py_in w (verteces g)) l) (_edges g).

(** [walk g s v n]: there is a path of [n] edges from [s] to [v]. *)
Inductive walk (g : DiGraph) (s : V) : V → nat → Prop :=
  | walk_here : walk g s s 0
  | walk_step u v n : walk g s u n → edge g u v → walk g s v (S n).

Definition reachable (g : DiGraph) (s v : V) : Prop := ∃ n, walk g s v n.

(** [n] is the minimum number of edges on a path from [s] to [v]. *)
Definition shortest (g : DiGraph) (s v : V) (n : nat) : Prop :=
  walk g s v n ∧ ∀ m, walk g s v m → (n ≤ m)%nat.

(** A batch of [add_edge] calls, in the order of the list. *)
Definition add_edges (es : list (V * V)) : M exn DiGraph unit :=
  for_each es (λ '(u, w), add_edge u w).

(** The equality of the specification: the same vertices and, for each
    vertex, the same set of adjacent targets. *)
Definition graph_equiv (g1 g2 : DiGraph) : Prop :=
  (∀ v, v ∈ verteces g1 ↔ v ∈ verteces g2) ∧
  (∀ v l1 l2, dict_get v (_edges g1) = Some l1 →
              dict_get v (_edges g2) = Some l2 → ∀ w, w ∈ l1 ↔ w ∈ l2).

(** The [add_edge] calls [reverse] issues, in order. *)
Definition reversed_pairs (old_edges : dict V (list V)) : list (V * V) :=
  old_edges ≫= λ '(source, targets), (λ target, (target, source)) <$> targets.

(** The [add_edge] calls the loops of [dag] issue, in order. *)
Fixpoint dag_pairs (verteces : list V) (i : nat) (vs : list V) : list (V * V) :=
  match vs with
  | [] => []
  | v :: vs' => ((λ w, (v, w)) <$> drop i verteces) ++ dag_pairs verteces (S i) vs'
  end.

(** *** Observations on a visit *)

Definition log_of (vis : Visit) (v : V) : option VertexLog :=
  dict_get v (_logs vis).
Definition logged (vis : Visit) (v : V) : Prop := is_Some (log_of vis v).
(** The time and parent fields of the log of [v]; a vertex without a log
    reads as the sentinels a fresh log would hold. *)
Definition dtime (vis : Visit) (v : V) : Z :=
  from_option discovery_time (-1) (log_of vis v).
Definition ftime (vis : Visit) (v : V) : Z :=
  from_option finish_time (-1) (log_of vis v).
Definition parent_of (vis : Visit) (v : V) : option V :=
  log_of vis v ≫= parent.
Definition dist_of (vis : Visit) (v : V) : option Z :=
  log_of vis v ≫= distance.

(** Two visits whose logs read the same. *)
Definition same_fields (vis vis' : Visit) : Prop :=
  ∀ u, dtime vis' u = dtime vis u ∧ ftime vis' u = ftime vis u ∧
       parent_of vis' u = parent_of vis u ∧ dist_of vis' u = dist_of vis u.

(** All time fields of a visit. *)
Definition times (vis : Visit) : list Z :=
  dict_values (_logs vis) ≫= λ l, [discovery_time l; finish_time l].

(** The maximum of a list, [0] for the empty list. *)
Definition max_of (ts : list Z) : Z :=
  match ts with
  | [] => 0
  | t :: ts' => foldl Z.max t ts'
  end.

(** [last_time] as the specification words it: the maximum of the
    non-sentinel times, [0] when there is none. *)
Definition spec_last_time (vis : Visit) : Z :=
  max_of (filter (λ t, t ≠ -1) (times vis)).

(** *** Traces *)

(** The visit reached from [vis] by the mutations of a trace. *)
Definition replay (tr : list event) (vis : Visit) : Visit :=
  foldl (λ vis e, apply_event e vis) vis tr.

(** [all_events ok vis tr]: every event of [tr] satisfies [ok] in the
    visit it is applied to, replaying from [vis]. *)
Fixpoint all_events (ok : Visit → event → Prop) (vis : Visit)
    (tr : list event) : Prop :=
  match tr with
  | [] => True
  | e :: tr' => ok vis e ∧ all_events ok (apply_event e vis) tr'
  end.

(** The discipline of the mutations: a log is created once, fields are
    set on existing logs, a time field receives [last_time() + 1], and a
    finish time is set on a discovered vertex. *)
Definition event_ok (vis : Visit) (e : event) : Prop :=
  match e with
  | NewLog v => ¬ logged vis v
  | SetDiscovery v t => logged vis v ∧ t = last_time vis + 1
  | SetFinish v t => logged vis v ∧ dtime vis v ≠ -1 ∧ t = last_time vis + 1
  | SetParent v _ | SetDistance v _ => logged vis v
  end.

(** No time field is below the sentinel. *)
Definition times_valid (vis : Visit) : Prop :=
  ∀ t, t ∈ times vis → -1 ≤ t.

Definition clocked : Visit → list event → Prop := all_events event_ok.

(** [st'] is [st] after more mutations, all following the discipline. *)
Definition extends (st st' : tstate) : Prop :=
  ∃ evs, trace st' = trace st ++ evs ∧
         visit st' = replay evs (visit st) ∧
         clocked (visit st) evs.

Definition event_time (e : event) : option Z :=
  match e with
  | SetDiscovery _ t | SetFinish _ t => Some t
  | _ => None
  end.

(** The time values assigned, in assignment order. *)
Definition timestamps (tr : list event) : list Z := omap event_time tr.

(** The discovery times assigned, in assignment order. *)
Definition discovery_times (tr : list event) : list Z :=
  omap (λ e, match e with SetDiscovery _ t => Some t | _ => None end) tr.

(** The vertices whose parent was assigned, in assignment order. *)
Definition parent_writes (tr : list event) : list V :=
  omap (λ e, match e with SetParent v _ => Some v | _ => None end) tr.




(** [descendant vis v d]: [d] is below [v] in the parent tree of [vis]. *)
Inductive descendant (vis : Visit) (v : V) : V → Prop :=
  | descendant_child d : parent_of vis d = Some v → descendant vis v d
  | descendant_step p d :
      descendant vis v p → parent_of vis d = Some p → descendant vis v d.

(** The invariant of the timestamps and parents during [dfs]: logs belong
    to registered vertices; a discovered vertex has a positive discovery
    time, below its finish time once finished; a discovered vertex was
    discovered after its parent, and finished before it once the parent
    has finished. *)
Definition dfs_inv (g : DiGraph) (vis : Visit) : Prop :=
  (∀ v, logged vis v → v ∈ verteces g) ∧
  (∀ v, (dtime vis v = -1 ∧ ftime vis v = -1) ∨
        (0 < dtime vis v ∧ (ftime vis v = -1 ∨ dtime vis v < ftime vis v))) ∧
  (∀ v p, dtime vis v ≠ -1 → parent_of vis v = Some p →
          0 < dtime vis p ∧ dtime vis p < dtime vis v ∧
          (ftime vis p ≠ -1 → ftime vis v ≠ -1 ∧ ftime vis v < ftime vis p)).

(** The vertices discovered in [vis] read the same in [vis']. *)
Definition dfs_frame (vis vis' : Visit) : Prop :=
  ∀ v, dtime vis v ≠ -1 →
       dtime vis' v = dtime vis v ∧ ftime vis' v = ftime vis v ∧
       parent_of vis' v = parent_of vis v.

(** What holds when [dfs] is entered on [x]: [x] is registered and the
    only vertex that may have a log without being discovered, and its
    parent, if set, is discovered and not finished. *)
Definition dfs_pre (g : DiGraph) (x : V) (vis : Visit) : Prop :=
  dfs_inv g vis ∧ x ∈ verteces g ∧ dtime vis x = -1 ∧
  (∀ v, logged vis v → v ≠ x → dtime vis v ≠ -1) ∧
  (∀ p, parent_of vis x = Some p → dtime vis p ≠ -1 ∧ ftime vis p = -1).

(** What holds inside the loop of [dfs] on [x], entered in visit [vis]. *)
Definition dfs_loop_inv (g : DiGraph) (x : V) (vis vis' : Visit) : Prop :=
  dfs_inv g vis' ∧
  dtime vis' x = last_time vis + 1 ∧ ftime vis' x = -1 ∧
  parent_of vis' x = parent_of vis x ∧
  dfs_frame vis vis' ∧
  (∀ v, logged vis' v → dtime vis' v ≠ -1) ∧
  (∀ v, dtime vis v = -1 → dtime vis' v ≠ -1 →
        last_time vis < dtime vis' v ∧ (v ≠ x → ftime vis' v ≠ -1)).

(** What holds when [dfs] on [x], entered in visit [vis], returns. *)
Definition dfs_post (g : DiGraph) (x : V) (vis vis' : Visit) : Prop :=
  dfs_inv g vis' ∧ dfs_frame vis vis' ∧
  (∀ v, logged vis' v → dtime vis' v ≠ -1) ∧
  (∀ v, dtime vis v = -1 → dtime vis' v ≠ -1 →
        last_time vis < dtime vis' v ∧ ftime vis' v ≠ -1) ∧
  dtime vis' x = last_time vis + 1 ∧ parent_of vis' x = parent_of vis x.

(** Registered vertices not yet discovered: the measure of [dfs]. *)
Definition undiscovered (g : DiGraph) (vis : Visit) : list V :=
  filter (λ v, dtime vis v = -1) (verteces g).

(** *** Invariants of [distances] *)

(** Logs belong to registered vertices; the source has distance 0; every
    log holds the length of some path from the source; every logged vertex
    but the source has its parent. *)
Definition dist_sound (g : DiGraph) (s : V) (vis : Visit) : Prop :=
  (∀ v, logged vis v → v ∈ verteces g) ∧
  dist_of vis s = Some 0 ∧
  (∀ v, logged vis v → ∃ d : nat, dist_of vis v = Some (Z.of_nat d) ∧ walk g s v d) ∧
  (∀ v, logged vis v → v ≠ s → parent_of vis v ≠ None).

(** The layering of the queue at level [k]: queued vertices are logged;
    discovered vertices are at distance at most [k]; the logged vertices
    still to discover are queued, at distance [k] or [k + 1], those at
    distance [k] queued before the first one at distance [k + 1]. *)
Definition dist_levels (vis : Visit) (queue : list V) (k : Z) : Prop :=
  (∀ v, v ∈ queue → logged vis v) ∧
  (∀ v d, dtime vis v ≠ -1 → dist_of vis v = Some d → d ≤ k) ∧
  (∀ v, logged vis v → dtime vis v = -1 →
        v ∈ queue ∧ (dist_of vis v = Some k ∨ dist_of vis v = Some (k + 1))) ∧
  (∀ q1 v q2, queue = q1 ++ v :: q2 → dtime vis v = -1 →
        dist_of vis v = Some (k + 1) →
        ∀ u, logged vis u → dtime vis u = -1 → dist_of vis u = Some k → u ∈ q1).

(** The edge [(u, v)] does not shorten the distance of [v]. *)
Definition relaxed_edge (vis : Visit) (u v : V) : Prop :=
  ∃ du dv, dist_of vis u = Some du ∧ dist_of vis v = Some dv ∧ dv ≤ du + 1.

(** The edges selected by [P] that leave a discovered vertex are relaxed. *)
Definition dist_relaxed (g : DiGraph) (vis : Visit) (P : V → V → Prop) : Prop :=
  ∀ u v, dtime vis u ≠ -1 → edge g u v → P u v → relaxed_edge vis u v.

(** The invariant of the [while] loop of [distances]. *)
Definition dist_inv (g : DiGraph) (s : V) (sq : tstate * list V) : Prop :=
  extends tstate_init (fst sq) ∧
  dist_sound g s (visit (fst sq)) ∧
  (∃ k, dist_levels (visit (fst sq)) (snd sq) k) ∧
  dist_relaxed g (visit (fst sq)) (λ _ _, True).

(** The invariant of the [for] loop over the neighbours of [x], popped
    from the queue [x :: q] and discovered at distance [k]; [pre] is the
    list of the neighbours already handled and [vis2] the visit when the
    loop was entered. *)
Definition dist_loop_inv (g : DiGraph) (s x : V) (q : list V) (k : Z)
    (vis2 : Visit) (pre : list V) (sq : tstate * list V) : Prop :=
  snd sq = q ++ pre ∧
  extends tstate_init (fst sq) ∧
  dist_sound g s (visit (fst sq)) ∧
  dist_levels (visit (fst sq)) (snd sq) k ∧
  (∀ v, dtime (visit (fst sq)) v = dtime vis2 v) ∧
  dtime (visit (fst sq)) x ≠ -1 ∧
  dist_of (visit (fst sq)) x = Some k ∧
  dist_relaxed g (visit (fst sq)) (λ u v, u ≠ x ∨ v ∈ pre).

(** The measure of the [while] loops: queued vertices, plus one and the
    out-degree for every vertex still to discover. *)
Definition out_degree (g : DiGraph) (v : V) : nat :=
  length (default [] (dict_get v (_edges g))).

Definition bfs_potential (g : DiGraph) (vis : Visit) (queue : list V) : nat :=
  length queue + sum_list ((λ v, S (out_degree g v)) <$> undiscovered g vis).

(** A visit is a dictionary whose logs carry their key. *)
Definition visit_wf (vis : Visit) : Prop :=
  NoDup (dict_keys (_logs vis)) ∧
  ∀ v l, (v, l) ∈ _logs vis → vertex l = v.

(** Number of occurrences of [x] in a list. *)
Definition occurrences (x : V) (l : list V) : nat :=
  length (filter (λ y, y = x) l).
End Graphs.

(** ** A concrete graph for the examples *)

(** [{1: [2, 3], 2: [4], 3: [4, 1], 4: [], 5: [5, 1]}] *)
(** Integers are not [None]. *)
#[global] Instance nat_PyNone : PyNone nat := None.
#[global] Instance Z_PyNone : PyNone Z := None.

Definition g_ex : @DiGraph nat :=
  {| _edges := [(1, [2; 3]); (2, [4]); (3, [4; 1]); (4, []); (5, [5; 1])]%nat |}.

(** ** The rest of the module *)

Section MoreGraphs.
Context {V : Type} {EqV : EqDecision V} {NoneV : PyNone V}.

(** [self.remove_self_loops()]: the body of its loop is the body of the
    loop of [remove_vertex], with the source as the vertex to strip. *)
Definition remove_self_loops : M (@exn V) (@DiGraph V) unit :=
  let* self := get in
  for_each (dict_keys (_edges self)) (λ source, strip_from source source).

(** [full_graph(verteces)]: the graph [g] is the final state. *)
Definition full_graph (verteces : list V) : res (@exn V) unit * @DiGraph V :=
  (for_each verteces add_vertex >>
   for_each verteces (λ v, for_each verteces (λ w, add_edge v w)))
    DiGraph_init.

(** [l.sort(key=key, reverse=True)]: as CPython does it, the list is
    reversed, sorted and reversed again, so that elements with equal keys
    keep their original order. *)
Definition py_sort_reverse {A} (key : A → Z) (l : list A) : list A :=
  list.reverse (py_sort key (list.reverse l)).

(** [self.logs(sort_by, descendant, get_all)] for an integer-valued
    [sort_by]. *)
Definition logs_with (sort_by : @VertexLog V → Z) (descendant get_all : bool)
    (self : @Visit V) : list (@VertexLog V) :=
  let ret :=
    if get_all then dict_values (_logs self)
    else filter (λ l, -1 < discovery_time l) (dict_values (_logs self)) in
  if descendant then py_sort_reverse sort_by ret else py_sort sort_by ret.

(** [self.verteces(sort_by, descendant, get_all)] *)
Definition verteces_with (sort_by : @VertexLog V → Z) (descendant get_all : bool)
    (self : @Visit V) : list V :=
  vertex <$> logs_with sort_by descendant get_all self.

(** The mutators of [DiGraph], as a client calls them one after the
    other; a call that raises stops the sequence. *)
Inductive mutator : Type :=
  | AddVertex (v : V)
  | AddEdge (u w : V)
  | RemoveVertex (v : V)
  | Reverse
  | RemoveSelfLoops.

Definition call (m : mutator) : M (@exn V) (@DiGraph V) unit :=
  match m with
  | AddVertex v => add_vertex v
  | AddEdge u w => add_edge u w
  | RemoveVertex v => remove_vertex v >> ret tt
  | Reverse => reverse
  | RemoveSelfLoops => remove_self_loops
  end.

(** No path of at least one edge leads from a vertex back to itself. *)
Definition acyclic (g : @DiGraph V) : Prop :=
  ∀ v n, walk g v v n → n = 0%nat.

(** What the visit of a [dfs] started at [s] knows about the graph:
    discovered vertices are reachable from [s]; a parent is the source of
    an edge to its child; every neighbour of a finished vertex was
    discovered before that vertex finished; [s] has no parent and every
    other discovered vertex has one; and, when the graph has no cycle,
    every neighbour of a finished vertex finished before it. *)
Definition dfs_reach (g : @DiGraph V) (s : V) (vis : @Visit V) : Prop :=
  (∀ v, dtime vis v ≠ -1 → reachable g s v) ∧
  (∀ v p, parent_of vis v = Some p → edge g p v) ∧
  (∀ u v, ftime vis u ≠ -1 → edge g u v →
          dtime vis v ≠ -1 ∧ dtime vis v < ftime vis u) ∧
  parent_of vis s = None ∧
  (∀ v, dtime vis v ≠ -1 → v ≠ s →
        ∃ p, parent_of vis v = field_of p ∧ edge g p v ∧
             0 < dtime vis p ∧ dtime vis p < dtime vis v) ∧
  (acyclic g → ∀ u v, ftime vis u ≠ -1 → edge g u v →
          ftime vis v ≠ -1 ∧ ftime vis v < ftime vis u).

(** A check that is enough for [acyclic]: every edge goes to a vertex of
    higher rank. *)
Definition ranked (rank : V → nat) (g : @DiGraph V) : bool :=
  forallb (λ '(u, l), forallb (λ w, (rank u <? rank w)%nat) l) (_edges g).

(** The vertices discovered and not finished: while [dfs] runs on [x]
    each of them has a path of at least one edge to [x]. *)
Definition dfs_active_reach (g : @DiGraph V) (x : V) (vis : @Visit V) : Prop :=
  ∀ a, dtime vis a ≠ -1 → ftime vis a = -1 → ∃ k, walk g a x (S k).




End MoreGraphs.

(** ** [bfs] beside [distances] *)

Section BfsTreeDefs.
Context {V : Type} {EqV : EqDecision V} {NoneV : PyNone V}.




End BfsTreeDefs.

(** ** Factories of graphs over the integers *)

(** [range(a, b)] *)
Definition py_range (a b : Z) : list Z :=
  (λ i, a + Z.of_nat i) <$> seq 0 (Z.to_nat (b - a)).

(** What [list_graph] and [star_graph] raise: their own exception, or one
    of the graph they build. *)
Inductive factory_exn : Type :=
  | FoundNegativeN (n : Z)
  | GraphException (e : @exn Z).

(** The graph built by a sequence of calls on [DiGraph()]. *)
Definition built (c : M (@exn Z) (@DiGraph Z) unit)
    : res factory_exn (@DiGraph Z) :=
  match c DiGraph_init with
  | (Ok _, g) => Ok g
  | (Raise e, _) => Raise (GraphException e)
  | (OutOfFuel, _) => OutOfFuel
  end.

Definition list_graph (n : Z) : res factory_exn (@DiGraph Z) :=
  if n =? 0 then Ok DiGraph_init
  else if n <? 0 then Raise (FoundNegativeN n)
  else
    built (for_each (py_range 1 (n + 1)) add_vertex >>
           for_each (py_range 1 n) (λ k, add_edge k (k + 1))).

Definition star_graph (n : Z) : res factory_exn (@DiGraph Z) :=
  if n =? 0 then Ok DiGraph_init
  else if n <? 0 then Raise (FoundNegativeN n)
  else
    built (for_each (py_range 1 (n + 1)) add_vertex >>
           for_each (py_range 2 (n + 1)) (λ i, add_edge 1 i)).

(** ** An acyclic graph for the examples *)

(** [{1: [2, 3], 2: [4], 3: [4], 4: []}] *)
Definition g_acyclic : @DiGraph nat :=
  {| _edges := [(1, [2; 3]); (2, [4]); (3, [4]); (4, [])]%nat |}.

(** ** A graph with the vertex [None] *)

(** In [option A] the vertex [None] stands for Python's [None]. *)
#[global] Instance option_PyNone {A} : PyNone (option A) := Some None.

(** [{None: [1, 2], 1: [2], 2: []}] *)
Definition g_None : @DiGraph (option nat) :=
  {| _edges := [(None, [Some 1; Some 2]); (Some 1, [Some 2]); (Some 2, [])]%nat |}.

(** * Properties *)

(** ** Dictionaries *)

Section DictFacts.
Context {K A : Type} {EqK : EqDecision K}.
Implicit Types (d : dict K A) (k : K) (a : A).

Lemma dict_get_Some_elem k a d : dict_get k d = Some a → (k, a) ∈ d.
Proof.
  induction d as [|[k' a'] d IH]; csimpl; [done|].
  destruct (decide (k = k')) as [->|]; intros Hg.
  - injection Hg as ->. left.
  - right. auto.
Qed.

Lemma dict_get_Some_key k a d : dict_get k d = Some a → k ∈ dict_keys d.
Proof.
  intros Hg. apply dict_get_Some_elem in Hg.
  unfold dict_keys. apply list_elem_of_fmap. by exists (k, a).
Qed.

Lemma dict_get_None k d : dict_get k d = None ↔ k ∉ dict_keys d.
Proof.
  unfold dict_keys. induction d as [|[k' a'] d IH]; csimpl.
  - split; [intros _; apply not_elem_of_nil | done].
  - rewrite not_elem_of_cons. destruct (decide (k = k')) as [->|]; [|tauto].
    split; [done | tauto].
Qed.

Lemma dict_get_is_Some k d : is_Some (dict_get k d) ↔ k ∈ dict_keys d.
Proof.
  destruct (dict_get k d) eqn:E.
  - split; [intros _; by eapply dict_get_Some_key | by eexists].
  - apply dict_get_None in E. split; [by intros [? ?] | done].
Qed.

Lemma dict_mem_true k d : dict_mem k d = true ↔ k ∈ dict_keys d.
Proof.
  rewrite <- dict_get_is_Some. unfold dict_mem.
  destruct (dict_get k d); split; try done; try (by eexists); by intros [? ?].
Qed.

Lemma dict_mem_false k d : dict_mem k d = false ↔ k ∉ dict_keys d.
Proof. rewrite <- dict_mem_true. destruct (dict_mem k d); naive_solver. Qed.

Lemma dict_elem_get k a d : NoDup (dict_keys d) → (k, a) ∈ d → dict_get k d = Some a.
Proof.
  unfold dict_keys. induction d as [|[k' a'] d IH]; csimpl; intros Hnd Hin.
  - by apply elem_of_nil in Hin.
  - apply NoDup_cons in Hnd as [Hk' Hnd]. apply elem_of_cons in Hin as [Heq|Hin].
    + injection Heq as -> ->. by rewrite decide_True.
    + destruct (decide (k = k')) as [->|]; [|auto].
      exfalso. apply Hk'. apply list_elem_of_fmap. by exists (k', a).
Qed.

Lemma dict_get_set k' k a d :
  dict_get k' (dict_set k a d) = if decide (k' = k) then Some a else dict_get k' d.
Proof.
  induction d as [|[k0 a0] d IH]; csimpl.
  - by destruct (decide (k' = k)).
  - destruct (decide (k = k0)) as [->|Hne]; csimpl.
    + by destruct (decide (k' = k0)).
    + rewrite IH. destruct (decide (k' = k0)) as [->|]; [|done].
      by rewrite decide_False.
Qed.

Lemma dict_keys_set k a d :
  dict_keys (dict_set k a d) =
  if dict_mem k d then dict_keys d else dict_keys d ++ [k].
Proof.
  unfold dict_keys, dict_mem. induction d as [|[k0 a0] d IH]; csimpl; [done|].
  destruct (decide (k = k0)) as [->|Hne]; csimpl; [done|].
  rewrite IH. by destruct (dict_get k d).
Qed.

Lemma dict_keys_set_mem k a d :
  k ∈ dict_keys d → dict_keys (dict_set k a d) = dict_keys d.
Proof. intros Hk. rewrite dict_keys_set. by apply dict_mem_true in Hk as ->. Qed.

Lemma dict_get_alter f k' k d :
  dict_get k' (dict_alter f k d) =
  if decide (k' = k) then f <$> dict_get k d else dict_get k' d.
Proof.
  induction d as [|[k0 a0] d IH]; csimpl.
  - by destruct (decide (k' = k)).
  - destruct (decide (k = k0)) as [->|Hne]; csimpl.
    + destruct (decide (k' = k0)); csimpl; [done|done].
    + rewrite IH. destruct (decide (k' = k0)) as [->|]; [|done].
      by rewrite decide_False.
Qed.

Lemma dict_keys_alter f k d : dict_keys (dict_alter f k d) = dict_keys d.
Proof.
  unfold dict_keys. induction d as [|[k0 a0] d IH]; csimpl; [done|].
  destruct (decide (k = k0)); csimpl; [done|]. by rewrite IH.
Qed.

Lemma dict_keys_pop k d :
  NoDup (dict_keys d) →
  ∀ k', k' ∈ dict_keys (dict_pop k d) ↔ k' ∈ dict_keys d ∧ k' ≠ k.
Proof.
  unfold dict_keys. induction d as [|[k0 a0] d IH]; csimpl; intros Hnd k'.
  - rewrite elem_of_nil. tauto.
  - apply NoDup_cons in Hnd as [Hk0 Hnd].
    destruct (decide (k = k0)) as [->|Hne]; csimpl.
    + rewrite elem_of_cons. split; [|naive_solver].
      intros Hin. split; [by right|]. by intros ->.
    + rewrite !elem_of_cons, IH by done. naive_solver.
Qed.

Lemma dict_pop_NoDup k d : NoDup (dict_keys d) → NoDup (dict_keys (dict_pop k d)).
Proof.
  unfold dict_keys. induction d as [|[k0 a0] d IH]; csimpl; intros Hnd; [done|].
  apply NoDup_cons in Hnd as [Hk0 Hnd].
  destruct (decide (k = k0)) as [->|Hne]; csimpl; [done|].
  apply NoDup_cons. split; [|auto].
  intros Hin. apply Hk0. by apply (dict_keys_pop k d Hnd k0) in Hin as [? _].
Qed.

Lemma dict_get_pop k' k d :
  NoDup (dict_keys d) →
  dict_get k' (dict_pop k d) = if decide (k' = k) then None else dict_get k' d.
Proof.
  intros Hnd. destruct (decide (k' = k)) as [->|Hne].
  - apply dict_get_None. rewrite dict_keys_pop by done. naive_solver.
  - clear Hnd. induction d as [|[k0 a0] d IH]; csimpl; [done|].
    destruct (decide (k = k0)) as [->|Hne0]; csimpl.
    + by rewrite decide_False.
    + by rewrite IH.
Qed.

Lemma dict_set_NoDup k a d : NoDup (dict_keys d) → NoDup (dict_keys (dict_set k a d)).
Proof.
  intros Hnd. rewrite dict_keys_set. destruct (dict_mem k d) eqn:E; [done|].
  apply dict_mem_false in E. apply NoDup_app. split_and!; [done| |apply NoDup_singleton].
  intros x Hx Hx'. apply list_elem_of_singleton in Hx' as ->. done.
Qed.
End DictFacts.

(** ** Lists *)

Section ListFacts.
Context {A : Type} {EqA : EqDecision A}.
Implicit Types (x y : A) (l : list A).

Lemma py_in_true x l : py_in x l = true ↔ x ∈ l.
Proof. unfold py_in. apply bool_decide_eq_true. Qed.

Lemma py_in_false x l : py_in x l = false ↔ x ∉ l.
Proof. unfold py_in. apply bool_decide_eq_false. Qed.

Lemma py_remove_absent x l : x ∉ l → py_remove x l = l.
Proof.
  induction l as [|y l IH]; simpl; [done|].
  rewrite not_elem_of_cons. intros [Hne Hnin].
  rewrite decide_False by done. by rewrite IH.
Qed.

Lemma py_remove_filter x l : NoDup l → py_remove x l = filter (λ y, y ≠ x) l.
Proof.
  induction l as [|y l IH]; simpl; [done|].
  intros Hnd. apply NoDup_cons in Hnd as [Hy Hnd].
  destruct (decide (x = y)) as [->|Hne].
  - rewrite filter_cons_False by (intros Hc; by apply Hc).
    symmetry. clear IH Hnd. induction l as [|z l IH]; [done|].
    apply not_elem_of_cons in Hy as [Hyz Hy].
    rewrite filter_cons_True by done. by rewrite IH.
  - rewrite filter_cons_True by (intros ->; done). by rewrite IH.
Qed.

Lemma set_eqb_true l1 l2 : set_eqb l1 l2 = true ↔ ∀ x, x ∈ l1 ↔ x ∈ l2.
Proof.
  unfold set_eqb. rewrite andb_true_iff, !forallb_forall.
  split.
  - intros [H1 H2] x. split; intros Hx.
    + apply py_in_true, H1. by apply list_elem_of_In.
    + apply py_in_true, H2. by apply list_elem_of_In.
  - intros Heq. split; intros x Hx%list_elem_of_In; apply py_in_true; by apply Heq.
Qed.

Lemma set_eqb_false l1 l2 : set_eqb l1 l2 = false ↔ ¬ ∀ x, x ∈ l1 ↔ x ∈ l2.
Proof.
  rewrite <- set_eqb_true. destruct (set_eqb l1 l2); split; done.
Qed.
End ListFacts.

(** ** Sequencing and loops *)

Section MonadFacts.
Context {E S : Type}.

Lemma bind_Ok {A B} (c : M E S A) (k : A → M E S B) s a s' :
  c s = (Ok a, s') → bind c k s = k a s'.
Proof. unfold bind. by intros ->. Qed.

Lemma for_each_app {B} (l1 l2 : list B) (f : B → M E S unit) s :
  for_each (l1 ++ l2) f s = (for_each l1 f >> for_each l2 f) s.
Proof.
  revert s. induction l1 as [|x l1 IH]; intros s; simpl; [reflexivity|].
  unfold bind at 1 2 3. destruct (f x s) as [[a| |] s']; [apply IH|done|done].
Qed.

End MonadFacts.

(** ** Vertices and edges *)

Section GraphFacts.
Context {V : Type} {EqV : EqDecision V} {NoneV : PyNone V}.
Implicit Types (g : @DiGraph V) (u v w : V) (l : list V).

Lemma edge_registered g u w : edge g u w → u ∈ verteces g.
Proof. intros (l & Hl & _). by eapply dict_get_Some_key. Qed.

Lemma field_of_Some_iff v p : field_of v = Some p ↔ p = v ∧ is_None v = false.
Proof.
  unfold field_of. destruct (is_None v); [|split; [by intros [= ->]|by intros [-> _]]].
  split; [done|by intros [_ ?]].
Qed.

Lemma field_of_not_None v : is_None v = false → field_of v = Some v.
Proof. intros Hv. by apply field_of_Some_iff. Qed.

Lemma field_of_None v : field_of v = None ↔ is_None v = true.
Proof. unfold field_of. by destruct (is_None v). Qed.

Lemma none_free_edge g u w : none_free g → edge g u w → field_of u = Some u.
Proof. intros Hnf He. by apply field_of_not_None, Hnf, (edge_registered g u w). Qed.

Lemma wf_graph_target g u w : wf_graph g → edge g u w → w ∈ verteces g.
Proof. intros [_ Hwf] (l & Hl & Hw). by apply (Hwf u l Hl). Qed.

Lemma wf_graph_init : wf_graph (@DiGraph_init V).
Proof. split; [apply NoDup_nil_2 | done]. Qed.

Lemma add_vertex_spec g v :
  ∃ g', add_vertex v g = (Ok tt, g') ∧
    (∀ u, u ∈ verteces g' ↔ u ∈ verteces g ∨ u = v) ∧
    (∀ a b, edge g' a b ↔ edge g a b) ∧
    (wf_graph g → wf_graph g').
Proof.
  unfold add_vertex. destruct (dict_mem v (_edges g)) eqn:Hm.
  - exists g. apply dict_mem_true in Hm. split_and!; try done.
    intros u. split; [by left | by intros [?| ->]].
  - eexists. split; [done|]. apply dict_mem_false in Hm.
    assert (Hk : ∀ u, u ∈ verteces {| _edges := dict_set v [] (_edges g) |}
                      ↔ u ∈ verteces g ∨ u = v).
    { intros u. unfold verteces; simpl. rewrite dict_keys_set.
      apply dict_mem_false in Hm as ->. rewrite elem_of_app, list_elem_of_singleton. done. }
    split_and!; [done| |].
    + intros a b. unfold edge; simpl. setoid_rewrite dict_get_set.
      destruct (decide (a = v)) as [->|]; [|done].
      apply dict_get_None in Hm. rewrite Hm. split; intros (l & Hl & Hb); [|done].
      injection Hl as <-. by apply elem_of_nil in Hb.
    + intros [Hnd Hwf]. split.
      * unfold verteces; simpl. by apply dict_set_NoDup.
      * intros u l. simpl. rewrite dict_get_set. destruct (decide (u = v)) as [->|].
        -- intros [= <-]. split; [apply NoDup_nil_2 | by intros ? ?%elem_of_nil].
        -- intros Hl. destruct (Hwf u l Hl) as [? Hin]. split; [done|].
           intros w Hw. apply Hk. left. by apply Hin.
Qed.

Lemma add_edge_unfold g u w l :
  dict_get u (_edges g) = Some l → w ∈ verteces g →
  add_edge u w g =
    (Ok tt, if py_in w l then g
            else {| _edges := dict_set u (l ++ [w]) (_edges g) |}).
Proof.
  intros Hl Hw. unfold add_edge.
  assert (Hu : dict_mem u (_edges g) = true) by (unfold dict_mem; by rewrite Hl).
  apply dict_mem_true in Hw. rewrite Hu, Hw, Hl. simpl.
  by destruct (py_in w l).
Qed.

Lemma add_edge_spec g u w :
  u ∈ verteces g → w ∈ verteces g →
  ∃ g', add_edge u w g = (Ok tt, g') ∧
    verteces g' = verteces g ∧
    (∀ a b, edge g' a b ↔ edge g a b ∨ (a = u ∧ b = w)) ∧
    (wf_graph g → wf_graph g').
Proof.
  intros Hu Hw. destruct (dict_get u (_edges g)) as [l|] eqn:Hl;
    [|by apply dict_get_None in Hl].
  rewrite (add_edge_unfold g u w l) by done.
  destruct (py_in w l) eqn:Hin.
  - apply py_in_true in Hin. exists g. split_and!; try done.
    intros a b. split; [by left|]. intros [?|[-> ->]]; [done|]. by exists l.
  - apply py_in_false in Hin. eexists. split; [done|].
    assert (Hk : verteces {| _edges := dict_set u (l ++ [w]) (_edges g) |} = verteces g).
    { unfold verteces; simpl. by apply dict_keys_set_mem. }
    split_and!; [done| |].
    + intros a b. unfold edge; simpl. setoid_rewrite dict_get_set.
      destruct (decide (a = u)) as [->|Hne].
      * split.
        -- intros (l' & [= <-] & Hb). apply elem_of_app in Hb as [Hb|Hb].
           ++ left. by exists l.
           ++ right. by apply list_elem_of_singleton in Hb.
        -- intros [(l' & Hl' & Hb)|[_ ->]]; exists (l ++ [w]); split; try done.
           ++ rewrite Hl in Hl'. injection Hl' as <-. apply elem_of_app. by left.
           ++ apply elem_of_app. right. by apply list_elem_of_singleton.
      * split; [by left|]. intros [?|[? _]]; done.
    + intros [Hnd Hwf]. split; [by rewrite Hk|].
      intros a l'. simpl. rewrite dict_get_set, Hk.
      destruct (decide (a = u)) as [->|]; [|by apply Hwf].
      intros [= <-]. destruct (Hwf u l Hl) as [Hndl Hreg]. split.
      * apply NoDup_app. split_and!; [done| |apply NoDup_singleton].
        by intros x Hx ->%list_elem_of_singleton.
      * intros x [Hx| ->%list_elem_of_singleton]%elem_of_app; [by apply Hreg|done].
Qed.

Lemma add_edges_spec es g :
  (∀ u w, (u, w) ∈ es → u ∈ verteces g ∧ w ∈ verteces g) →
  ∃ g', add_edges es g = (Ok tt, g') ∧
    verteces g' = verteces g ∧
    (∀ a b, edge g' a b ↔ edge g a b ∨ (a, b) ∈ es) ∧
    (wf_graph g → wf_graph g').
Proof.
  unfold add_edges. revert g. induction es as [|[u w] es IH]; intros g Hreg; simpl.
  - exists g. split_and!; try done. intros a b. rewrite elem_of_nil. tauto.
  - destruct (Hreg u w) as [Hu Hw]; [left|].
    destruct (add_edge_spec g u w Hu Hw) as (g1 & H1 & Hk1 & He1 & Hwf1).
    unfold bind. rewrite H1.
    destruct (IH g1) as (g2 & H2 & Hk2 & He2 & Hwf2).
    { intros a b Hab. rewrite Hk1. apply Hreg. by right. }
    exists g2. split_and!; [done|congruence| |tauto].
    intros a b. rewrite He2, He1, elem_of_cons. split.
    + intros [[?|[-> ->]]|?]; auto.
    + intros [?|[[= -> ->]|?]]; auto.
Qed.
End GraphFacts.

(** ** [add_edge] and [remove_vertex] *)

Section StructuralClaims.
Context {V : Type} {EqV : EqDecision V} {NoneV : PyNone V}.
Implicit Types (g : @DiGraph V) (u v w : V) (l : list V).

Lemma occurrences_absent v l : v ∉ l → occurrences v l = 0%nat.
Proof.
  unfold occurrences. induction l as [|y l IH]; [done|].
  rewrite not_elem_of_cons. intros [Hne Hnin].
  rewrite filter_cons_False by (intros ->; done). auto.
Qed.

Lemma occurrences_NoDup v l : NoDup l → v ∈ l → occurrences v l = 1%nat.
Proof.
  unfold occurrences. induction l as [|y l IH]; intros Hnd Hin.
  - by apply elem_of_nil in Hin.
  - apply NoDup_cons in Hnd as [Hy Hnd]. destruct (decide (y = v)) as [->|Hne].
    + rewrite filter_cons_True by done. simpl. f_equal. by apply occurrences_absent.
    + rewrite filter_cons_False by done. apply elem_of_cons in Hin as [->|Hin]; [done|auto].
Qed.

Lemma occurrences_app v l1 l2 :
  occurrences v (l1 ++ l2) = (occurrences v l1 + occurrences v l2)%nat.
Proof. unfold occurrences. by rewrite filter_app, length_app. Qed.

(** C5: on a graph whose adjacency sequences have no duplicate, calling
    [add_edge u v] twice for registered [u], [v] succeeds, the second call
    changes nothing, [adj u] then holds [v] exactly once, and the
    duplicate-free representation is kept. *)
Theorem add_edge_twice_once g u v :
  wf_graph g → u ∈ verteces g → v ∈ verteces g →
  ∃ g1 l,
    add_edge u v g = (Ok tt, g1) ∧
    add_edge u v g1 = (Ok tt, g1) ∧
    adj g1 u = Ok l ∧ occurrences v l = 1%nat ∧
    wf_graph g1.
Proof.
  intros Hwf Hu Hv.
  destruct (dict_get u (_edges g)) as [l0|] eqn:Hl0; [|by apply dict_get_None in Hl0].
  destruct (proj2 Hwf u l0 Hl0) as [Hnd0 _].
  destruct (add_edge_spec g u v Hu Hv) as (g1 & H1 & Hk & _ & Hwf1).
  rewrite (add_edge_unfold g u v l0) in H1 by done.
  exists g1. destruct (py_in v l0) eqn:Hin.
  - injection H1 as <-. apply py_in_true in Hin. exists l0.
    rewrite (add_edge_unfold g u v l0), (proj2 (py_in_true v l0)) by done.
    unfold adj. rewrite Hl0. split_and!; auto using occurrences_NoDup.
  - injection H1 as <-. apply py_in_false in Hin. exists (l0 ++ [v]).
    assert (Hget : dict_get u (dict_set u (l0 ++ [v]) (_edges g)) = Some (l0 ++ [v])).
    { rewrite dict_get_set. by rewrite decide_True. }
    assert (Hin' : py_in v (l0 ++ [v]) = true).
    { apply py_in_true, elem_of_app. right. by apply list_elem_of_singleton. }
    rewrite (add_edge_unfold g u v l0), (proj2 (py_in_false v l0)) by done.
    rewrite (add_edge_unfold {| _edges := dict_set u (l0 ++ [v]) (_edges g) |}
               u v (l0 ++ [v])), Hin'; [|exact Hget|by rewrite Hk].
    unfold adj; simpl. rewrite Hget. split_and!; auto.
    rewrite occurrences_app, occurrences_absent by done.
    unfold occurrences. by rewrite filter_cons_True.
Qed.

(** The loop of [remove_vertex] over a duplicate-free list of registered
    sources rewrites exactly their adjacency lists. *)
Lemma strip_loop v ks d :
  NoDup ks → (∀ k, k ∈ ks → k ∈ dict_keys d) →
  ∃ d', for_each ks (strip_from v) {| _edges := d |} = (Ok tt, {| _edges := d' |}) ∧
    dict_keys d' = dict_keys d ∧
    ∀ u, dict_get u d' =
         if decide (u ∈ ks) then py_remove v <$> dict_get u d else dict_get u d.
Proof.
  revert d. induction ks as [|k ks IH]; intros d Hnd Hreg.
  - exists d. by split_and!.
  - apply NoDup_cons in Hnd as [Hk Hnd].
    destruct (dict_get k d) as [lk|] eqn:Hlk;
      [|apply dict_get_None in Hlk; destruct Hlk; apply Hreg; left].
    set (d1 := if py_in v lk then dict_set k (py_remove v lk) d else d).
    assert (H1 : strip_from v k {| _edges := d |} = (Ok tt, {| _edges := d1 |})).
    { unfold strip_from, d1; simpl. rewrite Hlk. by destruct (py_in v lk). }
    assert (Hk1 : dict_keys d1 = dict_keys d).
    { unfold d1. destruct (py_in v lk); [|done].
      apply dict_keys_set_mem. by eapply dict_get_Some_key. }
    assert (Hg1 : ∀ u, dict_get u d1 =
              if decide (u = k) then Some (py_remove v lk) else dict_get u d).
    { intros u. unfold d1. destruct (py_in v lk) eqn:Hin.
      - apply dict_get_set.
      - destruct (decide (u = k)) as [->|]; [|done].
        apply py_in_false in Hin. by rewrite py_remove_absent. }
    destruct (IH d1 Hnd) as (d' & H2 & Hk2 & Hg2).
    { intros k' Hk'. rewrite Hk1. apply Hreg. by right. }
    exists d'. simpl. rewrite (bind_Ok _ _ _ _ _ H1). split_and!; [done|congruence|].
    intros u. rewrite Hg2, Hg1. destruct (decide (u = k)) as [->|Hne].
    + rewrite decide_False by done. rewrite decide_True by left. by rewrite Hlk.
    + destruct (decide (u ∈ ks)) as [Hin|Hnin].
      * rewrite decide_True by (by right). done.
      * rewrite decide_False; [done|]. by intros [?|?]%elem_of_cons.
Qed.

(** C4 (amended): on a well-formed graph, [remove_vertex v] for a
    registered [v] removes the key [v], strips [v] from every other
    adjacency sequence leaving its other entries and their order unchanged,
    and returns the adjacency sequence of [v] with [v] itself stripped from
    it (the sequence [v] had at the call when it had no self-loop); for an
    unregistered [v] it raises the not-found exception and leaves the graph
    unchanged. *)
Theorem remove_vertex_spec g v :
  wf_graph g →
  (∀ l, dict_get v (_edges g) = Some l →
     ∃ g', remove_vertex v g = (Ok (py_remove v l), g') ∧
       (∀ u, u ∈ verteces g' ↔ u ∈ verteces g ∧ u ≠ v) ∧
       (∀ u lu, u ≠ v → dict_get u (_edges g) = Some lu →
          dict_get u (_edges g') = Some (filter (λ w, w ≠ v) lu)) ∧
       (v ∉ l → py_remove v l = l) ∧
       wf_graph g') ∧
  (v ∉ verteces g →
     remove_vertex v g = (Raise (CouldntFindVertex v), g) ∧
     is_NotFoundError (CouldntFindVertex v) = true).
Proof.
  intros [Hnd Hwf]. split.
  - intros l Hl. destruct g as [d]. simpl in *. unfold verteces in *; simpl in *.
    destruct (strip_loop v (dict_keys d) d Hnd) as (d' & Hloop & Hk & Hg); [done|].
    assert (Hmem : dict_mem v d = true) by (unfold dict_mem; by rewrite Hl).
    assert (Hl' : dict_get v d' = Some (py_remove v l)).
    { rewrite Hg, decide_True, Hl; [done|by eapply dict_get_Some_key]. }
    assert (Hnd' : NoDup (dict_keys d')) by (by rewrite Hk).
    assert (Hother : ∀ u lu, u ≠ v → dict_get u d = Some lu →
        dict_get u (dict_pop v d') = Some (filter (λ w, w ≠ v) lu)).
    { intros u lu Hne Hlu. rewrite dict_get_pop, decide_False, Hg by done.
      rewrite decide_True by (by eapply dict_get_Some_key). rewrite Hlu. simpl.
      f_equal. apply py_remove_filter. by apply (Hwf u lu). }
    exists {| _edges := dict_pop v d' |}. split_and!.
    + unfold remove_vertex, get. unfold bind at 1. simpl. rewrite Hmem. simpl.
      unfold verteces; simpl. rewrite (bind_Ok _ _ _ _ _ Hloop).
      unfold pop_vertex; simpl. by rewrite Hl'.
    + intros u. simpl. rewrite dict_keys_pop by done. by rewrite Hk.
    + done.
    + apply py_remove_absent.
    + split; simpl; [by apply dict_pop_NoDup|].
      intros u lu'. rewrite dict_get_pop by done.
      destruct (decide (u = v)) as [->|Hne]; [done|]. intros Hlu'.
      destruct (dict_get u d) as [lu|] eqn:Hlu.
      * destruct (Hwf u lu Hlu) as [Hndu Hregu].
        rewrite Hg, decide_True, Hlu in Hlu' by (by eapply dict_get_Some_key).
        simpl in Hlu'. injection Hlu' as <-. rewrite py_remove_filter by done.
        split; [by apply NoDup_filter|].
        intros w [Hw1 Hw2]%list_elem_of_filter.
        apply dict_keys_pop; [done|]. rewrite Hk. auto.
      * rewrite Hg, Hlu in Hlu'. by destruct (decide (u ∈ dict_keys d)).
  - intros Hv. split; [|done]. apply dict_mem_false in Hv.
    unfold remove_vertex, get. unfold bind. simpl. by rewrite Hv.
Qed.
End StructuralClaims.

(** ** Equality and [reverse] *)

Section EqualityAndReverse.
Context {V : Type} {EqV : EqDecision V} {NoneV : PyNone V}.
Implicit Types (g : @DiGraph V) (u v w : V) (l : list V).

Lemma eq_loop_spec g1 g2 ks :
  (∀ k, k ∈ ks → k ∈ verteces g1 ∧ k ∈ verteces g2) →
  ∃ b, eq_loop g1 g2 ks = Ok b ∧
    (b = true ↔
     ∀ k l1 l2, k ∈ ks → dict_get k (_edges g1) = Some l1 →
                dict_get k (_edges g2) = Some l2 → ∀ w, w ∈ l1 ↔ w ∈ l2).
Proof.
  induction ks as [|k ks IH]; intros Hreg; simpl.
  - exists true. split; [done|]. split; [|done]. by intros _ k l1 l2 ?%elem_of_nil.
  - destruct (Hreg k) as [H1 H2]; [left|].
    apply dict_get_is_Some in H1 as [l1 Hl1]. apply dict_get_is_Some in H2 as [l2 Hl2].
    rewrite Hl1, Hl2. destruct (set_eqb l1 l2) eqn:Heq; simpl.
    + destruct IH as (b & Hb & Hiff); [intros k' Hk'; apply Hreg; by right|].
      exists b. split; [done|]. rewrite Hiff. rewrite set_eqb_true in Heq. split.
      * intros Hks k' l1' l2' [->|Hk']%elem_of_cons; [|by apply Hks].
        rewrite Hl1, Hl2. by intros [= <-] [= <-].
      * intros Hall k' l1' l2' Hk'. apply Hall. by right.
    + exists false. split; [done|]. split; [done|]. intros Hall.
      rewrite set_eqb_false in Heq. destruct Heq. apply (Hall k); [left|done|done].
Qed.

Lemma DiGraph_eq_total g1 g2 : ∃ b, DiGraph_eq g1 g2 = Ok b.
Proof.
  unfold DiGraph_eq. destruct (set_eqb (verteces g1) (verteces g2)) eqn:Hv; simpl.
  - rewrite set_eqb_true in Hv.
    destruct (eq_loop_spec g1 g2 (dict_keys (_edges g1))) as (b & Hb & _); [|by exists b].
    intros k Hk. split; [done|]. by apply Hv.
  - by exists false.
Qed.

Lemma DiGraph_eq_true g1 g2 : DiGraph_eq g1 g2 = Ok true ↔ graph_equiv g1 g2.
Proof.
  unfold DiGraph_eq, graph_equiv.
  destruct (set_eqb (verteces g1) (verteces g2)) eqn:Hv; simpl.
  - rewrite set_eqb_true in Hv.
    destruct (eq_loop_spec g1 g2 (dict_keys (_edges g1))) as (b & Hb & Hiff).
    { intros k Hk. split; [done|]. by apply Hv. }
    rewrite Hb. split.
    + intros [= ->]. split; [done|]. intros v l1 l2 Hl1 Hl2.
      apply (proj1 Hiff eq_refl v); [|done|done]. by eapply dict_get_Some_key.
    + intros [_ Hadj]. f_equal. apply Hiff. intros k l1 l2 _. apply Hadj.
  - rewrite set_eqb_false in Hv. split; [done|]. by intros [? _].
Qed.

Lemma graph_equiv_edges g1 g2 :
  graph_equiv g1 g2 ↔
  (∀ v, v ∈ verteces g1 ↔ v ∈ verteces g2) ∧ (∀ a b, edge g1 a b ↔ edge g2 a b).
Proof.
  unfold graph_equiv, edge. split; intros [Hv Hadj]; (split; [done|]).
  - intros a b. split; intros (l & Hl & Hb).
    + assert (Ha : a ∈ verteces g2) by (apply Hv; by eapply dict_get_Some_key).
      apply dict_get_is_Some in Ha as [l2 Hl2]. exists l2. split; [done|].
      by apply (Hadj a l l2).
    + assert (Ha : a ∈ verteces g1) by (apply Hv; by eapply dict_get_Some_key).
      apply dict_get_is_Some in Ha as [l1 Hl1]. exists l1. split; [done|].
      by apply (Hadj a l1 l).
  - intros v l1 l2 Hl1 Hl2 w. split; intros Hw.
    + destruct (proj1 (Hadj v w)) as (l & Hl & ?); [by exists l1|]. congruence.
    + destruct (proj2 (Hadj v w)) as (l & Hl & ?); [by exists l2|]. congruence.
Qed.

Lemma add_edge_Ok_registered g u w g' :
  add_edge u w g = (Ok tt, g') → u ∈ verteces g ∧ w ∈ verteces g.
Proof.
  unfold add_edge.
  destruct (dict_mem u (_edges g)) eqn:Hu; simpl; [|done].
  destruct (dict_mem w (_edges g)) eqn:Hw; simpl; [|done].
  intros _. split; by apply dict_mem_true.
Qed.

Lemma add_edges_Ok_registered es g g' :
  add_edges es g = (Ok tt, g') →
  ∀ u w, (u, w) ∈ es → u ∈ verteces g ∧ w ∈ verteces g.
Proof.
  unfold add_edges. revert g. induction es as [|[a b] es IH]; intros g Hok u w Hin.
  - by apply elem_of_nil in Hin.
  - simpl in Hok. unfold bind in Hok.
    destruct (add_edge a b g) as [[[]| |] g1] eqn:H1; [|done|done].
    destruct (add_edge_Ok_registered _ _ _ _ H1) as [Ha Hb].
    apply elem_of_cons in Hin as [[= -> ->]|Hin]; [done|].
    destruct (add_edge_spec g a b Ha Hb) as (g1' & H1' & Hk & _).
    rewrite H1 in H1'. injection H1' as <-. rewrite <- Hk. by eapply IH.
Qed.

(** C7: [==] on graphs never fails, it is true exactly when both graphs
    have the same vertices and, for each vertex, the same set of adjacent
    targets; and two batches of [add_edge] calls that differ only in their
    order lead from the same graph to equal graphs. *)
Theorem DiGraph_eq_order_insensitive g1 g2 :
  (∃ b, DiGraph_eq g1 g2 = Ok b) ∧
  (DiGraph_eq g1 g2 = Ok true ↔
     (∀ v, v ∈ verteces g1 ↔ v ∈ verteces g2) ∧
     (∀ v l1 l2, dict_get v (_edges g1) = Some l1 →
                 dict_get v (_edges g2) = Some l2 → ∀ w, w ∈ l1 ↔ w ∈ l2)) ∧
  (∀ es1 es2 ga, es1 ≡ₚ es2 → add_edges es1 g1 = (Ok tt, ga) →
     ∃ gb, add_edges es2 g1 = (Ok tt, gb) ∧ DiGraph_eq ga gb = Ok true).
Proof.
  split_and!; [apply DiGraph_eq_total | apply DiGraph_eq_true |].
  intros es1 es2 ga Hperm Ha.
  pose proof (add_edges_Ok_registered _ _ _ Ha) as Hreg1.
  destruct (add_edges_spec es1 g1 Hreg1) as (ga' & Ha' & Hka & Hea & _).
  rewrite Ha in Ha'. injection Ha' as <-.
  destruct (add_edges_spec es2 g1) as (gb & Hb & Hkb & Heb & _).
  { intros u w Hin. apply Hreg1. by rewrite Hperm. }
  exists gb. split; [done|]. apply DiGraph_eq_true, graph_equiv_edges.
  split; [intros v; by rewrite Hka, Hkb|].
  intros a b. rewrite Hea, Heb. by rewrite Hperm.
Qed.

Lemma for_each_fmap {E S B C} (h : B → C) (f : C → M E S unit) (l : list B) s :
  for_each (h <$> l) f s = for_each l (λ x, f (h x)) s.
Proof.
  revert s. induction l as [|x l IH]; intros s; csimpl; [done|].
  unfold bind. destruct (f (h x) s) as [[a| |] s']; [apply IH|done|done].
Qed.

Lemma reverse_loop_flat (d : dict V (list V)) g :
  for_each d (λ '(source, targets),
                for_each targets (λ target, add_edge target source)) g
  = add_edges (reversed_pairs d) g.
Proof.
  unfold add_edges, reversed_pairs. revert g.
  induction d as [|[s ts] d IH]; intros g; csimpl; [done|].
  rewrite for_each_app. unfold bind. rewrite for_each_fmap.
  destruct (for_each ts _ g) as [[a| |] g']; [apply IH|done|done].
Qed.

Lemma reverse_init_loop ks (d0 : dict V (list V)) :
  ∃ d', for_each (E:=@exn V) ks (λ v, modify (λ self : @DiGraph V,
                       {| _edges := dict_set v [] (_edges self) |}))
          {| _edges := d0 |} = (Ok tt, {| _edges := d' |}) ∧
    (∀ u, u ∈ dict_keys d' ↔ u ∈ dict_keys d0 ∨ u ∈ ks) ∧
    (NoDup (dict_keys d0) → NoDup (dict_keys d')) ∧
    (∀ u, dict_get u d' = if decide (u ∈ ks) then Some [] else dict_get u d0).
Proof.
  revert d0. induction ks as [|k ks IH]; intros d0; simpl.
  - exists d0. split_and!; try done. intros u. rewrite elem_of_nil. tauto.
  - destruct (IH (dict_set k [] d0)) as (d' & Hrun & Hk & Hnd & Hg).
    exists d'. unfold bind, modify at 1. simpl. split_and!; [done| | |].
    + intros u. rewrite Hk, dict_keys_set, elem_of_cons.
      destruct (dict_mem k d0) eqn:Hm.
      * apply dict_mem_true in Hm. split; [tauto|]. intros [?|[->|?]]; auto.
      * rewrite elem_of_app, list_elem_of_singleton. tauto.
    + intros Hnd0. by apply Hnd, dict_set_NoDup.
    + intros u. rewrite Hg, dict_get_set.
      destruct (decide (u ∈ ks)) as [Hin|Hnin].
      * rewrite decide_True; [done|by right].
      * destruct (decide (u = k)) as [->|Hne].
        -- rewrite decide_True; [done|left].
        -- rewrite decide_False; [done|]. by intros [?|?]%elem_of_cons.
Qed.

Lemma elem_of_reversed_pairs (d : dict V (list V)) a b :
  (a, b) ∈ reversed_pairs d ↔ ∃ ts, (b, ts) ∈ d ∧ a ∈ ts.
Proof.
  unfold reversed_pairs. rewrite list_elem_of_bind. split.
  - intros ([s ts] & Hin & Hd). apply list_elem_of_fmap in Hin as (t & [= -> ->] & Ht).
    by exists ts.
  - intros (ts & Hd & Ha). exists (b, ts). split; [|done].
    apply list_elem_of_fmap. by exists a.
Qed.

Lemma reverse_spec g :
  wf_graph g →
  ∃ g', reverse g = (Ok tt, g') ∧
    (∀ v, v ∈ verteces g' ↔ v ∈ verteces g) ∧
    (∀ a b, edge g' a b ↔ edge g b a) ∧
    wf_graph g'.
Proof.
  intros [Hnd Hwf]. destruct g as [d]. unfold verteces in Hnd, Hwf; simpl in Hnd, Hwf.
  destruct (reverse_init_loop (dict_keys d) []) as (d0 & Hinit & Hk0 & Hnd0 & Hg0).
  assert (Hwf0 : wf_graph {| _edges := d0 |}).
  { split; [apply Hnd0, NoDup_nil_2|]. intros v l. simpl. rewrite Hg0.
    destruct (decide _); [|done]. intros [= <-].
    split; [apply NoDup_nil_2 | by intros ? ?%elem_of_nil]. }
  assert (Hkeys : ∀ u, u ∈ verteces {| _edges := d0 |} ↔ u ∈ dict_keys d).
  { intros u. unfold verteces; simpl. rewrite Hk0. rewrite elem_of_nil. tauto. }
  destruct (add_edges_spec (reversed_pairs d) {| _edges := d0 |})
    as (g' & Hrun & Hk & He & Hwf').
  { intros a b (ts & Hd & Ha)%elem_of_reversed_pairs. rewrite !Hkeys.
    apply dict_elem_get in Hd; [|done]. split; [by apply (Hwf b ts)|].
    by eapply dict_get_Some_key. }
  exists g'. split_and!.
  - unfold reverse, get. unfold bind at 1. simpl.
    unfold bind at 1, put at 1. unfold bind at 1. rewrite Hinit.
    rewrite reverse_loop_flat. done.
  - intros v. by rewrite Hk, Hkeys.
  - intros a b. rewrite He, elem_of_reversed_pairs. unfold edge; simpl.
    setoid_rewrite Hg0. split.
    + intros [(l & Hl & Hb)|(ts & Hd & Ha)].
      * destruct (decide (a ∈ dict_keys d)); [|done].
        injection Hl as <-. by apply elem_of_nil in Hb.
      * exists ts. split; [by apply dict_elem_get|done].
    + intros (ts & Hd & Ha). right. exists ts. split; [by apply dict_get_Some_elem|done].
  - by apply Hwf'.
Qed.

(** C6: on a well-formed graph, [reverse] has exactly the edges [(w, u)]
    for the edges [(u, w)] the graph had before the call and the same
    vertices, and calling it twice gives a graph equal to the original
    under [==]. *)
Theorem reverse_involution g :
  wf_graph g →
  ∃ g1 g2,
    reverse g = (Ok tt, g1) ∧ reverse g1 = (Ok tt, g2) ∧
    (∀ v, v ∈ verteces g1 ↔ v ∈ verteces g) ∧
    (∀ u w, edge g1 w u ↔ edge g u w) ∧
    DiGraph_eq g2 g = Ok true.
Proof.
  intros Hwf.
  destruct (reverse_spec g Hwf) as (g1 & H1 & Hk1 & He1 & Hwf1).
  destruct (reverse_spec g1 Hwf1) as (g2 & H2 & Hk2 & He2 & Hwf2).
  exists g1, g2. split_and!; try done.
  apply DiGraph_eq_true, graph_equiv_edges. split.
  - intros v. by rewrite Hk2, Hk1.
  - intros a b. by rewrite He2, He1.
Qed.
End EqualityAndReverse.

(** ** The [dag] factory *)

Section DagFactory.
Context {V : Type} {EqV : EqDecision V} {NoneV : PyNone V}.
Implicit Types (g : @DiGraph V) (u v w : V) (l vs : list V).

Lemma add_vertices_spec vs g :
  ∃ g', for_each vs add_vertex g = (Ok tt, g') ∧
    (∀ u, u ∈ verteces g' ↔ u ∈ verteces g ∨ u ∈ vs) ∧
    (∀ a b, edge g' a b ↔ edge g a b) ∧
    (wf_graph g → wf_graph g').
Proof.
  revert g. induction vs as [|v vs IH]; intros g; simpl.
  - exists g. split_and!; try done. intros u. rewrite elem_of_nil. tauto.
  - destruct (add_vertex_spec g v) as (g1 & H1 & Hk1 & He1 & Hwf1).
    destruct (IH g1) as (g2 & H2 & Hk2 & He2 & Hwf2).
    exists g2. rewrite (bind_Ok _ _ _ _ _ H1). split_and!; [done| | |tauto].
    + intros u. rewrite Hk2, Hk1, elem_of_cons. tauto.
    + intros a b. by rewrite He2, He1.
Qed.

Lemma dag_loop_flat vs i rest g :
  dag_loop vs i rest g = add_edges (dag_pairs vs i rest) g.
Proof.
  unfold add_edges. revert i g. induction rest as [|v rest IH]; intros i g; simpl; [done|].
  rewrite for_each_app. unfold bind. rewrite for_each_fmap.
  destruct (for_each (drop i vs) _ g) as [[a| |] g']; [apply IH|done|done].
Qed.

Lemma elem_of_drop_lookup (x : V) i vs :
  x ∈ drop i vs ↔ ∃ j, vs !! j = Some x ∧ (i ≤ j)%nat.
Proof.
  rewrite list_elem_of_lookup. setoid_rewrite lookup_drop. split.
  - intros [k Hk]. exists (i + k)%nat. split; [done|lia].
  - intros (j & Hj & Hle). exists (j - i)%nat. by replace (i + (j - i))%nat with j by lia.
Qed.

Lemma elem_of_dag_pairs vs i rest a b :
  (a, b) ∈ dag_pairs vs i rest ↔
  ∃ k j, rest !! k = Some a ∧ vs !! j = Some b ∧ (i + k ≤ j)%nat.
Proof.
  revert i. induction rest as [|v rest IH]; intros i; simpl.
  - rewrite elem_of_nil. split; [done|]. by intros (k & j & Hk & _).
  - rewrite elem_of_app, list_elem_of_fmap, IH. split.
    + intros [(y & [= -> ->] & Hy)|(k & j & Hk & Hj & Hle)].
      * apply elem_of_drop_lookup in Hy as (j & Hj & Hle).
        exists 0%nat, j. split_and!; [done|done|lia].
      * exists (S k), j. split_and!; [done|done|lia].
    + intros (k & j & Hk & Hj & Hle). destruct k as [|k]; simpl in Hk.
      * injection Hk as ->. left. exists b. split; [done|].
        apply elem_of_drop_lookup. exists j. split; [done|lia].
      * right. exists k, j. split_and!; [done|done|lia].
Qed.

Lemma has_self_loops_from_spec g ks :
  (∀ k, k ∈ ks → k ∈ verteces g) →
  ∃ b, has_self_loops_from g ks = Ok b ∧ (b = true ↔ ∃ v, v ∈ ks ∧ edge g v v).
Proof.
  induction ks as [|k ks IH]; intros Hreg; simpl.
  - exists false. split; [done|]. split; [done|]. by intros (v & ?%elem_of_nil & _).
  - destruct (dict_get k (_edges g)) as [l|] eqn:Hl.
    2:{ apply dict_get_None in Hl. destruct Hl. apply Hreg. left. }
    destruct (py_in k l) eqn:Hin.
    + exists true. split; [done|]. split; [|done]. intros _. exists k.
      split; [left|]. exists l. split; [done|]. by apply py_in_true.
    + destruct IH as (b & Hb & Hiff); [intros k' Hk'; apply Hreg; by right|].
      exists b. split; [done|]. rewrite Hiff. apply py_in_false in Hin. split.
      * intros (v & Hv & He). exists v. split; [by right|done].
      * intros (v & [->|Hv]%elem_of_cons & He); [|by exists v].
        destruct He as (l' & Hl' & Hk). congruence.
Qed.

Lemma has_self_loops_spec g :
  ∃ b, has_self_loops g = Ok b ∧ (b = true ↔ ∃ v, edge g v v).
Proof.
  destruct (has_self_loops_from_spec g (dict_keys (_edges g))) as (b & Hb & Hiff); [done|].
  exists b. split; [done|]. rewrite Hiff. split.
  - intros (v & _ & He). by exists v.
  - intros (v & He). exists v. split; [|done]. by eapply edge_registered.
Qed.

(** What [dag] builds on any list: the listed vertices and an edge from
    each position to every later position. *)
Lemma dag_spec vs :
  ∃ g, dag vs = (Ok tt, g) ∧
    (∀ v, v ∈ verteces g ↔ v ∈ vs) ∧
    (∀ a b, edge g a b ↔
            ∃ i j, (i < j)%nat ∧ vs !! i = Some a ∧ vs !! j = Some b) ∧
    wf_graph g.
Proof.
  destruct (add_vertices_spec vs DiGraph_init) as (g0 & H0 & Hk0 & He0 & Hwf0).
  assert (Hk0' : ∀ v, v ∈ verteces g0 ↔ v ∈ vs).
  { intros v. rewrite Hk0. unfold verteces; simpl. rewrite elem_of_nil. tauto. }
  assert (He0' : ∀ a b, ¬ edge g0 a b).
  { intros a b. rewrite He0. by intros (l & Hl & _). }
  unfold dag. rewrite (bind_Ok _ _ _ _ _ H0).
  destruct (1 <? length vs)%nat eqn:Hlen; simpl.
  - rewrite dag_loop_flat.
    destruct (add_edges_spec (dag_pairs vs 1 vs) g0) as (g & Hg & Hk & He & Hwf).
    { intros a b (k & j & Ha & Hb & _)%elem_of_dag_pairs. rewrite !Hk0'.
      split; by eapply list_elem_of_lookup_2. }
    exists g. split_and!; [done| | |].
    + intros v. by rewrite Hk.
    + intros a b. rewrite He, elem_of_dag_pairs. split.
      * intros [?|(k & j & Ha & Hb & Hle)]; [by destruct (He0' a b)|].
        exists k, j. split_and!; [lia|done|done].
      * intros (i & j & Hlt & Ha & Hb). right. exists i, j. split_and!; [done|done|lia].
    + apply Hwf, Hwf0, wf_graph_init.
  - exists g0. apply Nat.ltb_ge in Hlen. split_and!; [done|done| |].
    + intros a b. split; [by intros ?%He0'|].
      intros (i & j & Hlt & Ha%lookup_lt_Some & Hb%lookup_lt_Some). lia.
    + apply Hwf0, wf_graph_init.
Qed.

(** The graph [dag] returns has a self-loop exactly when the input list
    repeats a vertex. *)
Lemma dag_self_loops vs :
  ∃ g, dag vs = (Ok tt, g) ∧
    (NoDup vs → has_self_loops g = Ok false) ∧
    (¬ NoDup vs → has_self_loops g = Ok true).
Proof.
  destruct (dag_spec vs) as (g & Hg & _ & He & _).
  exists g. split; [done|].
  destruct (has_self_loops_spec g) as (b & Hb & Hiff). rewrite Hb.
  split; intros Hnd; f_equal.
  - destruct b; [|done].
    destruct (proj1 Hiff eq_refl) as (v & (i & j & Hlt & Hi & Hj)%He).
    pose proof (proj1 (NoDup_alt vs) Hnd i j v Hi Hj). lia.
  - destruct b; [done|]. destruct Hnd. apply NoDup_alt. intros i j x Hi Hj.
    destruct (decide (i = j)) as [|Hne]; [done|].
    assert (Hc : false = true); [|done].
    apply Hiff. exists x. apply He.
    destruct (decide (i < j)%nat); [exists i, j|exists j, i]; split_and!; try done; lia.
Qed.
End DagFactory.

(** ** Rules for weakest preconditions *)

Section WpFacts.
Context {E S : Type}.

Lemma wp_bind {A B} (c : M E S A) (k : A → M E S B) Q R s :
  wp c (λ a s', wp (k a) Q R s') R s → wp (bind c k) Q R s.
Proof. unfold wp, bind. by destruct (c s) as [[a| |] s']. Qed.

Lemma wp_mono {A} (c : M E S A) (Q Q' : A → S → Prop) (R R' : S → Prop) s :
  wp c Q R s → (∀ a s', Q a s' → Q' a s') → (∀ s', R s' → R' s') → wp c Q' R' s.
Proof. unfold wp. destruct (c s) as [[a| |] s']; auto. Qed.

Lemma wp_when (b : bool) (c : M E S unit) Q R s :
  (b = true → wp c Q R s) → (b = false → Q tt s) → wp (when b c) Q R s.
Proof. destruct b; simpl; intros H1 H2; [by apply H1|by apply H2]. Qed.

(** Loop rule: an invariant kept by every iteration holds after the loop,
    and every abnormal exit satisfies [R]. *)
Lemma wp_for_each {B} (I : S → Prop) (l : list B) (body : B → M E S unit) R s :
  I s →
  (∀ x s, x ∈ l → I s → wp (body x) (λ _, I) R s) →
  wp (for_each l body) (λ _, I) R s.
Proof.
  revert s. induction l as [|x l IH]; intros s Hs Hbody; simpl; [done|].
  apply wp_bind. eapply wp_mono; [apply Hbody; [left|done]| |done].
  intros [] s' Hs'. apply IH; [done|]. intros y s'' Hy. apply Hbody. by right.
Qed.

(** Loop rule with the processed prefix made explicit. *)
Lemma wp_for_each_prefix {B} (I : list B → S → Prop) (l : list B)
    (body : B → M E S unit) R s :
  I [] s →
  (∀ pre x post s, l = pre ++ x :: post → I pre s →
     wp (body x) (λ _, I (pre ++ [x])) R s) →
  wp (for_each l body) (λ _, I l) R s.
Proof.
  intros Hs Hbody.
  assert (Hgen : ∀ post pre s, l = pre ++ post → I pre s →
                   wp (for_each post body) (λ _, I l) R s).
  { induction post as [|x post IH]; intros pre s0 Hl Hpre; simpl.
    - rewrite app_nil_r in Hl. by subst.
    - apply wp_bind. eapply wp_mono; [by eapply Hbody| |done].
      intros [] s' Hs'. simpl in Hs'. apply (IH (pre ++ [x])); [|done].
      by rewrite <- app_assoc. }
  by apply (Hgen l []).
Qed.

(** A computation that cannot stop abnormally returns. *)
Lemma wp_total {A} (c : M E S A) Q s :
  wp c Q (λ _, False) s → ∃ a s', c s = (Ok a, s') ∧ Q a s'.
Proof. unfold wp. destruct (c s) as [[a| |] s']; [by exists a, s'|done|done]. Qed.

Lemma wp_run {A} (c : M E S A) Q R s r s' :
  wp c Q R s → c s = (r, s') →
  match r with Ok a => Q a s' | _ => R s' end.
Proof. unfold wp. intros Hwp Hc. rewrite Hc in Hwp. by destruct r. Qed.
End WpFacts.

(** ** Logs and the clock *)

Section VisitFacts.
Context {V : Type} {EqV : EqDecision V} {NoneV : PyNone V}.
Implicit Types (vis : @Visit V) (u v w : V) (l : @VertexLog V).

Lemma log_of_NewLog vis v u :
  log_of (apply_event (NewLog v) vis) u =
  if decide (u = v) then Some (VertexLog_init v) else log_of vis u.
Proof. apply dict_get_set. Qed.

Lemma log_of_SetDiscovery vis v t u :
  log_of (apply_event (SetDiscovery v t) vis) u =
  if decide (u = v) then set_discovery_time t <$> log_of vis v else log_of vis u.
Proof. apply dict_get_alter. Qed.

Lemma log_of_SetFinish vis v t u :
  log_of (apply_event (SetFinish v t) vis) u =
  if decide (u = v) then set_finish_time t <$> log_of vis v else log_of vis u.
Proof. apply dict_get_alter. Qed.

Lemma log_of_SetParent vis v p u :
  log_of (apply_event (SetParent v p) vis) u =
  if decide (u = v) then set_parent p <$> log_of vis v else log_of vis u.
Proof. apply dict_get_alter. Qed.

Lemma log_of_SetDistance vis v d u :
  log_of (apply_event (SetDistance v d) vis) u =
  if decide (u = v) then set_distance d <$> log_of vis v else log_of vis u.
Proof. apply dict_get_alter. Qed.

Lemma logged_mem vis v : dict_mem v (_logs vis) = true ↔ logged vis v.
Proof. unfold logged, log_of. rewrite dict_mem_true. symmetry. apply dict_get_is_Some. Qed.

Lemma not_logged_mem vis v : dict_mem v (_logs vis) = false ↔ ¬ logged vis v.
Proof. rewrite <- logged_mem. by destruct (dict_mem v (_logs vis)). Qed.

Lemma is_discovered_true vis v : is_discovered vis v = true ↔ dtime vis v ≠ -1.
Proof.
  unfold is_discovered, dtime, log_of. destruct (dict_get v (_logs vis)) as [l|]; simpl; [|done].
  rewrite negb_true_iff. apply Z.eqb_neq.
Qed.

Lemma is_discovered_false vis v : is_discovered vis v = false ↔ dtime vis v = -1.
Proof.
  rewrite <- not_true_iff_false, is_discovered_true.
  destruct (decide (dtime vis v = -1)); tauto.
Qed.

Lemma last_time_step_max m l :
  last_time_step m l = Z.max (Z.max m (discovery_time l)) (finish_time l).
Proof.
  unfold last_time_step.
  destruct (Z.ltb_spec m (discovery_time l));
    match goal with |- context [?a <? ?b] => destruct (Z.ltb_spec a b) end; lia.
Qed.

Lemma foldl_step_ge (ls : list (@VertexLog V)) m :
  m ≤ foldl last_time_step m ls ∧
  ∀ l, l ∈ ls → discovery_time l ≤ foldl last_time_step m ls ∧
                finish_time l ≤ foldl last_time_step m ls.
Proof.
  revert m. induction ls as [|l0 ls IH]; intros m; simpl.
  - split; [lia|]. by intros l ?%elem_of_nil.
  - destruct (IH (last_time_step m l0)) as [Hm Hin].
    pose proof (last_time_step_max m l0). split; [lia|].
    intros l [->|Hl]%elem_of_cons; [lia|auto].
Qed.

Lemma foldl_step_le (ls : list (@VertexLog V)) m b :
  m ≤ b → (∀ l, l ∈ ls → discovery_time l ≤ b ∧ finish_time l ≤ b) →
  foldl last_time_step m ls ≤ b.
Proof.
  revert m. induction ls as [|l0 ls IH]; intros m Hm Hall; simpl; [done|].
  apply IH.
  - rewrite last_time_step_max. destruct (Hall l0); [left|]. lia.
  - intros l Hl. apply Hall. by right.
Qed.

Lemma last_time_nonneg vis : 0 ≤ last_time vis.
Proof. unfold last_time. apply foldl_step_ge. Qed.

Lemma log_of_values vis v l : log_of vis v = Some l → l ∈ dict_values (_logs vis).
Proof.
  intros Hl%dict_get_Some_elem. unfold dict_values.
  apply list_elem_of_fmap. by exists (v, l).
Qed.

Lemma dtime_le_last_time vis v : dtime vis v ≤ last_time vis.
Proof.
  unfold dtime. destruct (log_of vis v) as [l|] eqn:Hl; simpl.
  - apply log_of_values in Hl. unfold last_time. by apply foldl_step_ge.
  - pose proof (last_time_nonneg vis). lia.
Qed.

Lemma ftime_le_last_time vis v : ftime vis v ≤ last_time vis.
Proof.
  unfold ftime. destruct (log_of vis v) as [l|] eqn:Hl; simpl.
  - apply log_of_values in Hl. unfold last_time. by apply foldl_step_ge.
  - pose proof (last_time_nonneg vis). lia.
Qed.

Lemma dict_values_set_new {A} (k : V) (a : A) (d : dict V A) :
  k ∉ dict_keys d → dict_values (dict_set k a d) = dict_values d ++ [a].
Proof.
  unfold dict_keys, dict_values. induction d as [|[k0 a0] d IH]; csimpl; [done|].
  rewrite not_elem_of_cons. intros [Hne Hnin].
  rewrite decide_False by done. csimpl. by rewrite IH.
Qed.

Lemma dict_values_alter {A} (f : A → A) (k : V) (d : dict V A) a' :
  a' ∈ dict_values (dict_alter f k d) →
  a' ∈ dict_values d ∨ ∃ a, dict_get k d = Some a ∧ a' = f a.
Proof.
  unfold dict_values. induction d as [|[k0 a0] d IH]; csimpl; [by intros ?%elem_of_nil|].
  destruct (decide (k = k0)) as [->|Hne]; csimpl.
  - intros [->|Hin]%elem_of_cons; [right; by exists a0|left; by right].
  - intros [->|Hin]%elem_of_cons; [left; left|].
    destruct (IH Hin) as [?|?]; [left; by right|by right].
Qed.

Lemma last_time_NewLog vis v :
  ¬ logged vis v → last_time (apply_event (NewLog v) vis) = last_time vis.
Proof.
  intros Hv. unfold last_time; simpl. rewrite dict_values_set_new.
  - rewrite foldl_app. simpl. rewrite last_time_step_max. simpl.
    pose proof (last_time_nonneg vis). unfold last_time in *. lia.
  - intros Hk. apply Hv. by apply dict_get_is_Some.
Qed.

Lemma last_time_alter (f : @VertexLog V → @VertexLog V) vis v :
  (∀ l, discovery_time (f l) = discovery_time l ∧ finish_time (f l) = finish_time l) →
  last_time {| _logs := dict_alter f v (_logs vis) |} = last_time vis.
Proof.
  intros Hf. unfold last_time, dict_values; simpl. generalize 0.
  induction (_logs vis) as [|[k0 l0] d IH]; intros m; csimpl; [done|].
  destruct (decide (v = k0)); csimpl; [|apply IH].
  f_equal. rewrite !last_time_step_max. destruct (Hf l0) as [-> ->]. done.
Qed.

Lemma last_time_SetParent vis v p :
  last_time (apply_event (SetParent v p) vis) = last_time vis.
Proof. by apply last_time_alter. Qed.

Lemma last_time_SetDistance vis v d :
  last_time (apply_event (SetDistance v d) vis) = last_time vis.
Proof. by apply last_time_alter. Qed.

Lemma last_time_set_time (f : @VertexLog V → @VertexLog V) vis v t :
  (∀ l, (discovery_time (f l) = t ∧ finish_time (f l) = finish_time l) ∨
        (finish_time (f l) = t ∧ discovery_time (f l) = discovery_time l)) →
  logged vis v → last_time vis < t →
  last_time {| _logs := dict_alter f v (_logs vis) |} = t.
Proof.
  intros Hf [l Hl] Hlt.
  assert (Hold : ∀ l', l' ∈ dict_values (_logs vis) →
            discovery_time l' < t ∧ finish_time l' < t).
  { intros l' Hl'. pose proof (proj2 (foldl_step_ge (dict_values (_logs vis)) 0) l' Hl').
    unfold last_time in Hlt. lia. }
  apply Z.le_antisymm.
  - unfold last_time. simpl. apply foldl_step_le; [pose proof (last_time_nonneg vis); lia|].
    intros l' [Hl'|(l0 & Hl0 & ->)]%dict_values_alter.
    + apply Hold in Hl'. lia.
    + apply (log_of_values vis v), Hold in Hl0. destruct (Hf l0) as [[? ?]|[? ?]]; lia.
  - assert (Hl' : log_of {| _logs := dict_alter f v (_logs vis) |} v = Some (f l)).
    { unfold log_of; simpl. rewrite dict_get_alter, decide_True by done.
      unfold log_of in Hl. by rewrite Hl. }
    apply log_of_values in Hl'.
    pose proof (proj2 (foldl_step_ge _ 0) _ Hl') as [H1 H2].
    destruct (Hf l) as [[<- _]|[<- _]]; done.
Qed.

Lemma last_time_SetDiscovery vis v t :
  logged vis v → last_time vis < t →
  last_time (apply_event (SetDiscovery v t) vis) = t.
Proof. intros Hv Hlt. apply last_time_set_time; [|done|done]. intros l. by left. Qed.

Lemma last_time_SetFinish vis v t :
  logged vis v → last_time vis < t →
  last_time (apply_event (SetFinish v t) vis) = t.
Proof. intros Hv Hlt. apply last_time_set_time; [|done|done]. intros l. by right. Qed.
End VisitFacts.

(** ** Traces *)

Section TraceFacts.
Context {V : Type} {EqV : EqDecision V} {NoneV : PyNone V}.
Implicit Types (vis : @Visit V) (u v w : V) (e : @event V) (tr : list (@event V))
  (st : @tstate V).

Lemma replay_app tr1 tr2 vis : replay (tr1 ++ tr2) vis = replay tr2 (replay tr1 vis).
Proof. apply foldl_app. Qed.

Lemma all_events_app ok vis tr1 tr2 :
  all_events ok vis (tr1 ++ tr2) ↔
  all_events ok vis tr1 ∧ all_events ok (replay tr1 vis) tr2.
Proof.
  revert vis. induction tr1 as [|e tr1 IH]; intros vis; simpl; [tauto|].
  rewrite IH. tauto.
Qed.


Lemma extends_refl st : extends st st.
Proof. exists []. by rewrite app_nil_r. Qed.

Lemma extends_trans st1 st2 st3 : extends st1 st2 → extends st2 st3 → extends st1 st3.
Proof.
  intros (e1 & Ht1 & Hv1 & Hc1) (e2 & Ht2 & Hv2 & Hc2). exists (e1 ++ e2).
  split_and!.
  - by rewrite Ht2, Ht1, app_assoc.
  - by rewrite replay_app, <- Hv1.
  - apply all_events_app. split; [done|]. by rewrite <- Hv1.
Qed.

Lemma extends_emit st0 st e :
  extends st0 st → event_ok (visit st) e →
  extends st0 {| visit := apply_event e (visit st); trace := trace st ++ [e] |}.
Proof.
  intros Hext Hok. eapply extends_trans; [done|]. exists [e]. by split_and!.
Qed.

(** *** Effect of a disciplined event on the observations *)

Lemma event_ok_logged vis e v : logged vis v → logged (apply_event e vis) v.
Proof.
  unfold logged. intros [l Hl].
  destruct e; [rewrite log_of_NewLog|rewrite log_of_SetDiscovery|rewrite log_of_SetFinish
              |rewrite log_of_SetParent|rewrite log_of_SetDistance];
    case_decide; subst; rewrite ?Hl; by eexists.
Qed.

Lemma event_ok_last_time vis e :
  event_ok vis e →
  last_time (apply_event e vis) = default (last_time vis) (event_time e).
Proof.
  destruct e; simpl.
  - apply last_time_NewLog.
  - intros [Hl ->]. apply last_time_SetDiscovery; [done|lia].
  - intros (Hl & _ & ->). apply last_time_SetFinish; [done|lia].
  - intros _. apply last_time_SetParent.
  - intros _. apply last_time_SetDistance.
Qed.

Lemma event_ok_last_time_mono vis e :
  event_ok vis e → last_time vis ≤ last_time (apply_event e vis).
Proof.
  intros Hok. rewrite event_ok_last_time by done.
  destruct e; simpl in *; lia.
Qed.

Lemma event_ok_dtime vis e v :
  event_ok vis e → dtime vis v ≠ -1 → dtime (apply_event e vis) v ≠ -1.
Proof.
  unfold dtime, logged. pose proof (last_time_nonneg vis).
  destruct e;
    [rewrite log_of_NewLog|rewrite log_of_SetDiscovery|rewrite log_of_SetFinish
    |rewrite log_of_SetParent|rewrite log_of_SetDistance];
    simpl; case_decide; subst; try done;
    destruct (log_of vis v0) eqn:E; simpl; try done; intros Hok; try lia.
  destruct Hok. unfold logged. by rewrite E.
Qed.

Lemma event_ok_undiscovered vis e :
  event_ok vis e → (∀ v, dtime vis v = -1) →
  (∀ t, event_time e = Some t → ∃ v, e = SetDiscovery v t) ∧
  (event_time e = None → ∀ v, dtime (apply_event e vis) v = -1).
Proof.
  intros Hok Hnone. destruct e; cbn [event_ok event_time] in *.
  - split; [done|]. intros _ u. unfold dtime. rewrite log_of_NewLog.
    case_decide; [done|apply Hnone].
  - split; [|done]. intros t' [= <-]. by eexists.
  - destruct Hok as (_ & Hd & _). by destruct Hd.
  - split; [done|]. intros _ u. specialize (Hnone u) as Hu. unfold dtime in *.
    rewrite log_of_SetParent. case_decide; subst; [|done]. by destruct (log_of vis v).
  - split; [done|]. intros _ u. specialize (Hnone u) as Hu. unfold dtime in *.
    rewrite log_of_SetDistance. case_decide; subst; [|done]. by destruct (log_of vis v).
Qed.

(** *** Consequences of the discipline for a whole trace *)

Lemma clocked_last_time vis tr :
  clocked vis tr →
  last_time (replay tr vis) = last_time vis + Z.of_nat (length (timestamps tr)) ∧
  ∀ i t, timestamps tr !! i = Some t → t = last_time vis + Z.of_nat i + 1.
Proof.
  revert vis. induction tr as [|e tr IH]; intros vis; simpl.
  - intros _. split; [lia|]. intros i t. by rewrite lookup_nil.
  - intros [Hok Hrest]. destruct (IH _ Hrest) as [IH1 IH2].
    pose proof (event_ok_last_time vis e Hok) as Hlt. unfold timestamps. csimpl.
    fold (timestamps tr). destruct (event_time e) as [t0|] eqn:Het; simpl in *.
    + assert (t0 = last_time vis + 1) as Ht0.
      { destruct e; simpl in *; try done; injection Het as <-; tauto. }
      split; [rewrite IH1; lia|].
      intros [|i] t; simpl; [intros [= <-]; lia|].
      intros Hi%IH2. lia.
    + rewrite Hlt in IH1, IH2. done.
Qed.

Lemma clocked_discovery_sorted vis tr :
  clocked vis tr →
  Forall (λ t, last_time vis < t) (discovery_times tr) ∧
  StronglySorted Z.lt (discovery_times tr).
Proof.
  revert vis. induction tr as [|e tr IH]; intros vis; simpl.
  - intros _. split; constructor.
  - intros [Hok Hrest]. destruct (IH _ Hrest) as [IH1 IH2].
    pose proof (event_ok_last_time_mono vis e Hok) as Hmono.
    pose proof (event_ok_last_time vis e Hok) as Hlt.
    set (L' := last_time (apply_event e vis)) in *. clearbody L'.
    assert (Hall : Forall (λ t, last_time vis < t) (discovery_times tr)).
    { eapply Forall_impl; [done|]. simpl. intros; lia. }
    unfold discovery_times. csimpl. fold (discovery_times tr).
    destruct e; simpl in *; try done.
    destruct Hok as [Hl ->]. subst L'. split.
    + constructor; [lia|done].
    + by constructor.
Qed.

Lemma clocked_first_is_discovery vis tr :
  (∀ v, dtime vis v = -1) → clocked vis tr →
  head (discovery_times tr) = head (timestamps tr).
Proof.
  revert vis. induction tr as [|e tr IH]; intros vis Hnone; simpl; [done|].
  intros [Hok Hrest]. destruct (event_ok_undiscovered vis e Hok Hnone) as [H1 H2].
  unfold discovery_times, timestamps. csimpl.
  fold (discovery_times tr). fold (timestamps tr).
  destruct (event_time e) as [t|] eqn:Het.
  - by destruct (H1 t eq_refl) as [v ->].
  - simpl. rewrite <- (IH _ (H2 eq_refl) Hrest). by destruct e.
Qed.

Lemma foldl_step_times (ls : list (@VertexLog V)) m :
  foldl last_time_step m ls =
  foldl Z.max m (ls ≫= λ l, [discovery_time l; finish_time l]).
Proof.
  revert m. induction ls as [|l ls IH]; intros m; csimpl; [done|].
  by rewrite IH, last_time_step_max.
Qed.

Lemma foldl_max_nonsentinel (ts : list Z) m :
  0 ≤ m → (∀ t, t ∈ ts → -1 ≤ t) →
  foldl Z.max m ts = foldl Z.max m (filter (λ t, t ≠ -1) ts).
Proof.
  revert m. induction ts as [|t ts IH]; intros m Hm Hall; simpl; [done|].
  assert (-1 ≤ t) by (apply Hall; left).
  assert (∀ t', t' ∈ ts → -1 ≤ t') by (intros t' ?; apply Hall; by right).
  destruct (decide (t = -1)) as [->|Hne].
  - rewrite filter_cons_False by (intros Hc; by apply Hc).
    replace (Z.max m (-1)) with m by lia. by apply IH.
  - rewrite filter_cons_True by done. simpl. apply IH; [lia|done].
Qed.

(** [last_time] computes what the specification describes. *)
Lemma last_time_spec vis : times_valid vis → last_time vis = spec_last_time vis.
Proof.
  intros Hval. unfold last_time, spec_last_time. rewrite foldl_step_times.
  fold (times vis). rewrite foldl_max_nonsentinel by (done || lia).
  assert (Hpos : ∀ t, t ∈ filter (λ t, t ≠ -1) (times vis) → 0 ≤ t).
  { intros t [Hne Hin]%list_elem_of_filter. apply Hval in Hin. lia. }
  destruct (filter (λ t, t ≠ -1) (times vis)) as [|t ts]; simpl; [done|].
  f_equal. assert (0 ≤ t) by (apply Hpos; left). lia.
Qed.

Lemma elem_of_times vis t :
  t ∈ times vis ↔
  ∃ l, l ∈ dict_values (_logs vis) ∧ (t = discovery_time l ∨ t = finish_time l).
Proof.
  unfold times. rewrite list_elem_of_bind. split.
  - intros (l & Ht & Hl). exists l. split; [done|].
    apply elem_of_cons in Ht as [->|Ht]; [by left|].
    apply list_elem_of_singleton in Ht. by right.
  - intros (l & Hl & [->| ->]); exists l; (split; [|done]); [left|right; left].
Qed.

Lemma dict_values_set {A} (k : V) (a : A) (d : dict V A) a' :
  a' ∈ dict_values (dict_set k a d) → a' = a ∨ a' ∈ dict_values d.
Proof.
  unfold dict_values. induction d as [|[k0 a0] d IH]; csimpl.
  - intros ->%list_elem_of_singleton. by left.
  - destruct (decide (k = k0)); csimpl.
    + intros [->|?]%elem_of_cons; [by left|right; by right].
    + intros [->|Hin]%elem_of_cons; [right; left|].
      destruct (IH Hin); [by left|right; by right].
Qed.

Lemma event_ok_times_valid vis e :
  event_ok vis e → times_valid vis → times_valid (apply_event e vis).
Proof.
  intros Hok Hval t (l' & Hl' & Ht)%elem_of_times.
  assert (Hold : ∀ l, l ∈ dict_values (_logs vis) →
            -1 ≤ discovery_time l ∧ -1 ≤ finish_time l).
  { intros l Hl. split; apply Hval, elem_of_times; exists l; auto. }
  pose proof (last_time_nonneg vis) as Hnn.
  destruct e; simpl in Hl', Hok.
  - apply dict_values_set in Hl' as [->|Hl']; [simpl in Ht; lia|].
    apply Hold in Hl'. lia.
  - destruct Hok as [_ ->].
    apply dict_values_alter in Hl' as [Hl'|(l & Hl%(log_of_values vis) & ->)];
      [apply Hold in Hl'; lia|]. apply Hold in Hl. simpl in Ht. lia.
  - destruct Hok as (_ & _ & ->).
    apply dict_values_alter in Hl' as [Hl'|(l & Hl%(log_of_values vis) & ->)];
      [apply Hold in Hl'; lia|]. apply Hold in Hl. simpl in Ht. lia.
  - apply dict_values_alter in Hl' as [Hl'|(l & Hl%(log_of_values vis) & ->)];
      [apply Hold in Hl'; lia|]. apply Hold in Hl. simpl in Ht. lia.
  - apply dict_values_alter in Hl' as [Hl'|(l & Hl%(log_of_values vis) & ->)];
      [apply Hold in Hl'; lia|]. apply Hold in Hl. simpl in Ht. lia.
Qed.

Lemma clocked_times_valid vis tr :
  clocked vis tr → times_valid vis → times_valid (replay tr vis).
Proof.
  revert vis. induction tr as [|e tr IH]; intros vis; simpl; [done|].
  intros [Hok Hrest] Hval. apply IH; [done|]. by apply event_ok_times_valid.
Qed.

Lemma times_valid_init : times_valid (@Visit_init V).
Proof. intros t Ht. by apply elem_of_nil in Ht. Qed.

Lemma extends_logged st st' v :
  extends st st' → logged (visit st) v → logged (visit st') v.
Proof.
  intros (evs & _ & -> & _). generalize (visit st). clear.
  induction evs as [|e evs IH]; intros vis Hl; simpl; [done|].
  apply IH. by apply event_ok_logged.
Qed.

Lemma extends_discovered st st' v :
  extends st st' → dtime (visit st) v ≠ -1 → dtime (visit st') v ≠ -1.
Proof.
  intros (evs & _ & -> & Hc). revert Hc. generalize (visit st). clear.
  induction evs as [|e evs IH]; intros vis Hc Hd; simpl; [done|].
  destruct Hc as [Hok Hc]. apply IH; [done|]. by apply event_ok_dtime.
Qed.
End TraceFacts.

(** ** The visit primitives *)

Section Primitives.
Context {V : Type} {EqV : EqDecision V} {NoneV : PyNone V}.
Implicit Types (vis : @Visit V) (u v w : V) (e : @event V) (st : @tstate V).

Ltac absurd_logged :=
  match goal with
  | H : ¬ logged ?vis ?v, E : log_of ?vis ?v = Some _ |- _ =>
      destruct H; unfold logged; rewrite E; by eexists
  | H : logged ?vis ?v ∧ _, E : log_of ?vis ?v = None |- _ =>
      destruct H as [[? ?] _]; congruence
  | H : logged ?vis ?v, E : log_of ?vis ?v = None |- _ =>
      destruct H as [? ?]; congruence
  end.

Lemma dtime_apply vis e u :
  event_ok vis e →
  dtime (apply_event e vis) u =
  match e with
  | SetDiscovery v t => if decide (u = v) then t else dtime vis u
  | _ => dtime vis u
  end.
Proof.
  unfold dtime, logged.
  destruct e;
    [rewrite log_of_NewLog|rewrite log_of_SetDiscovery|rewrite log_of_SetFinish
    |rewrite log_of_SetParent|rewrite log_of_SetDistance];
    simpl; case_decide; subst; try done;
    destruct (log_of vis v) eqn:E; simpl; try done; intros Hok; absurd_logged.
Qed.

Lemma ftime_apply vis e u :
  event_ok vis e →
  ftime (apply_event e vis) u =
  match e with
  | SetFinish v t => if decide (u = v) then t else ftime vis u
  | _ => ftime vis u
  end.
Proof.
  unfold ftime, logged.
  destruct e;
    [rewrite log_of_NewLog|rewrite log_of_SetDiscovery|rewrite log_of_SetFinish
    |rewrite log_of_SetParent|rewrite log_of_SetDistance];
    simpl; case_decide; subst; try done;
    destruct (log_of vis v) eqn:E; simpl; try done; intros Hok; absurd_logged.
Qed.

Lemma parent_of_apply vis e u :
  event_ok vis e →
  parent_of (apply_event e vis) u =
  match e with
  | SetParent v p => if decide (u = v) then field_of p else parent_of vis u
  | _ => parent_of vis u
  end.
Proof.
  unfold parent_of, logged.
  destruct e;
    [rewrite log_of_NewLog|rewrite log_of_SetDiscovery|rewrite log_of_SetFinish
    |rewrite log_of_SetParent|rewrite log_of_SetDistance];
    simpl; case_decide; subst; try done;
    destruct (log_of vis v) eqn:E; simpl; try done; intros Hok; absurd_logged.
Qed.

Lemma dist_of_apply vis e u :
  event_ok vis e →
  dist_of (apply_event e vis) u =
  match e with
  | SetDistance v d => if decide (u = v) then Some d else dist_of vis u
  | _ => dist_of vis u
  end.
Proof.
  unfold dist_of, logged.
  destruct e;
    [rewrite log_of_NewLog|rewrite log_of_SetDiscovery|rewrite log_of_SetFinish
    |rewrite log_of_SetParent|rewrite log_of_SetDistance];
    simpl; case_decide; subst; try done;
    destruct (log_of vis v) eqn:E; simpl; try done; intros Hok; absurd_logged.
Qed.

Lemma logged_apply vis e u :
  event_ok vis e →
  logged (apply_event e vis) u ↔ logged vis u ∨ e = NewLog u.
Proof.
  unfold logged.
  destruct e;
    [rewrite log_of_NewLog|rewrite log_of_SetDiscovery|rewrite log_of_SetFinish
    |rewrite log_of_SetParent|rewrite log_of_SetDistance];
    simpl; case_decide; subst; intros Hok;
    try (destruct (log_of vis v) eqn:E; simpl);
    (split; [auto|]); try (intros [?|?]; congruence); try (by eexists).
Qed.

Lemma same_fields_NewLog vis v :
  ¬ logged vis v → same_fields vis (apply_event (NewLog v) vis).
Proof.
  intros Hv u.
  by rewrite dtime_apply, ftime_apply, parent_of_apply, dist_of_apply.
Qed.

Lemma parent_the_log vis v : parent (the_log v vis) = parent_of vis v.
Proof. unfold the_log, parent_of, log_of. by destruct (dict_get v (_logs vis)). Qed.

Lemma distance_the_log vis v : distance (the_log v vis) = dist_of vis v.
Proof. unfold the_log, dist_of, log_of. by destruct (dict_get v (_logs vis)). Qed.

(** *** Weakest preconditions of the visit primitives *)

Lemma wp_emit e (Q : unit → @tstate V → Prop) R st :
  Q tt {| visit := apply_event e (visit st); trace := trace st ++ [e] |} →
  wp (emit e) Q R st.
Proof. done. Qed.

Lemma wp_emit_ok e (Q : unit → @tstate V → Prop) R st :
  event_ok (visit st) e →
  (∀ st', extends st st' → visit st' = apply_event e (visit st) → Q tt st') →
  wp (emit e) Q R st.
Proof.
  intros Hok HQ. apply wp_emit, HQ; [|done]. by apply extends_emit; [apply extends_refl|].
Qed.

Lemma wp_log v (Q : unit → @tstate V → Prop) R st :
  (∀ st', extends st st' → same_fields (visit st) (visit st') →
          last_time (visit st') = last_time (visit st) →
          logged (visit st') v →
          (∀ u, logged (visit st') u ↔ logged (visit st) u ∨ u = v) →
          Q tt st') →
  wp (log v) Q R st.
Proof.
  intros HQ. unfold wp, log, bind, get, when.
  destruct (dict_mem v (_logs (visit st))) eqn:Hm; simpl.
  - apply logged_mem in Hm. apply HQ; try done.
    + apply extends_refl.
    + intros u. split; [by left|]. by intros [?| ->].
  - apply not_logged_mem in Hm.
    apply (HQ {| visit := apply_event (NewLog v) (visit st);
                 trace := trace st ++ [NewLog v] |}).
    + by apply extends_emit; [apply extends_refl|].
    + by apply same_fields_NewLog.
    + by apply last_time_NewLog.
    + apply logged_apply; [done|by right].
    + intros u. cbn [visit]. rewrite logged_apply by done. split.
      * intros [?|[= ->]]; auto.
      * intros [?| ->]; auto.
Qed.

Lemma wp_get_last_time (Q : Z → @tstate V → Prop) R st :
  Q (last_time (visit st)) st → wp get_last_time Q R st.
Proof. done. Qed.

Lemma wp_get_is_discovered v (Q : bool → @tstate V → Prop) R st :
  Q (is_discovered (visit st) v) st → wp (get_is_discovered v) Q R st.
Proof. done. Qed.

Lemma wp_get_parent v (Q : option V → @tstate V → Prop) R st :
  Q (parent_of (visit st) v) st → wp (get_parent v) Q R st.
Proof. intros HQ. unfold wp, get_parent, bind, get, ret. by rewrite parent_the_log. Qed.

Lemma wp_get_distance v (Q : Z → @tstate V → Prop) R st :
  match dist_of (visit st) v with Some d => Q d st | None => R st end →
  wp (get_distance v) Q R st.
Proof.
  intros HQ. unfold wp, get_distance, bind, get. rewrite distance_the_log.
  by destruct (dist_of (visit st) v).
Qed.

Lemma wp_on_visit {A} (c : M exn (@tstate V) A) Q R st (queue : list V) :
  wp c (λ a st', Q a (st', queue)) (λ st', R (st', queue)) st →
  wp (on_visit c) Q R (st, queue).
Proof. unfold wp, on_visit. by destruct (c st) as [[a| |] st']. Qed.

Lemma wp_queue_put v (Q : unit → @tstate V * list V → Prop) R st queue :
  Q tt (st, queue ++ [v]) → wp (queue_put v) Q R (st, queue).
Proof. done. Qed.

(** C10: on a non-empty graph, [dfs] from an unregistered source raises
    the not-found exception of [adj], and only after the visit it was given
    has been mutated: the source has a log whose discovery time is
    [last_time() + 1], so the visit differs from the one supplied. *)
Theorem dfs_unregistered_source_mutates fuel g s st :
  is_empty g = false → s ∉ verteces g →
  ∃ st',
    dfs (S fuel) g s (Some st) = (Raise (CouldntFindAVertex s), st') ∧
    is_NotFoundError (CouldntFindAVertex s) = true ∧
    logged (visit st') s ∧
    dtime (visit st') s = last_time (visit st) + 1 ∧
    visit st' ≠ visit st.
Proof.
  intros Hne Hs.
  assert (Hadj : adj g s = Raise (CouldntFindAVertex s)).
  { unfold adj. by apply dict_get_None in Hs as ->. }
  destruct (wp_total (log s)
              (λ _ st1, logged (visit st1) s ∧
                        last_time (visit st1) = last_time (visit st)) st)
    as ([] & st1 & Hlog & Hl1 & Hlt1).
  { apply wp_log. by intros. }
  set (e := SetDiscovery s (last_time (visit st1) + 1)).
  assert (Hok : event_ok (visit st1) e) by done.
  exists {| visit := apply_event e (visit st1); trace := trace st1 ++ [e] |}.
  assert (Hd : dtime (apply_event e (visit st1)) s = last_time (visit st) + 1).
  { rewrite dtime_apply by done. simpl. rewrite decide_True by done. lia. }
  split_and!; try done.
  - unfold dfs. simpl. rewrite Hne, Hadj. unfold bind at 1. by rewrite Hlog.
  - apply logged_apply; [done|by left].
  - cbn [visit]. intros Heq. rewrite Heq in Hd.
    pose proof (dtime_le_last_time (visit st) s). lia.
Qed.
End Primitives.

(** ** The clock of a traversal *)

Section Clock.
Context {V : Type} {EqV : EqDecision V} {NoneV : PyNone V}.
Implicit Types (g : @DiGraph V) (vis : @Visit V) (u v w : V) (st : @tstate V).

(** Every run of the body of [dfs], whatever its outcome, only adds
    disciplined mutations to the visit. *)
Lemma dfs_visit_traced fuel g x st0 st :
  extends st0 st →
  wp (dfs_visit fuel g x) (λ _ st', extends st0 st') (extends st0) st.
Proof.
  revert x st0 st. induction fuel as [|fuel IH]; intros x st0 st Hext; simpl; [exact Hext|].
  destruct (is_empty g); [exact Hext|].
  apply wp_bind, wp_log. intros st1 Hext1 _ _ Hl1 _.
  apply wp_bind, wp_get_last_time. apply wp_bind, wp_emit_ok; [done|].
  intros st2 Hext2 Hv2.
  assert (Hext02 : extends st0 st2) by eauto using extends_trans.
  assert (Hd2 : dtime (visit st2) x ≠ -1).
  { rewrite Hv2, dtime_apply by done. rewrite decide_True by done.
    pose proof (last_time_nonneg (visit st1)). lia. }
  assert (Hl2 : logged (visit st2) x) by eauto using extends_logged.
  destruct (adj g x) as [neighbors|e|]; [|exact Hext02|exact Hext02].
  apply wp_bind.
  eapply wp_mono;
    [apply (wp_for_each (λ st, extends st2 st) _ _ (extends st0)); [apply extends_refl|]| |done].
  - intros n st3 _ Hext3. apply wp_bind, wp_get_is_discovered.
    apply wp_when; [intros _|done].
    apply wp_bind, wp_log. intros st4 Hext4 _ _ Hl4 _.
    apply wp_bind, wp_emit_ok; [done|]. intros st5 Hext5 _.
    eapply wp_mono; [apply (IH n st2)| |].
    + eauto using extends_trans.
    + by intros [] st6 H6.
    + intros st6 H6. eauto using extends_trans.
  - intros [] st3 Hext3. simpl.
    apply wp_bind, wp_get_last_time. apply wp_emit_ok.
    + split_and!; [by eapply extends_logged|by eapply extends_discovered|done].
    + intros st4 Hext4 _. eauto using extends_trans.
Qed.

Lemma bfs_neighbor_traced s x n st0 st queue :
  extends st0 st →
  wp (bfs_neighbor s x n) (λ _ sq, extends st0 (fst sq))
     (λ sq, extends st0 (fst sq)) (st, queue).
Proof.
  intros Hext. unfold bfs_neighbor. apply wp_bind, wp_on_visit.
  apply wp_bind, wp_log. intros st1 Hext1 _ _ Hl1 _.
  apply wp_bind, wp_get_parent. apply wp_when; intros _.
  - apply wp_emit_ok; [done|]. intros st2 Hext2 _.
    apply wp_queue_put. simpl. eauto using extends_trans.
  - apply wp_queue_put. simpl. eauto using extends_trans.
Qed.

Lemma bfs_loop_traced fuel g s st0 sq :
  extends st0 (fst sq) →
  wp (bfs_loop fuel g s) (λ _ sq', extends st0 (fst sq'))
     (λ sq', extends st0 (fst sq')) sq.
Proof.
  revert sq. induction fuel as [|fuel IH]; intros [st queue] Hext; simpl in *; [exact Hext|].
  destruct queue as [|x queue]; [exact Hext|].
  apply wp_bind, wp_on_visit, wp_get_is_discovered.
  apply wp_bind.
  apply wp_mono with (Q := λ _ sq', extends st0 (fst sq'))
                     (R := λ sq', extends st0 (fst sq'));
    [|intros [] sq' Hsq'; by apply IH|done].
  apply wp_when; [intros _|done].
  apply wp_bind, wp_on_visit. apply wp_bind, wp_get_last_time.
  apply wp_bind, wp_log. intros st1 Hext1 _ Hlt1 Hl1 _.
  apply wp_emit_ok; [split; [done|by rewrite Hlt1]|]. intros st2 Hext2 _.
  assert (Hext02 : extends st0 st2) by eauto using extends_trans.
  destruct (adj g x) as [neighbors|e|]; [|exact Hext02|exact Hext02].
  apply (wp_for_each (λ sq', extends st0 (fst sq'))); [done|].
  intros n [st3 q3] _ Hext3. by apply bfs_neighbor_traced.
Qed.

Lemma dfs_traced fuel g s r st :
  dfs fuel g s None = (r, st) → extends tstate_init st.
Proof.
  unfold dfs. simpl. intros Hrun.
  pose proof (dfs_visit_traced fuel g s _ _ (extends_refl tstate_init)) as Hwp.
  apply (wp_run _ _ _ _ _ _ Hwp) in Hrun. by destruct r.
Qed.

Lemma bfs_traced fuel g s r st :
  bfs fuel g s = (r, st) → extends tstate_init st.
Proof.
  unfold bfs. destruct (is_empty g); [intros [= _ <-]; apply extends_refl|].
  destruct (negb _); [intros [= _ <-]; apply extends_refl|].
  destruct (bfs_loop fuel g s (tstate_init, [s])) as [r' [st' q']] eqn:Hrun.
  intros [= -> ->].
  pose proof (bfs_loop_traced fuel g s tstate_init (tstate_init, [s])
                (extends_refl tstate_init)) as Hwp.
  apply (wp_run _ _ _ _ _ _ Hwp) in Hrun. by destruct r.
Qed.

(** C3: in a run of [dfs] or [bfs] on a fresh visit, stopped anywhere,
    every time value assigned is [last_time() + 1] of the visit at that
    moment, and that [last_time()] is the maximum of the non-sentinel times
    ([0] on the fresh visit); the time values assigned are 1, 2, 3, ... in
    assignment order, so the discovery times are strictly increasing, and
    the first one is 1. *)
Theorem traversal_clock fuel g s r st :
  dfs fuel g s None = (r, st) ∨ bfs fuel g s = (r, st) →
  visit st = replay (trace st) Visit_init ∧
  last_time (@Visit_init V) = 0 ∧
  (∀ tr1 e tr2 t, trace st = tr1 ++ e :: tr2 → event_time e = Some t →
     t = last_time (replay tr1 Visit_init) + 1) ∧
  (∀ tr1 tr2, trace st = tr1 ++ tr2 →
     last_time (replay tr1 Visit_init) = spec_last_time (replay tr1 Visit_init)) ∧
  (∀ i t, timestamps (trace st) !! i = Some t → t = Z.of_nat i + 1) ∧
  StronglySorted Z.lt (discovery_times (trace st)) ∧
  (∀ t, head (discovery_times (trace st)) = Some t → t = 1).
Proof.
  intros Hrun.
  assert (Hext : extends tstate_init st).
  { destruct Hrun; [by eapply dfs_traced|by eapply bfs_traced]. }
  destruct Hext as (evs & Htr & Hvis & Hcl). simpl in Htr, Hvis, Hcl. subst evs.
  split_and!; try done.
  - intros tr1 e tr2 t Hsplit He. rewrite Hsplit in Hcl.
    apply all_events_app in Hcl as [Hcl1 [Hok _]].
    destruct e; simpl in He, Hok; try done; injection He as <-; tauto.
  - intros tr1 tr2 Hsplit. rewrite Hsplit in Hcl. apply all_events_app in Hcl as [Hcl1 _].
    apply last_time_spec, clocked_times_valid; [done|apply times_valid_init].
  - intros i t Hi. by apply (clocked_last_time _ _ Hcl) in Hi.
  - by apply (clocked_discovery_sorted _ _ Hcl).
  - intros t Ht. rewrite (clocked_first_is_discovery Visit_init) in Ht by done.
    destruct (timestamps (trace st)) as [|t0 ts] eqn:Hts; [done|].
    injection Ht as ->. by apply (proj2 (clocked_last_time _ _ Hcl) 0%nat); rewrite Hts.
Qed.
End Clock.

(** ** Parents in [bfs] *)

Section BfsParents.
Context {V : Type} {EqV : EqDecision V} {NoneV : PyNone V}.
Implicit Types (g : @DiGraph V) (vis : @Visit V) (u v w : V) (st : @tstate V)
  (e : @event V) (tr : list (@event V)).









End BfsParents.

(** ** The parenthesis structure of [dfs] *)

Section DfsParenthesis.
Context {V : Type} {EqV : EqDecision V} {NoneV : PyNone V}.
Implicit Types (g : @DiGraph V) (vis : @Visit V) (u v w x n : V) (st : @tstate V).

Lemma dtime_logged vis v : dtime vis v ≠ -1 → logged vis v.
Proof. unfold dtime, logged. by destruct (log_of vis v). Qed.

Lemma parent_of_logged vis v p : parent_of vis v = Some p → logged vis v.
Proof. unfold parent_of, logged. by destruct (log_of vis v). Qed.

Lemma filter_length_lt {A} (P Q : A → Prop) `{∀ y, Decision (P y)} `{∀ y, Decision (Q y)}
    (l : list A) (a : A) :
  (∀ y, Q y → P y) → a ∈ l → P a → ¬ Q a →
  (length (filter Q l) < length (filter P l))%nat.
Proof.
  intros HQP Hx HPx HQx.
  assert (Hle : ∀ l', (length (filter Q l') ≤ length (filter P l'))%nat).
  { induction l' as [|y l' IH]; [done|].
    destruct (decide (Q y)) as [Hy|Hy].
    - rewrite !filter_cons_True by auto. simpl. lia.
    - rewrite (filter_cons_False Q) by done.
      destruct (decide (P y)); [rewrite filter_cons_True by done; simpl; lia|].
      by rewrite filter_cons_False. }
  induction l as [|y l IH]; [by apply elem_of_nil in Hx|].
  apply elem_of_cons in Hx as [<-|Hx].
  - rewrite (filter_cons_True P), (filter_cons_False Q) by done.
    simpl. specialize (Hle l). lia.
  - specialize (IH Hx). destruct (decide (Q y)) as [Hy|Hy].
    + rewrite !filter_cons_True by auto. simpl. lia.
    + rewrite (filter_cons_False Q) by done.
      destruct (decide (P y)); [rewrite filter_cons_True by done; simpl; lia|].
      by rewrite filter_cons_False.
Qed.

Lemma undiscovered_decrease g vis vis' x :
  x ∈ verteces g → dtime vis x = -1 → dtime vis' x ≠ -1 →
  (∀ v, dtime vis v ≠ -1 → dtime vis' v ≠ -1) →
  (length (undiscovered g vis') < length (undiscovered g vis))%nat.
Proof.
  intros Hx Hd Hd' Hmono. unfold undiscovered.
  apply (filter_length_lt _ _ _ x); try done.
  intros y Hy. destruct (decide (dtime vis y = -1)); [done|]. by destruct (Hmono y).
Qed.

Lemma undiscovered_ext g vis vis' :
  (∀ v, dtime vis' v = dtime vis v) → undiscovered g vis' = undiscovered g vis.
Proof.
  intros Heq. unfold undiscovered. apply list_filter_iff. intros v. by rewrite Heq.
Qed.

Lemma dfs_loop_inv_discover g x vis vis2 :
  dfs_pre g x vis →
  (∀ u, dtime vis2 u = if decide (u = x) then last_time vis + 1 else dtime vis u) →
  (∀ u, ftime vis2 u = ftime vis u) →
  (∀ u, parent_of vis2 u = parent_of vis u) →
  (∀ u, logged vis2 u ↔ logged vis u ∨ u = x) →
  dfs_loop_inv g x vis vis2.
Proof.
  intros ((J0 & J1 & J2) & Hx & Hdx & Hlogged & Hpar) Hd2 Hf2 Hp2 Hl2.
  pose proof (last_time_nonneg vis) as HL.
  assert (Hfx : ftime vis x = -1) by (destruct (J1 x) as [[_ ?]|[? _]]; [done|lia]).
  split_and!.
  - split_and!.
    + intros v [Hv| ->]%Hl2; auto.
    + intros v. rewrite Hd2, Hf2. case_decide; subst; [right; lia|apply J1].
    + intros v p. rewrite !Hd2, !Hf2, Hp2. intros Hdv Hpv.
      destruct (decide (v = x)) as [->|Hvx].
      * destruct (Hpar p Hpv) as [Hdp Hfp].
        rewrite decide_False by (intros ->; done).
        pose proof (dtime_le_last_time vis p). destruct (J1 p) as [[? _]|[? _]]; [done|].
        split_and!; [done|lia|]. by rewrite Hfp.
      * destruct (J2 v p Hdv Hpv) as (Hp0 & Hlt & Hfin).
        rewrite decide_False by (intros ->; lia). done.
  - rewrite Hd2. by rewrite decide_True.
  - by rewrite Hf2.
  - apply Hp2.
  - intros v Hv. rewrite Hd2, Hf2, Hp2. by rewrite decide_False by (intros ->; done).
  - intros v [Hv| ->]%Hl2; rewrite Hd2.
    + destruct (decide (v = x)) as [->|Hvx]; [lia|]. by apply Hlogged.
    + rewrite decide_True by done. lia.
  - intros v Hv. rewrite Hd2. destruct (decide (v = x)) as [->|Hvx]; [|done].
    intros _. split; [lia|done].
Qed.

Lemma dfs_pre_child g x n vis vis3 vis5 :
  n ∈ verteces g →
  dfs_loop_inv g x vis vis3 → dtime vis3 n = -1 →
  (∀ u, dtime vis5 u = dtime vis3 u) →
  (∀ u, ftime vis5 u = ftime vis3 u) →
  (∀ u, parent_of vis5 u = if decide (u = n) then field_of x else parent_of vis3 u) →
  (∀ u, logged vis5 u ↔ logged vis3 u ∨ u = n) →
  dfs_pre g n vis5.
Proof.
  intros Hn ((J0 & J1 & J2) & Hdx & Hfx & Hpx & Hframe & Hlogged & Hnew) Hdn Hd5 Hf5 Hp5 Hl5.
  pose proof (last_time_nonneg vis) as HL.
  split_and!.
  - split_and!.
    + intros v [Hv| ->]%Hl5; auto.
    + intros v. rewrite Hd5, Hf5. apply J1.
    + intros v p. rewrite !Hd5, !Hf5, Hp5. intros Hdv.
      rewrite decide_False by (intros ->; done). by apply J2.
  - done.
  - by rewrite Hd5.
  - intros v [Hv| ->]%Hl5 Hvn; [|done]. rewrite Hd5. by apply Hlogged.
  - intros p. rewrite Hp5, decide_True by done. intros [-> _]%field_of_Some_iff.
    rewrite Hd5, Hf5. split; [lia|done].
Qed.

Lemma dfs_loop_inv_return g x n vis vis3 vis5 vis6 :
  dfs_pre g x vis →
  dfs_loop_inv g x vis vis3 → dtime vis3 n = -1 →
  (∀ u, dtime vis5 u = dtime vis3 u) →
  (∀ u, ftime vis5 u = ftime vis3 u) →
  (∀ u, parent_of vis5 u = if decide (u = n) then field_of x else parent_of vis3 u) →
  dfs_post g n vis5 vis6 →
  dfs_loop_inv g x vis vis6.
Proof.
  intros (_ & _ & Hdx0 & _ & _)
    (J3 & Hdx & Hfx & Hpx & Hframe & Hlogged & Hnew) Hdn Hd5 Hf5 Hp5
    (J6 & Hframe6 & Hlogged6 & Hnew6 & Hdn6 & Hpn6).
  pose proof (last_time_nonneg vis) as HL.
  assert (Hxn : x ≠ n) by (intros ->; lia).
  assert (Hdx5 : dtime vis5 x ≠ -1) by (rewrite Hd5; lia).
  split_and!; try done.
  - destruct (Hframe6 x Hdx5) as (-> & _ & _). by rewrite Hd5.
  - destruct (Hframe6 x Hdx5) as (_ & -> & _). by rewrite Hf5.
  - destruct (Hframe6 x Hdx5) as (_ & _ & ->). rewrite Hp5. by rewrite decide_False.
  - intros v Hv. destruct (Hframe v Hv) as (Hd & Hf & Hp).
    assert (Hv5 : dtime vis5 v ≠ -1) by (rewrite Hd5; congruence).
    destruct (Hframe6 v Hv5) as (-> & -> & ->).
    rewrite Hd5, Hf5, Hp5. rewrite decide_False by (intros ->; congruence). done.
  - intros v Hv0 Hv6. destruct (decide (dtime vis5 v = -1)) as [Hv5|Hv5].
    + destruct (Hnew6 v Hv5 Hv6) as [Hlt Hfin]. split; [|done].
      pose proof (dtime_le_last_time vis5 x). rewrite Hd5 in H. lia.
    + destruct (Hframe6 v Hv5) as (Hd & Hf & _). rewrite Hd, Hf, Hd5, Hf5.
      apply Hnew; [done|]. by rewrite <- Hd5.
Qed.

Lemma dfs_post_finish g x vis vis7 vis8 :
  dfs_pre g x vis → dfs_loop_inv g x vis vis7 →
  (∀ u, dtime vis8 u = dtime vis7 u) →
  (∀ u, ftime vis8 u = if decide (u = x) then last_time vis7 + 1 else ftime vis7 u) →
  (∀ u, parent_of vis8 u = parent_of vis7 u) →
  (∀ u, logged vis8 u ↔ logged vis7 u) →
  dfs_post g x vis vis8.
Proof.
  intros ((_ & _ & J2o) & _ & Hdx0 & _ & Hpar)
    ((J0 & J1 & J2) & Hdx & Hfx & Hpx & Hframe & Hlogged & Hnew) Hd8 Hf8 Hp8 Hl8.
  pose proof (last_time_nonneg vis) as HL.
  pose proof (last_time_nonneg vis7) as HL7.
  split_and!.
  - split_and!.
    + intros v Hv%Hl8. auto.
    + intros v. rewrite Hd8, Hf8. destruct (decide (v = x)) as [->|Hvx]; [|apply J1].
      right. pose proof (dtime_le_last_time vis7 x). lia.
    + intros v p. rewrite !Hd8, !Hf8, Hp8. intros Hdv Hpv.
      destruct (J2 v p Hdv Hpv) as (Hp0 & Hlt & Hfin).
      split_and!; [done|done|].
      destruct (decide (p = x)) as [->|Hpx'].
      * intros _. rewrite decide_False by (intros ->; lia).
        assert (Hv0 : dtime vis v = -1).
        { destruct (decide (dtime vis v = -1)) as [|Hv0]; [done|].
          destruct (Hframe v Hv0) as (_ & _ & Hpv0). rewrite Hpv in Hpv0.
          destruct (J2o v x Hv0) as (? & _); [done|lia]. }
        destruct (Hnew v Hv0 Hdv) as [_ Hfv]. split; [apply Hfv; intros ->; lia|].
        pose proof (ftime_le_last_time vis7 v). lia.
      * destruct (decide (v = x)) as [->|Hvx]; [|done].
        rewrite Hpx in Hpv. destruct (Hpar p Hpv) as [Hdp Hfp].
        destruct (Hframe p Hdp) as (_ & Hfp7 & _). rewrite Hfp7, Hfp. done.
  - intros v Hv. rewrite Hd8, Hf8, Hp8. rewrite decide_False by (intros ->; done).
    by apply Hframe.
  - intros v Hv%Hl8. rewrite Hd8. auto.
  - intros v Hv0. rewrite Hd8, Hf8. intros Hv7. destruct (Hnew v Hv0 Hv7) as [Hlt Hfv].
    split; [done|]. case_decide; [lia|auto].
  - by rewrite Hd8.
  - by rewrite Hp8.
Qed.

(** [dfs] on an undiscovered registered vertex returns, given fuel above
    the number of undiscovered vertices. *)
Lemma dfs_visit_spec g :
  wf_graph g → is_empty g = false →
  ∀ fuel x st,
    dfs_pre g x (visit st) →
    (length (undiscovered g (visit st)) < fuel)%nat →
    wp (dfs_visit fuel g x) (λ _ st', dfs_post g x (visit st) (visit st'))
       (λ _, False) st.
Proof.
  intros Hwf Hne. induction fuel as [|fuel IH]; intros x st Hpre Hfuel; [lia|].
  simpl. rewrite Hne.
  assert (Hx : x ∈ verteces g) by apply Hpre.
  assert (Hdx : dtime (visit st) x = -1) by apply Hpre.
  pose proof (last_time_nonneg (visit st)) as HL.
  apply wp_bind, wp_log. intros st1 Hext1 Hsame1 Hlt1 Hl1 Hlog1.
  apply wp_bind, wp_get_last_time.
  assert (Hok1 : event_ok (visit st1) (SetDiscovery x (last_time (visit st1) + 1))) by done.
  apply wp_bind, wp_emit_ok; [done|]. intros st2 Hext2 Hv2.
  assert (LI2 : dfs_loop_inv g x (visit st) (visit st2)).
  { apply dfs_loop_inv_discover; [done|..]; intros u; rewrite Hv2.
    - rewrite dtime_apply, Hlt1 by done. case_decide; [done|apply Hsame1].
    - rewrite ftime_apply by done. apply Hsame1.
    - rewrite parent_of_apply by done. apply Hsame1.
    - rewrite logged_apply, Hlog1 by done. split; [intros [?|?]; [done|congruence]|auto]. }
  apply dict_get_is_Some in Hx as [neighbors Hadj]. unfold adj. rewrite Hadj.
  assert (Hreg : ∀ n, n ∈ neighbors → n ∈ verteces g) by (by apply (proj2 Hwf x)).
  apply wp_bind.
  eapply wp_mono;
    [apply (wp_for_each (λ st', dfs_loop_inv g x (visit st) (visit st')) _ _ (λ _, False));
     [exact LI2|]| |done].
  - intros n st3 Hn LI3. apply wp_bind, wp_get_is_discovered.
    apply wp_when; [|done]. intros Hdn%negb_true_iff%is_discovered_false.
    apply wp_bind, wp_log. intros st4 Hext4 Hsame4 Hlt4 Hl4 Hlog4.
    assert (Hok4 : event_ok (visit st4) (SetParent n x)) by done.
    apply wp_bind, wp_emit_ok; [done|]. intros st5 Hext5 Hv5.
    assert (Hd5 : ∀ u, dtime (visit st5) u = dtime (visit st3) u).
    { intros u. rewrite Hv5, dtime_apply by done. apply Hsame4. }
    assert (Hf5 : ∀ u, ftime (visit st5) u = ftime (visit st3) u).
    { intros u. rewrite Hv5, ftime_apply by done. apply Hsame4. }
    assert (Hp5 : ∀ u, parent_of (visit st5) u =
                       if decide (u = n) then field_of x else parent_of (visit st3) u).
    { intros u. rewrite Hv5, parent_of_apply by done. case_decide; [done|apply Hsame4]. }
    assert (Hl5 : ∀ u, logged (visit st5) u ↔ logged (visit st3) u ∨ u = n).
    { intros u. rewrite Hv5, logged_apply, Hlog4 by done.
      split; [intros [?|?]; [done|congruence]|auto]. }
    eapply wp_mono; [apply (IH n st5)| |done].
    + by eapply dfs_pre_child; eauto.
    + rewrite (undiscovered_ext g (visit st3) (visit st5)) by done.
      assert (length (undiscovered g (visit st3)) < length (undiscovered g (visit st)))%nat;
        [|lia].
      destruct LI3 as (_ & Hdx3 & _ & _ & Hframe3 & _).
      apply (undiscovered_decrease g _ _ x); [by eapply dict_get_Some_key|done|lia|].
      intros v Hv. destruct (Hframe3 v Hv) as (-> & _). done.
    + intros [] st6 Hpost6. by eapply dfs_loop_inv_return; eauto.
  - intros [] st7 LI7. simpl.
    apply wp_bind, wp_get_last_time.
    assert (Hdx7 : dtime (visit st7) x ≠ -1).
    { destruct LI7 as (_ & -> & _). lia. }
    assert (Hok7 : event_ok (visit st7) (SetFinish x (last_time (visit st7) + 1))).
    { split_and!; [by apply dtime_logged|done|done]. }
    apply wp_emit_ok; [done|]. intros st8 Hext8 Hv8.
    apply (dfs_post_finish g x _ (visit st7)); [done|done|..]; intros u; rewrite Hv8.
    + by rewrite dtime_apply.
    + by rewrite ftime_apply.
    + by rewrite parent_of_apply.
    + rewrite logged_apply by done. split; [intros [?|?]; [done|congruence]|auto].
Qed.

Lemma descendant_bracket vis :
  (∀ v p, parent_of vis v = Some p →
     dtime vis p < dtime vis v ∧ dtime vis v < ftime vis v ∧ ftime vis v < ftime vis p) →
  ∀ v d, descendant vis v d →
    dtime vis v < dtime vis d ∧ dtime vis d < ftime vis d ∧ ftime vis d < ftime vis v.
Proof.
  intros Hpar v d Hdesc. induction Hdesc as [d Hp|p d Hdesc IH Hp].
  - by apply Hpar.
  - destruct (Hpar d p Hp) as (? & ? & ?). lia.
Qed.

(** C2: on a well-formed graph, [dfs] from a registered source on a fresh
    visit returns (with fuel above the number of vertices); in the visit
    returned every discovered vertex has a discovery time below its finish
    time, and every descendant [d] of a vertex [v] in the parent tree is
    bracketed: [v] is discovered before [d], [d] finishes after its
    discovery and before [v] finishes. *)
Theorem dfs_parenthesis fuel g s :
  wf_graph g → s ∈ verteces g → (length (verteces g) < fuel)%nat →
  ∃ st, dfs fuel g s None = (Ok tt, st) ∧
    dtime (visit st) s = 1 ∧
    (∀ v, dtime (visit st) v ≠ -1 →
       0 < dtime (visit st) v ∧ dtime (visit st) v < ftime (visit st) v) ∧
    (∀ v d, descendant (visit st) v d →
       dtime (visit st) v < dtime (visit st) d ∧
       dtime (visit st) d < ftime (visit st) d ∧
       ftime (visit st) d < ftime (visit st) v).
Proof.
  intros Hwf Hs Hfuel.
  assert (Hne : is_empty g = false).
  { unfold is_empty. apply Nat.eqb_neq. unfold verteces, dict_keys in Hs.
    destruct (_edges g); [by apply elem_of_nil in Hs|done]. }
  assert (Hpre : dfs_pre g s (@Visit_init V)).
  { unfold dfs_pre, dfs_inv. split_and!; try done.
    all: try (by intros v [? ?]).
    intros v. by left. }
  destruct (wp_total _ _ _ (dfs_visit_spec g Hwf Hne fuel s tstate_init Hpre
             ltac:(simpl; pose proof (length_filter (λ v, dtime (@Visit_init V) v = -1)
                                        (verteces g)); unfold undiscovered; lia)))
    as ([] & st & Hrun & HJ & Hframe & Hlogged & Hnew & Hds & _).
  simpl in *. destruct HJ as (J0 & J1 & J2).
  assert (Hfin : ∀ v, dtime (visit st) v ≠ -1 → ftime (visit st) v ≠ -1).
  { intros v Hv. by apply (Hnew v). }
  assert (Hbr : ∀ v, dtime (visit st) v ≠ -1 →
            0 < dtime (visit st) v ∧ dtime (visit st) v < ftime (visit st) v).
  { intros v Hv. specialize (Hfin v Hv). destruct (J1 v) as [[? _]|[? [?|?]]]; done. }
  exists st. split_and!; [done|done|done|].
  apply descendant_bracket. intros v p Hp.
    assert (Hv : dtime (visit st) v ≠ -1) by (by apply Hlogged; eapply parent_of_logged).
    destruct (J2 v p Hv Hp) as (Hp0 & Hlt & Hf).
    destruct (Hbr v Hv). split_and!; [done|done|]. apply Hf, Hfin. lia.
Qed.
End DfsParenthesis.

(** ** The layering invariant of [distances] *)

Section DistancesInvariants.
Context {V : Type} {EqV : EqDecision V} {NoneV : PyNone V}.
Implicit Types (g : @DiGraph V) (vis : @Visit V) (u v w x n s : V) (st : @tstate V)
  (q queue pre : list V) (k : Z).

Lemma dist_of_logged vis v d : dist_of vis v = Some d → logged vis v.
Proof. unfold dist_of, logged. by destruct (log_of vis v). Qed.

Lemma not_logged_dtime vis v : ¬ logged vis v → dtime vis v = -1.
Proof.
  intros Hv. destruct (decide (dtime vis v = -1)); [done|].
  destruct Hv. by apply dtime_logged.
Qed.

Lemma app_snoc_split {A} (l l1 l2 : list A) (a b : A) :
  l ++ [a] = l1 ++ b :: l2 →
  (l2 = [] ∧ l1 = l ∧ b = a) ∨ (∃ l2', l2 = l2' ++ [a] ∧ l = l1 ++ b :: l2').
Proof.
  destruct l2 as [|y l2' _] using rev_ind.
  - intros [-> ->]%app_inj_tail. by left.
  - rewrite app_comm_cons, app_assoc. intros [-> ->]%app_inj_tail. right. by exists l2'.
Qed.

Lemma dist_sound_ext g s vis vis' :
  dist_sound g s vis →
  (∀ u, logged vis' u ↔ logged vis u) →
  (∀ u, dist_of vis' u = dist_of vis u) →
  (∀ u, parent_of vis' u = parent_of vis u) →
  dist_sound g s vis'.
Proof.
  intros (D0 & D1 & D2 & D4) Hl Hd Hp. split_and!.
  - intros v Hv%Hl. auto.
  - by rewrite Hd.
  - intros v Hv%Hl. rewrite Hd. auto.
  - intros v Hv%Hl. rewrite Hp. auto.
Qed.

Lemma dist_levels_pop vis x q k :
  dist_levels vis (x :: q) k → dtime vis x ≠ -1 → dist_levels vis q k.
Proof.
  intros (D3 & Da & Db & Dc) Hx. split_and!.
  - intros v Hv. apply D3. by right.
  - done.
  - intros v Hv Hd. destruct (Db v Hv Hd) as ([->|Hin]%elem_of_cons & Hk); [done|]. done.
  - intros q1 v q2 -> Hd Hk u Hu Hud Huk.
    pose proof (Dc (x :: q1) v q2 eq_refl Hd Hk u Hu Hud Huk) as [->|?]%elem_of_cons; done.
Qed.

Lemma dist_levels_discover vis vis2 x q k :
  dist_levels vis (x :: q) k → dtime vis x = -1 →
  dtime vis2 x ≠ -1 → (∀ u, u ≠ x → dtime vis2 u = dtime vis u) →
  (∀ u, dist_of vis2 u = dist_of vis u) →
  (∀ u, logged vis2 u ↔ logged vis u) →
  ∃ k', dist_of vis x = Some k' ∧ dist_levels vis2 q k'.
Proof.
  intros (D3 & Da & Db & Dc) Hx Hx2 Hd2 Hdist Hl.
  assert (Hlx : logged vis x) by (apply D3; left).
  assert (Hund : ∀ v, dtime vis2 v = -1 → v ≠ x ∧ dtime vis v = -1).
  { intros v Hv. assert (v ≠ x) by (intros ->; done). split; [done|]. by rewrite <- Hd2. }
  destruct (Db x Hlx Hx) as [_ [Hk|Hk]].
  - exists k. split; [done|]. split_and!.
    + intros v Hv. apply Hl, D3. by right.
    + intros v d Hv. rewrite Hdist. destruct (decide (v = x)) as [->|Hvx].
      * rewrite Hk. intros [= <-]. lia.
      * rewrite Hd2 in Hv by done. by apply Da.
    + intros v Hv%Hl [Hvx Hd]%Hund. rewrite Hdist.
      destruct (Db v Hv Hd) as ([->|Hin]%elem_of_cons & Hkv); done.
    + intros q1 v q2 -> [Hvx Hd]%Hund. rewrite Hdist. intros Hkv u Hu%Hl [Hux Hud]%Hund.
      rewrite Hdist. intros Huk.
      pose proof (Dc (x :: q1) v q2 eq_refl Hd Hkv u Hu Hud Huk) as [->|?]%elem_of_cons; done.
  - assert (Hnone : ∀ u, logged vis u → dtime vis u = -1 → dist_of vis u ≠ Some k).
    { intros u Hu Hud Huk.
      pose proof (Dc [] x q eq_refl Hx Hk u Hu Hud Huk) as Hin. by apply elem_of_nil in Hin. }
    exists (k + 1). split; [done|]. split_and!.
    + intros v Hv. apply Hl, D3. by right.
    + intros v d Hv. rewrite Hdist. destruct (decide (v = x)) as [->|Hvx].
      * rewrite Hk. intros [= <-]. lia.
      * rewrite Hd2 in Hv by done. intros Hd. specialize (Da v d Hv Hd). lia.
    + intros v Hv%Hl [Hvx Hd]%Hund. rewrite Hdist.
      destruct (Db v Hv Hd) as ([->|Hin]%elem_of_cons & [Hkv|Hkv]); try done.
      * by destruct (Hnone v).
      * split; [done|by left].
    + intros q1 v q2 -> [Hvx Hd]%Hund. rewrite Hdist. intros Hkv.
      assert (Hv : logged vis v) by (by eapply dist_of_logged).
      destruct (Db v Hv Hd) as [_ [Hkv'|Hkv']]; rewrite Hkv in Hkv'; injection Hkv'; lia.
Qed.

Lemma dist_relaxed_discover g vis vis2 x :
  dist_relaxed g vis (λ _ _, True) → dtime vis x = -1 →
  (∀ u, u ≠ x → dtime vis2 u = dtime vis u) →
  (∀ u, dist_of vis2 u = dist_of vis u) →
  dist_relaxed g vis2 (λ u v, u ≠ x ∨ v ∈ []).
Proof.
  intros Hrel Hx Hd2 Hdist u v Hu He [Hux|Hin]; [|by apply elem_of_nil in Hin].
  rewrite Hd2 in Hu by done. destruct (Hrel u v Hu He I) as (du & dv & ? & ? & ?).
  exists du, dv. by rewrite !Hdist.
Qed.

Lemma dist_sound_fresh g s vis vis' x n k :
  dist_sound g s vis → ¬ logged vis n → n ∈ verteces g → edge g x n →
  dist_of vis x = Some k →
  (∀ u, logged vis' u ↔ logged vis u ∨ u = n) →
  (∀ u, dist_of vis' u = if decide (u = n) then Some (k + 1) else dist_of vis u) →
  (∀ u, parent_of vis' u = if decide (u = n) then Some x else parent_of vis u) →
  dist_sound g s vis'.
Proof.
  intros (D0 & D1 & D2 & D4) Hn Hreg He Hx Hl Hdist Hp.
  assert (Hsn : s ≠ n) by (intros <-; apply Hn; by eapply dist_of_logged).
  split_and!.
  - intros v [Hv| ->]%Hl; auto.
  - rewrite Hdist. by rewrite decide_False.
  - intros v Hv. rewrite Hdist. destruct (decide (v = n)) as [->|Hvn].
    + destruct (D2 x) as (d & Hd & Hw); [by eapply dist_of_logged|].
      exists (S d). split; [|by eapply walk_step].
      rewrite Hx in Hd. injection Hd as ->. f_equal. lia.
    + apply Hl in Hv as [Hv|?]; [auto|done].
  - intros v Hv Hvs. rewrite Hp. destruct (decide (v = n)) as [->|Hvn]; [done|].
    apply Hl in Hv as [Hv|?]; [auto|done].
Qed.

Lemma dist_levels_fresh vis vis' queue k n :
  dist_levels vis queue k → ¬ logged vis n →
  (∀ u, logged vis' u ↔ logged vis u ∨ u = n) →
  (∀ u, dtime vis' u = dtime vis u) →
  (∀ u, dist_of vis' u = if decide (u = n) then Some (k + 1) else dist_of vis u) →
  dist_levels vis' (queue ++ [n]) k.
Proof.
  intros (D3 & Da & Db & Dc) Hn Hl Hd Hdist.
  assert (Hdn : dtime vis n = -1) by (by apply not_logged_dtime).
  split_and!.
  - intros v [Hv| ->%list_elem_of_singleton]%elem_of_app; apply Hl; auto.
  - intros v d. rewrite Hd, Hdist. intros Hv.
    rewrite decide_False by (intros ->; done). by apply Da.
  - intros v Hv. rewrite Hd, Hdist. intros Hdv. rewrite elem_of_app.
    destruct (decide (v = n)) as [->|Hvn].
    + split; [right; by apply list_elem_of_singleton|by right].
    + apply Hl in Hv as [Hv|?]; [|done]. destruct (Db v Hv Hdv) as [? ?]. auto.
  - intros q1 v q2 Hsplit. rewrite Hd, Hdist. intros Hdv Hkv u Hu.
    rewrite Hd, Hdist. intros Hdu Hku.
    assert (Hun : u ≠ n).
    { intros ->. rewrite decide_True in Hku by done. injection Hku. lia. }
    rewrite decide_False in Hku by done.
    apply Hl in Hu as [Hu|?]; [|done].
    apply app_snoc_split in Hsplit as [(-> & -> & ->)|(q2' & -> & ->)].
    + by apply (Db u).
    + assert (Hvn : v ≠ n).
      { intros ->. apply Hn, D3. rewrite elem_of_app. right. left. }
      rewrite decide_False in Hkv by done.
      by apply (Dc q1 v q2' eq_refl Hdv Hkv u).
Qed.

Lemma dist_relaxed_fresh g vis vis' x n k pre :
  dist_relaxed g vis (λ u v, u ≠ x ∨ v ∈ pre) → ¬ logged vis n →
  dist_of vis x = Some k →
  (∀ u, dtime vis' u = dtime vis u) →
  (∀ u, dist_of vis' u = if decide (u = n) then Some (k + 1) else dist_of vis u) →
  dist_relaxed g vis' (λ u v, u ≠ x ∨ v ∈ pre ++ [n]).
Proof.
  intros Hrel Hn Hx Hd Hdist u v. rewrite Hd. intros Hu He HP.
  assert (Hxn : x ≠ n) by (intros <-; apply Hn; by eapply dist_of_logged).
  assert (Hold : relaxed_edge vis u v → relaxed_edge vis' u v).
  { intros (du & dv & Hdu & Hdv & Hle). exists du, dv. rewrite !Hdist.
    rewrite !decide_False; [done| |].
    - intros ->. apply Hn. by eapply dist_of_logged.
    - intros ->. apply Hn. by eapply dist_of_logged. }
  destruct HP as [Hux|[Hv| ->%list_elem_of_singleton]%elem_of_app].
  - apply Hold, Hrel; auto.
  - apply Hold, Hrel; auto.
  - destruct (decide (u = x)) as [->|Hux].
    + exists k, (k + 1). rewrite !Hdist.
      rewrite decide_False, decide_True by done. split_and!; [done|done|lia].
    + apply Hold, Hrel; auto.
Qed.

Lemma dist_levels_logged vis queue k n :
  dist_levels vis queue k → logged vis n → dist_levels vis (queue ++ [n]) k.
Proof.
  intros (D3 & Da & Db & Dc) Hn. split_and!.
  - intros v [Hv| ->%list_elem_of_singleton]%elem_of_app; auto.
  - done.
  - intros v Hv Hdv. destruct (Db v Hv Hdv) as [? ?]. split; [|done].
    apply elem_of_app. by left.
  - intros q1 v q2 Hsplit Hdv Hkv u Hu Hdu Hku.
    apply app_snoc_split in Hsplit as [(-> & -> & ->)|(q2' & -> & ->)].
    + by apply (Db u).
    + by apply (Dc q1 v q2' eq_refl Hdv Hkv u).
Qed.

Lemma dist_relaxed_logged g s vis queue x n k pre :
  dist_relaxed g vis (λ u v, u ≠ x ∨ v ∈ pre) →
  dist_sound g s vis → dist_levels vis queue k →
  dtime vis x ≠ -1 → dist_of vis x = Some k → logged vis n →
  dist_relaxed g vis (λ u v, u ≠ x ∨ v ∈ pre ++ [n]).
Proof.
  intros Hrel (_ & _ & D2 & _) (_ & Da & Db & _) Hdx Hx Hn u v Hu He HP.
  destruct HP as [Hux|[Hv| ->%list_elem_of_singleton]%elem_of_app]; [by apply Hrel; auto..|].
  destruct (decide (u = x)) as [->|Hux]; [|by apply Hrel; auto].
  destruct (D2 n Hn) as (d & Hd & _). exists k, (Z.of_nat d). split_and!; [done|done|].
  destruct (decide (dtime vis n = -1)) as [Hdn|Hdn].
  - destruct (Db n Hn Hdn) as [_ [Hk|Hk]]; rewrite Hd in Hk; injection Hk; lia.
  - specialize (Da n _ Hdn Hd). lia.
Qed.
End DistancesInvariants.

(** ** The loops of [distances] *)

Section DistancesLoop.
Context {V : Type} {EqV : EqDecision V} {NoneV : PyNone V}.
Implicit Types (g : @DiGraph V) (vis : @Visit V) (u v w x n s : V) (st : @tstate V)
  (q queue pre : list V) (k : Z).

Lemma dist_levels_ext vis vis' queue k :
  dist_levels vis queue k →
  (∀ u, logged vis' u ↔ logged vis u) →
  (∀ u, dtime vis' u = dtime vis u) →
  (∀ u, dist_of vis' u = dist_of vis u) →
  dist_levels vis' queue k.
Proof.
  intros (D3 & Da & Db & Dc) Hl Hd Hdist. split_and!.
  - intros v Hv. apply Hl. auto.
  - intros v d. rewrite Hd, Hdist. apply Da.
  - intros v Hv%Hl. rewrite Hd, !Hdist. auto.
  - intros q1 v q2 Hsplit. rewrite Hd, Hdist. intros Hdv Hkv u Hu%Hl.
    rewrite Hd, Hdist. by apply (Dc q1 v q2).
Qed.

Lemma dist_relaxed_ext g vis vis' P :
  dist_relaxed g vis P →
  (∀ u, dtime vis' u = dtime vis u) →
  (∀ u, dist_of vis' u = dist_of vis u) →
  dist_relaxed g vis' P.
Proof.
  intros Hrel Hd Hdist u v. rewrite Hd. intros Hu He HP.
  destruct (Hrel u v Hu He HP) as (du & dv & ? & ? & ?). exists du, dv. by rewrite !Hdist.
Qed.

Lemma sum_filter_discover (f : V → nat) (P P2 : V → Prop)
    `{∀ y, Decision (P y)} `{∀ y, Decision (P2 y)} (l : list V) x :
  P x → ¬ P2 x → (∀ u, u ≠ x → P2 u ↔ P u) → NoDup l →
  (x ∉ l → filter P2 l = filter P l) ∧
  (x ∈ l → sum_list (f <$> filter P l) = (f x + sum_list (f <$> filter P2 l))%nat).
Proof.
  intros HPx HP2x Hother. induction l as [|y l IH]; intros Hnd.
  - split; [done|]. by intros ?%elem_of_nil.
  - apply NoDup_cons in Hnd as [Hy Hnd]. destruct (IH Hnd) as [IH1 IH2]. split.
    + intros [Hxy Hxl]%not_elem_of_cons.
      destruct (decide (P y)) as [HPy|HPy].
      * rewrite !filter_cons_True; [|done|by apply Hother]. by rewrite IH1.
      * rewrite !filter_cons_False; [|done|by rewrite Hother]. by apply IH1.
    + intros [<-|Hxl]%elem_of_cons.
      * rewrite filter_cons_True, filter_cons_False by done. csimpl. by rewrite IH1.
      * assert (y ≠ x) by (intros ->; done).
        destruct (decide (P y)) as [HPy|HPy].
        -- rewrite !filter_cons_True; [|by apply Hother|done]. csimpl. rewrite IH2 by done. lia.
        -- rewrite !filter_cons_False; [|by rewrite Hother|done]. by apply IH2.
Qed.

Lemma bfs_potential_discover g vis vis2 x q neighbors :
  NoDup (verteces g) → dict_get x (_edges g) = Some neighbors →
  dtime vis x = -1 → dtime vis2 x ≠ -1 →
  (∀ u, u ≠ x → dtime vis2 u = dtime vis u) →
  bfs_potential g vis (x :: q) = (2 + bfs_potential g vis2 (q ++ neighbors))%nat.
Proof.
  intros Hnd Hadj Hx Hx2 Hd. unfold bfs_potential, undiscovered.
  rewrite (proj2 (sum_filter_discover (λ v, S (out_degree g v))
             (λ v, dtime vis v = -1) (λ v, dtime vis2 v = -1) (verteces g) x
             Hx Hx2 ltac:(intros u Hu; simpl; by rewrite Hd) Hnd))
    by (by eapply dict_get_Some_key).
  unfold out_degree at 1. rewrite Hadj. simpl. rewrite length_app. lia.
Qed.

Lemma distances_neighbor_spec g s x q k vis2 neighbors pre n post sq :
  wf_graph g → none_free g → dict_get x (_edges g) = Some neighbors →
  neighbors = pre ++ n :: post →
  dist_loop_inv g s x q k vis2 pre sq →
  wp (distances_neighbor s x n)
     (λ _ sq', dist_loop_inv g s x q k vis2 (pre ++ [n]) sq') (λ _, False) sq.
Proof.
  destruct sq as [st queue].
  intros Hwf Hnf Hadj Hsplit (Hq & Hext & Hsound & Hlev & Hdt & Hdx & Hkx & Hrel).
  simpl in *.
  assert (Hin : n ∈ neighbors).
  { rewrite Hsplit, elem_of_app. right. left. }
  assert (He : edge g x n) by (by exists neighbors).
  assert (Hreg : n ∈ verteces g) by (by eapply wf_graph_target).
  assert (Hls : logged (visit st) s).
  { destruct Hsound as (_ & D1 & _). by eapply dist_of_logged. }
  unfold distances_neighbor. apply wp_bind, wp_on_visit.
  apply wp_bind, wp_log. intros st1 Hext1 Hsame1 Hlt1 Hl1 Hlog1.
  apply wp_bind, wp_get_parent.
  destruct (decide (logged (visit st) n)) as [Hn|Hn].
  - assert (Hlog1' : ∀ u, logged (visit st1) u ↔ logged (visit st) u).
    { intros u. rewrite Hlog1. split; [by intros [?| ->]|auto]. }
    apply wp_when.
    { intros [Hp Hns]%andb_true_iff. exfalso.
      apply bool_decide_eq_true in Hp. apply negb_true_iff, bool_decide_eq_false in Hns.
      destruct Hsound as (_ & _ & _ & D4). apply (D4 n Hn Hns).
      by rewrite <- (proj1 (proj2 (proj2 (Hsame1 n)))). }
    intros _. apply wp_queue_put. split_and!; simpl.
    + by rewrite Hq, app_assoc.
    + eauto using extends_trans.
    + eapply dist_sound_ext; [done|done|apply Hsame1..].
    + apply dist_levels_logged; [|done].
      eapply dist_levels_ext; [done|done|apply Hsame1..].
    + intros v. rewrite <- Hdt. apply Hsame1.
    + by rewrite (proj1 (Hsame1 x)).
    + by rewrite (proj2 (proj2 (proj2 (Hsame1 x)))).
    + eapply dist_relaxed_ext; [|apply Hsame1..].
      eapply dist_relaxed_logged; eauto.
  - assert (Hns : n ≠ s) by (intros ->; done).
    assert (Hxn : x ≠ n) by (intros ->; apply Hn; by eapply dist_of_logged).
    assert (Hpn : parent_of (visit st1) n = None).
    { rewrite (proj1 (proj2 (proj2 (Hsame1 n)))). unfold parent_of, logged in *.
      destruct (log_of (visit st) n); [|done]. destruct Hn. by eexists. }
    apply wp_when.
    2:{ intros Hguard. exfalso. apply andb_false_iff in Hguard as [Hp|Hg].
        - by apply bool_decide_eq_false in Hp.
        - by apply negb_false_iff, bool_decide_eq_true in Hg. }
    intros _.
    assert (Hok1 : event_ok (visit st1) (SetParent n x)) by done.
    apply wp_bind, wp_emit_ok; [done|]. intros st2 Hext2 Hv2.
    assert (Hlx : logged (visit st) x) by (by eapply dist_of_logged).
    apply wp_bind, wp_bind, wp_log. intros st2' Hext2' Hsame2 _ _ Hlog2.
    assert (Hkx2 : dist_of (visit st2') x = Some k).
    { rewrite (proj2 (proj2 (proj2 (Hsame2 x)))), Hv2, dist_of_apply by done.
      by rewrite (proj2 (proj2 (proj2 (Hsame1 x)))). }
    apply wp_get_distance. rewrite Hkx2.
    assert (Hok2 : event_ok (visit st2') (SetDistance n (k + 1))).
    { simpl. eapply extends_logged; [exact Hext2'|]. by eapply extends_logged. }
    apply wp_emit_ok; [done|]. intros st3 Hext3 Hv3.
    assert (Hl3 : ∀ u, logged (visit st3) u ↔ logged (visit st) u ∨ u = n).
    { intros u. rewrite Hv3, logged_apply, Hlog2, Hv2, logged_apply, Hlog1 by done.
      split; [intros [[[[?|?]|?]| ->]|?]; (auto || congruence)|auto]. }
    assert (Hd3 : ∀ u, dtime (visit st3) u = dtime (visit st) u).
    { intros u. rewrite Hv3, dtime_apply, (proj1 (Hsame2 u)), Hv2, dtime_apply by done.
      apply Hsame1. }
    assert (Hdist3 : ∀ u, dist_of (visit st3) u =
                          if decide (u = n) then Some (k + 1) else dist_of (visit st) u).
    { intros u. rewrite Hv3, dist_of_apply by done. case_decide; [done|].
      rewrite (proj2 (proj2 (proj2 (Hsame2 u)))), Hv2, dist_of_apply by done.
      apply Hsame1. }
    assert (Hp3 : ∀ u, parent_of (visit st3) u =
                       if decide (u = n) then Some x else parent_of (visit st) u).
    { intros u.
      rewrite Hv3, parent_of_apply, (proj1 (proj2 (proj2 (Hsame2 u)))), Hv2,
        parent_of_apply by done.
      case_decide; [by apply (none_free_edge g x n)|]. apply Hsame1. }
    apply wp_queue_put. split_and!; simpl.
    + by rewrite Hq, app_assoc.
    + eauto using extends_trans.
    + by eapply dist_sound_fresh.
    + by eapply dist_levels_fresh.
    + intros v. by rewrite Hd3.
    + by rewrite Hd3.
    + rewrite Hdist3. by rewrite decide_False.
    + by eapply dist_relaxed_fresh.
Qed.

(** The [while] loop of [distances] returns with an empty queue, given
    fuel above the potential, and keeps the invariant. *)
Lemma distances_loop_spec g s :
  wf_graph g → none_free g →
  ∀ fuel sq,
    dist_inv g s sq →
    (bfs_potential g (visit (fst sq)) (snd sq) < fuel)%nat →
    wp (distances_loop fuel g s) (λ _ sq', dist_inv g s sq' ∧ snd sq' = [])
       (λ _, False) sq.
Proof.
  intros Hwf Hnf. induction fuel as [|fuel IH]; intros [st queue] Hinv Hfuel; [lia|].
  simpl in *. destruct queue as [|x q]; [done|].
  destruct Hinv as (Hext & Hsound & [k Hlev] & Hrel). simpl in *.
  apply wp_bind, wp_on_visit, wp_get_is_discovered.
  destruct (is_discovered (visit st) x) eqn:Hdisc; simpl.
  - apply is_discovered_true in Hdisc. apply wp_bind. unfold wp at 1, ret. apply IH.
    + split_and!; try done. exists k. by eapply dist_levels_pop.
    + unfold bfs_potential in *. simpl in *. lia.
  - apply is_discovered_false in Hdisc. apply wp_bind.
    apply wp_mono with
      (Q := λ _ sq', dist_inv g s sq' ∧
                     (bfs_potential g (visit (fst sq')) (snd sq') < fuel)%nat)
      (R := λ _, False); [|intros [] sq' [? ?]; by apply IH|done].
    assert (Hlx : logged (visit st) x) by (apply Hlev; left).
    assert (Hx : x ∈ verteces g) by (by apply Hsound).
    apply dict_get_is_Some in Hx as [neighbors Hadj].
    apply wp_bind, wp_on_visit. apply wp_bind, wp_get_last_time.
    apply wp_bind, wp_log. intros st1 Hext1 Hsame1 Hlt1 Hl1 Hlog1.
    assert (Hok1 : event_ok (visit st1) (SetDiscovery x (last_time (visit st) + 1))).
    { split; [done|by rewrite Hlt1]. }
    apply wp_emit_ok; [done|]. intros st2 Hext2 Hv2.
    assert (Hl2 : ∀ u, logged (visit st2) u ↔ logged (visit st) u).
    { intros u. rewrite Hv2, logged_apply, Hlog1 by done.
      split; [intros [[?| ->]|?]; (done || congruence)|auto]. }
    assert (Hd2x : dtime (visit st2) x ≠ -1).
    { rewrite Hv2, dtime_apply by done. rewrite decide_True by done.
      pose proof (last_time_nonneg (visit st)). lia. }
    assert (Hd2 : ∀ u, u ≠ x → dtime (visit st2) u = dtime (visit st) u).
    { intros u Hu. rewrite Hv2, dtime_apply by done. rewrite decide_False by done.
      apply Hsame1. }
    assert (Hdist2 : ∀ u, dist_of (visit st2) u = dist_of (visit st) u).
    { intros u. rewrite Hv2, dist_of_apply by done. apply Hsame1. }
    assert (Hp2 : ∀ u, parent_of (visit st2) u = parent_of (visit st) u).
    { intros u. rewrite Hv2, parent_of_apply by done. apply Hsame1. }
    destruct (dist_levels_discover _ (visit st2) x q k Hlev Hdisc Hd2x Hd2 Hdist2 Hl2)
      as (k' & Hkx & Hlev2).
    unfold adj. rewrite Hadj.
    eapply wp_mono;
      [apply (wp_for_each_prefix
                (λ pre sq', dist_loop_inv g s x q k' (visit st2) pre sq')
                neighbors _ (λ _, False))| |done].
    + split_and!; simpl; try done.
      * by rewrite app_nil_r.
      * eauto using extends_trans.
      * by eapply dist_sound_ext.
      * by rewrite Hdist2.
      * by eapply dist_relaxed_discover.
    + intros pre n post sq' Hsplit Hinv'. by eapply distances_neighbor_spec.
    + intros [] [st' queue'] (Hq' & Hext' & Hsound' & Hlev' & Hdt' & Hdx' & Hkx' & Hrel').
      simpl in *. split.
      * split_and!; simpl; try done; [by exists k'|].
        intros u v Hu He _. apply Hrel'; [done|done|].
        destruct (decide (u = x)) as [->|]; [right|by left].
        destruct He as (l & Hl & Hv). congruence.
      * rewrite (bfs_potential_discover g (visit st) (visit st2) x q neighbors) in Hfuel
          by (done || apply Hwf).
        subst queue'. unfold bfs_potential in *.
        rewrite (undiscovered_ext g (visit st2) (visit st')) by done. lia.
Qed.
End DistancesLoop.

(** ** The result of [distances] *)

Section DistancesResult.
Context {V : Type} {EqV : EqDecision V} {NoneV : PyNone V}.
Implicit Types (g : @DiGraph V) (vis : @Visit V) (u v w x s : V) (st : @tstate V)
  (l : @VertexLog V).

Lemma dict_set_elem {A} (k : V) (a : A) (d : dict V A) k' a' :
  (k', a') ∈ dict_set k a d → (k', a') = (k, a) ∨ (k', a') ∈ d.
Proof.
  induction d as [|[k0 a0] d IH]; simpl.
  - intros ->%list_elem_of_singleton. by left.
  - destruct (decide (k = k0)).
    + intros [->|?]%elem_of_cons; [by left|right; by right].
    + intros [->|Hin]%elem_of_cons; [right; left|].
      destruct (IH Hin); [by left|right; by right].
Qed.

Lemma dict_alter_elem {A} (f : A → A) (k : V) (d : dict V A) k' a' :
  (k', a') ∈ dict_alter f k d → (k', a') ∈ d ∨ ∃ a, (k', a) ∈ d ∧ a' = f a.
Proof.
  induction d as [|[k0 a0] d IH]; simpl; [by intros ?%elem_of_nil|].
  destruct (decide (k = k0)).
  - intros [[= -> ->]|?]%elem_of_cons; [right; exists a0; split; [left|done]|left; by right].
  - intros [->|Hin]%elem_of_cons; [left; left|].
    destruct (IH Hin) as [?|(a & ? & ?)]; [left; by right|right; exists a; split; [by right|done]].
Qed.

Lemma event_ok_visit_wf vis e :
  event_ok vis e → visit_wf vis → visit_wf (apply_event e vis).
Proof.
  intros Hok [Hnd Hkey]. destruct e; simpl; split; simpl;
    rewrite ?dict_keys_alter; try done.
  - by apply dict_set_NoDup.
  - intros v' l' [[= -> ->]|?]%dict_set_elem; [done|auto].
  - intros v' l' [?|(l0 & ? & ->)]%dict_alter_elem; simpl; auto.
  - intros v' l' [?|(l0 & ? & ->)]%dict_alter_elem; simpl; auto.
  - intros v' l' [?|(l0 & ? & ->)]%dict_alter_elem; simpl; auto.
  - intros v' l' [?|(l0 & ? & ->)]%dict_alter_elem; simpl; auto.
Qed.

Lemma clocked_visit_wf vis tr :
  clocked vis tr → visit_wf vis → visit_wf (replay tr vis).
Proof.
  revert vis. induction tr as [|e tr IH]; intros vis; simpl; [done|].
  intros [Hok Hc] Hwf. apply IH; [done|]. by apply event_ok_visit_wf.
Qed.

Lemma extends_init_wf st :
  extends tstate_init st → visit_wf (visit st) ∧ times_valid (visit st).
Proof.
  intros (evs & _ & -> & Hc). simpl in *. split.
  - apply clocked_visit_wf; [done|]. split; [apply NoDup_nil_2|by intros ?? ?%elem_of_nil].
  - apply clocked_times_valid; [done|apply times_valid_init].
Qed.

Lemma sort_insert_elem {A} (key : A → Z) (a b : A) (xs : list A) :
  b ∈ sort_insert key a xs ↔ b = a ∨ b ∈ xs.
Proof.
  induction xs as [|y xs IH]; simpl.
  - rewrite list_elem_of_singleton, elem_of_nil. tauto.
  - destruct (key y <? key a); rewrite !elem_of_cons; [|tauto]. rewrite IH. tauto.
Qed.

Lemma py_sort_elem {A} (key : A → Z) (b : A) (xs : list A) :
  b ∈ py_sort key xs ↔ b ∈ xs.
Proof.
  unfold py_sort. induction xs as [|y xs IH]; simpl; [done|].
  rewrite sort_insert_elem, elem_of_cons, IH. tauto.
Qed.

Lemma elem_of_logs vis l :
  visit_wf vis →
  l ∈ logs vis ↔ log_of vis (vertex l) = Some l ∧ -1 < discovery_time l.
Proof.
  intros [Hnd Hkey]. unfold logs. rewrite py_sort_elem, list_elem_of_filter.
  split; intros [H1 H2].
  - split; [|done].
    unfold dict_values in H2. apply list_elem_of_fmap in H2 as ([v l'] & -> & Hin).
    simpl. rewrite (Hkey v l' Hin). by apply dict_elem_get.
  - split; [done|]. by eapply log_of_values.
Qed.

Lemma elem_of_logs_vertex vis v :
  visit_wf vis → v ∈ vertex <$> logs vis ↔ -1 < dtime vis v.
Proof.
  intros Hwf. rewrite list_elem_of_fmap. unfold dtime. split.
  - intros (l & -> & [Hl Hd]%elem_of_logs); [|done]. by rewrite Hl.
  - destruct (log_of vis v) as [l|] eqn:Hl; simpl; [|lia]. intros Hd.
    assert (Hv : vertex l = v).
    { apply (proj2 Hwf). by apply dict_get_Some_elem. }
    exists l. split; [done|]. apply elem_of_logs; [done|]. by rewrite Hv.
Qed.

Lemma distances_init_ret (ks : list V) (d0 : dict V Z) :
  NoDup (dict_keys d0 ++ ks) →
  dict_keys (foldl (λ ret vertex, dict_set vertex (-1) ret) d0 ks) = dict_keys d0 ++ ks ∧
  ∀ v, dict_get v (foldl (λ ret vertex, dict_set vertex (-1) ret) d0 ks) =
       if decide (v ∈ ks) then Some (-1) else dict_get v d0.
Proof.
  revert d0. induction ks as [|k ks IH]; intros d0 Hnd; simpl.
  - split; [by rewrite app_nil_r|done].
  - assert (Hk : k ∉ dict_keys d0).
    { apply NoDup_app in Hnd as (_ & Hdisj & _). intros Hin. apply (Hdisj k Hin). left. }
    assert (Hkeys : dict_keys (dict_set k (-1) d0) = dict_keys d0 ++ [k]).
    { rewrite dict_keys_set. by apply dict_mem_false in Hk as ->. }
    destruct (IH (dict_set k (-1) d0)) as [IH1 IH2].
    { rewrite Hkeys, <- app_assoc. done. }
    split; [by rewrite IH1, Hkeys, <- app_assoc|].
    intros v. rewrite IH2, dict_get_set.
    destruct (decide (v ∈ ks)) as [Hin|Hnin].
    + rewrite decide_True; [done|by right].
    + destruct (decide (v = k)) as [->|Hne].
      * rewrite decide_True; [done|left].
      * rewrite decide_False; [done|]. by intros [?|?]%elem_of_cons.
Qed.

Lemma distances_collect_spec (f : V → Z) (ls : list (@VertexLog V)) (ret : dict V Z) :
  (∀ l, l ∈ ls → distance l = Some (f (vertex l))) →
  (∀ l, l ∈ ls → vertex l ∈ dict_keys ret) →
  ∃ ret', distances_collect ls ret = Ok ret' ∧
    dict_keys ret' = dict_keys ret ∧
    ∀ v, dict_get v ret' =
         if decide (v ∈ vertex <$> ls) then Some (f v) else dict_get v ret.
Proof.
  revert ret. induction ls as [|l ls IH]; intros ret Hdist Hkeys; simpl.
  - exists ret. by split_and!.
  - rewrite (Hdist l) by left.
    assert (Hk1 : dict_keys (dict_set (vertex l) (f (vertex l)) ret) = dict_keys ret).
    { apply dict_keys_set_mem, Hkeys. left. }
    destruct (IH (dict_set (vertex l) (f (vertex l)) ret)) as (ret' & Hrun & Hk & Hg).
    { intros l' Hl'. apply Hdist. by right. }
    { intros l' Hl'. rewrite Hk1. apply Hkeys. by right. }
    exists ret'. split_and!; [done|congruence|].
    intros v. rewrite Hg, dict_get_set. csimpl.
    destruct (decide (v ∈ vertex <$> ls)) as [Hin|Hnin].
    + rewrite decide_True; [done|by right].
    + destruct (decide (v = vertex l)) as [->|Hne].
      * rewrite decide_True; [done|left].
      * rewrite decide_False; [done|]. by intros [?|?]%elem_of_cons.
Qed.

Lemma distances_run_spec fuel g s :
  wf_graph g → none_free g → s ∈ verteces g →
  (bfs_potential g Visit_init [s] < fuel)%nat →
  ∃ st, distances_run fuel g s = (Ok tt, (st, [])) ∧ dist_inv g s (st, []).
Proof.
  intros Hwf Hnf Hs Hfuel. unfold distances_run.
  assert (Hwp : wp (on_visit (log s >> emit (SetDistance s 0)) >> distances_loop fuel g s)
                  (λ _ sq', dist_inv g s sq' ∧ snd sq' = []) (λ _, False)
                  (tstate_init, [s])).
  { apply wp_bind, wp_on_visit. apply wp_bind, wp_log.
    intros st1 Hext1 Hsame1 Hlt1 Hl1 Hlog1.
    assert (Hok1 : event_ok (visit st1) (SetDistance s 0)) by done.
    apply wp_emit_ok; [done|]. intros st2 Hext2 Hv2.
    assert (Hl2 : ∀ u, logged (visit st2) u ↔ u = s).
    { intros u. rewrite Hv2, logged_apply, Hlog1 by done.
      split; [intros [[[? ?]|?]|?]; (done || congruence)|auto]. }
    assert (Hd2 : ∀ u, dtime (visit st2) u = -1).
    { intros u. rewrite Hv2, dtime_apply by done. by rewrite (proj1 (Hsame1 u)). }
    assert (Hdist2 : dist_of (visit st2) s = Some 0).
    { rewrite Hv2, dist_of_apply by done. by rewrite decide_True. }
    apply distances_loop_spec; [done|done| |].
    - split_and!; simpl.
      + eauto using extends_trans.
      + split_and!.
        * by intros v ->%Hl2.
        * done.
        * intros v ->%Hl2. exists 0%nat. split; [done|constructor].
        * by intros v ->%Hl2.
      + exists 0. split_and!.
        * intros v ->%list_elem_of_singleton. by apply Hl2.
        * intros v d Hv. by rewrite Hd2 in Hv.
        * intros v ->%Hl2 _. split; [left|by left].
        * intros q1 v q2 Hsplit _ Hkv.
          assert (v = s) as ->.
          { assert (Hin : v ∈ [s]) by (rewrite Hsplit, elem_of_app; right; left).
            by apply list_elem_of_singleton in Hin. }
          rewrite Hdist2 in Hkv. done.
      + intros u v Hu. by rewrite Hd2 in Hu.
    - simpl. unfold bfs_potential in *.
      by rewrite (undiscovered_ext g Visit_init (visit st2)) by done. }
  apply wp_total in Hwp as ([] & [st queue] & Hrun & Hinv & Hq). simpl in Hq. subst queue.
  by exists st.
Qed.

Lemma dist_inv_final g s st :
  dist_inv g s (st, []) →
  (∀ v, logged (visit st) v → dtime (visit st) v ≠ -1) ∧
  (∀ v n, walk g s v n →
     ∃ d, dist_of (visit st) v = Some d ∧ d ≤ Z.of_nat n) ∧
  (∀ v, logged (visit st) v →
     ∃ d : nat, dist_of (visit st) v = Some (Z.of_nat d) ∧ walk g s v d).
Proof.
  intros (Hext & (D0 & D1 & D2 & D4) & [k (D3 & Da & Db & Dc)] & Hrel). simpl in *.
  assert (Hdisc : ∀ v, logged (visit st) v → dtime (visit st) v ≠ -1).
  { intros v Hv Hd. destruct (Db v Hv Hd) as [Hin _]. by apply elem_of_nil in Hin. }
  split_and!; [done| |done].
  intros v n Hw. induction Hw as [|u v n Hw IH He].
  - exists 0. split; [done|lia].
  - destruct IH as (du & Hdu & Hle).
    destruct (Hrel u v) as (du' & dv & Hdu' & Hdv & Hle'); [|done|done|].
    { apply Hdisc. by eapply dist_of_logged. }
    exists dv. split; [done|]. rewrite Hdu in Hdu'. injection Hdu' as <-. lia.
Qed.

End DistancesResult.

(** ** Checking the representation invariant *)

Section WellFormedCheck.
Context {V : Type} {EqV : EqDecision V} {NoneV : PyNone V}.

Lemma wf_graphb_spec (g : @DiGraph V) : wf_graphb g = true → wf_graph g.
Proof.
  unfold wf_graphb. intros [Hnd Hall]%andb_true_iff.
  apply bool_decide_eq_true in Hnd. split; [done|].
  intros v l Hl%dict_get_Some_elem.
  rewrite forallb_forall in Hall. apply list_elem_of_In, Hall in Hl.
  apply andb_true_iff in Hl as [Hl1 Hl2]. apply bool_decide_eq_true in Hl1.
  split; [done|]. intros w Hw. rewrite forallb_forall in Hl2.
  by apply py_in_true, Hl2, list_elem_of_In.
Qed.
End WellFormedCheck.

(** ** More on dictionaries *)

Section DictMore.
Context {K A : Type} {EqK : EqDecision K}.
Implicit Types (d : dict K A) (k : K) (a : A).

Lemma dict_set_absent k a d : k ∉ dict_keys d → dict_set k a d = d ++ [(k, a)].
Proof.
  induction d as [|[k' a'] d IH]; csimpl; [done|].
  rewrite not_elem_of_cons. intros [Hne Hk].
  rewrite decide_False by done. by rewrite IH.
Qed.

Lemma dict_set_same k a d : dict_get k d = Some a → dict_set k a d = d.
Proof.
  induction d as [|[k' a'] d IH]; simpl; [done|].
  destruct (decide (k = k')) as [->|Hne]; [by intros [= ->]|].
  intros Hk. by rewrite IH.
Qed.

Lemma dict_pop_set_absent k a d : k ∉ dict_keys d → dict_pop k (dict_set k a d) = d.
Proof.
  induction d as [|[k' a'] d IH]; csimpl.
  - intros _. by rewrite decide_True.
  - rewrite not_elem_of_cons. intros [Hne Hk].
    rewrite decide_False by done. simpl. rewrite decide_False by done. by rewrite IH.
Qed.

(** Two dictionaries with the same keys in the same order and the same
    value under every key are the same dictionary. *)
Lemma dict_ext d1 d2 :
  dict_keys d1 = dict_keys d2 → NoDup (dict_keys d1) →
  (∀ k, k ∈ dict_keys d1 → dict_get k d1 = dict_get k d2) → d1 = d2.
Proof.
  revert d2. induction d1 as [|[k a] d1 IH]; intros [|[k2 a2] d2]; csimpl; try done.
  intros [= <- Hk] [Hnk Hnd]%NoDup_cons Hget.
  pose proof (Hget k ltac:(left)) as Hka. simpl in Hka.
  rewrite !decide_True in Hka by done. injection Hka as <-.
  f_equal. apply IH; [done|done|]. intros k' Hk'.
  specialize (Hget k' ltac:(by right)). simpl in Hget.
  rewrite !decide_False in Hget by (intros ->; done). done.
Qed.
End DictMore.

Lemma filter_all {A} (P : A → Prop) `{∀ x, Decision (P x)} (l : list A) :
  (∀ x, x ∈ l → P x) → filter P l = l.
Proof.
  induction l as [|x l IH]; intros Hall; [done|].
  rewrite filter_cons_True by (apply Hall; left). f_equal. apply IH.
  intros y Hy. apply Hall. by right.
Qed.

(** ** [remove_self_loops], [full_graph] and the mutators together *)

Section MoreStructure.
Context {V : Type} {EqV : EqDecision V} {NoneV : PyNone V}.
Implicit Types (g : @DiGraph V) (u v w : V) (l : list V).

Lemma reachable_step g (s u v : V) : reachable g s u → edge g u v → reachable g s v.
Proof. intros [k Hw] He. exists (S k). by econstructor. Qed.

Lemma reachable_refl g (s : V) : reachable g s s.
Proof. exists 0%nat. constructor. Qed.

Lemma edge_adj g (x : V) l v : dict_get x (_edges g) = Some l → edge g x v ↔ v ∈ l.
Proof.
  intros Hl. split; [|intros ?; by exists l]. intros (l' & Hl' & ?). congruence.
Qed.

(** The loop of [remove_self_loops] over a duplicate-free list of
    registered sources strips each source from its own adjacency list. *)
Lemma strip_self_loop ks (d : dict V (list V)) :
  NoDup ks → (∀ k, k ∈ ks → k ∈ dict_keys d) →
  ∃ d', for_each ks (λ source, strip_from source source) {| _edges := d |}
        = (Ok tt, {| _edges := d' |}) ∧
    dict_keys d' = dict_keys d ∧
    ∀ u, dict_get u d' =
         if decide (u ∈ ks) then py_remove u <$> dict_get u d else dict_get u d.
Proof.
  revert d. induction ks as [|k ks IH]; intros d Hnd Hreg.
  - exists d. by split_and!.
  - apply NoDup_cons in Hnd as [Hk Hnd].
    destruct (dict_get k d) as [lk|] eqn:Hlk;
      [|apply dict_get_None in Hlk; destruct Hlk; apply Hreg; left].
    set (d1 := if py_in k lk then dict_set k (py_remove k lk) d else d).
    assert (H1 : strip_from k k {| _edges := d |} = (Ok tt, {| _edges := d1 |})).
    { unfold strip_from, d1; simpl. rewrite Hlk. by destruct (py_in k lk). }
    assert (Hk1 : dict_keys d1 = dict_keys d).
    { unfold d1. destruct (py_in k lk); [|done].
      apply dict_keys_set_mem. by eapply dict_get_Some_key. }
    assert (Hg1 : ∀ u, dict_get u d1 =
              if decide (u = k) then Some (py_remove k lk) else dict_get u d).
    { intros u. unfold d1. destruct (py_in k lk) eqn:Hin.
      - apply dict_get_set.
      - destruct (decide (u = k)) as [->|]; [|done].
        apply py_in_false in Hin. by rewrite py_remove_absent. }
    destruct (IH d1 Hnd) as (d' & H2 & Hk2 & Hg2).
    { intros k' Hk'. rewrite Hk1. apply Hreg. by right. }
    exists d'. simpl. rewrite (bind_Ok _ _ _ _ _ H1). split_and!; [done|congruence|].
    intros u. rewrite Hg2, Hg1. destruct (decide (u = k)) as [->|Hne].
    + rewrite decide_False by done. rewrite decide_True by left. by rewrite Hlk.
    + destruct (decide (u ∈ ks)) as [Hin|Hnin].
      * rewrite decide_True by (by right). done.
      * rewrite decide_False; [done|]. by intros [?|?]%elem_of_cons.
Qed.

Lemma remove_self_loops_run g :
  wf_graph g →
  ∃ g', remove_self_loops g = (Ok tt, g') ∧
    verteces g' = verteces g ∧
    (∀ u l, dict_get u (_edges g) = Some l →
            dict_get u (_edges g') = Some (filter (λ w, w ≠ u) l)) ∧
    (∀ a b, edge g' a b ↔ edge g a b ∧ a ≠ b) ∧
    wf_graph g'.
Proof.
  intros [Hnd Hwf]. destruct g as [d]. unfold verteces in *; simpl in *.
  destruct (strip_self_loop (dict_keys d) d Hnd) as (d' & Hloop & Hk & Hg); [done|].
  assert (Hget : ∀ u l, dict_get u d = Some l →
            dict_get u d' = Some (filter (λ w, w ≠ u) l)).
  { intros u l Hl. rewrite Hg, decide_True, Hl by (by eapply dict_get_Some_key).
    simpl. f_equal. apply py_remove_filter. by apply (Hwf u l). }
  assert (Hget' : ∀ u l', dict_get u d' = Some l' →
            ∃ l, dict_get u d = Some l ∧ l' = filter (λ w, w ≠ u) l).
  { intros u l' Hl'. destruct (dict_get u d) as [l|] eqn:Hl.
    - exists l. split; [done|]. rewrite (Hget u l Hl) in Hl'. by injection Hl'.
    - rewrite Hg, Hl in Hl'. by destruct (decide (u ∈ dict_keys d)). }
  exists {| _edges := d' |}. split_and!; simpl.
  - unfold remove_self_loops, get. unfold bind at 1. done.
  - done.
  - done.
  - intros a b. unfold edge; simpl. split.
    + intros (l' & (l & Hl & ->)%Hget' & [Hb Hin]%list_elem_of_filter).
      split; [by exists l|]. by intros ->.
    + intros [(l & Hl & Hin) Hne]. exists (filter (λ w, w ≠ a) l).
      split; [by apply Hget|]. apply list_elem_of_filter. split; [by intros ->|done].
  - split; [unfold verteces; simpl; by rewrite Hk|]. simpl.
    intros u l' (l & Hl & ->)%Hget'. destruct (Hwf u l Hl) as [Hndl Hreg].
    split; [by apply NoDup_filter|].
    intros w [_ Hw]%list_elem_of_filter. unfold verteces; simpl. rewrite Hk. by apply Hreg.
Qed.

(** X1: on a well-formed graph, [remove_self_loops] keeps the vertices
    and their order, removes every edge from a vertex to itself and no
    other edge (each adjacency list keeps its other entries in order), so
    that [has_self_loops] is false afterwards, and calling it again changes
    nothing. *)
Theorem remove_self_loops_spec g :
  wf_graph g →
  ∃ g', remove_self_loops g = (Ok tt, g') ∧
    verteces g' = verteces g ∧
    (∀ u l, adj g u = Ok l → adj g' u = Ok (filter (λ w, w ≠ u) l)) ∧
    (∀ a b, edge g' a b ↔ edge g a b ∧ a ≠ b) ∧
    has_self_loops g' = Ok false ∧
    remove_self_loops g' = (Ok tt, g') ∧
    wf_graph g'.
Proof.
  intros Hwf.
  destruct (remove_self_loops_run g Hwf) as (g' & Hrun & Hk & Hget & He & Hwf').
  exists g'. split_and!; try done.
  - intros u l. unfold adj.
    destruct (dict_get u (_edges g)) as [l0|] eqn:Hl; [|done].
    intros [= <-]. by rewrite (Hget u l0 Hl).
  - destruct (has_self_loops_spec g') as (b & Hb & Hiff). rewrite Hb. f_equal.
    destruct b; [|done]. destruct (proj1 Hiff eq_refl) as (v & Hv%He). by destruct Hv.
  - destruct (remove_self_loops_run g' Hwf') as (g2 & Hrun2 & Hk2 & Hget2 & _).
    rewrite Hrun2. f_equal. destruct g' as [d'], g2 as [d2]. f_equal.
    unfold verteces in *; simpl in *. symmetry. apply dict_ext; [done|apply Hwf'|].
    intros k [l Hl]%dict_get_is_Some. rewrite Hl, (Hget2 k l Hl). f_equal.
    symmetry. apply filter_all. intros w Hw.
    assert (Hkw : edge {| _edges := d' |} k w) by (by exists l).
    apply He in Hkw as [_ Hne]. by intros ->.
Qed.

Lemma full_graph_loop_flat (vs ws : list V) g :
  for_each vs (λ v, for_each ws (λ w, add_edge v w)) g
  = add_edges (vs ≫= λ v, (λ w, (v, w)) <$> ws) g.
Proof.
  unfold add_edges. revert g. induction vs as [|v vs IH]; intros g; csimpl; [done|].
  rewrite for_each_app. unfold bind. rewrite for_each_fmap.
  destruct (for_each ws _ g) as [[a| |] g']; [apply IH|done|done].
Qed.

(** X2: [full_graph] never fails; the graph it returns has the listed
    vertices and an edge from every listed vertex to every listed vertex,
    itself included, so it has self-loops unless the list is empty, and it
    equals its own reverse. *)
Theorem full_graph_spec (vs : list V) :
  ∃ g, full_graph vs = (Ok tt, g) ∧
    (∀ v, v ∈ verteces g ↔ v ∈ vs) ∧
    (∀ a b, edge g a b ↔ a ∈ vs ∧ b ∈ vs) ∧
    (∀ a b, a ∈ vs → b ∈ vs → has_edge g a b = Ok true) ∧
    has_self_loops g = Ok (bool_decide (vs ≠ [])) ∧
    (∃ g', reverse g = (Ok tt, g') ∧ DiGraph_eq g' g = Ok true) ∧
    wf_graph g.
Proof.
  destruct (add_vertices_spec vs DiGraph_init) as (g0 & H0 & Hk0 & He0 & Hwf0).
  assert (Hk0' : ∀ v, v ∈ verteces g0 ↔ v ∈ vs).
  { intros v. rewrite Hk0. unfold verteces; simpl. rewrite elem_of_nil. tauto. }
  assert (He0' : ∀ a b, ¬ edge g0 a b).
  { intros a b. rewrite He0. by intros (l & Hl & _). }
  set (pairs := vs ≫= λ v, (λ w, (v, w)) <$> vs).
  assert (Hpairs : ∀ a b, (a, b) ∈ pairs ↔ a ∈ vs ∧ b ∈ vs).
  { intros a b. unfold pairs. rewrite list_elem_of_bind. split.
    - intros (v & (w & [= -> ->] & Hw)%list_elem_of_fmap & Hv). done.
    - intros [Ha Hb]. exists a. split; [|done]. apply list_elem_of_fmap. by exists b. }
  destruct (add_edges_spec pairs g0) as (g & Hg & Hk & He & Hwf).
  { intros a b Hab%Hpairs. by rewrite !Hk0'. }
  assert (Hwfg : wf_graph g) by apply Hwf, Hwf0, wf_graph_init.
  assert (Hedge : ∀ a b, edge g a b ↔ a ∈ vs ∧ b ∈ vs).
  { intros a b. rewrite He, Hpairs. split; [|auto]. intros [?%He0'|?]; done. }
  exists g. split_and!; try done.
  - unfold full_graph. rewrite (bind_Ok _ _ _ _ _ H0). by rewrite full_graph_loop_flat.
  - intros v. by rewrite Hk.
  - intros a b Ha Hb. unfold has_edge, has_vertex.
    assert (Ha' : a ∈ verteces g) by (by rewrite Hk; apply Hk0').
    assert (Hb' : b ∈ verteces g) by (by rewrite Hk; apply Hk0').
    rewrite (proj2 (dict_mem_true a _) Ha'), (proj2 (dict_mem_true b _) Hb'). simpl.
    destruct (proj2 (Hedge a b) (conj Ha Hb)) as (l & -> & Hin).
    f_equal. by apply py_in_true.
  - destruct (has_self_loops_spec g) as (b & Hb & Hiff). rewrite Hb. f_equal.
    destruct vs as [|v vs'].
    + destruct b; [|done]. destruct (proj1 Hiff eq_refl) as (v & [Hv _]%Hedge).
      by apply elem_of_nil in Hv.
    + rewrite bool_decide_eq_true_2 by done. apply Hiff. exists v. apply Hedge.
      split; left.
  - destruct (reverse_spec g Hwfg) as (g' & Hrev & Hk' & He' & _).
    exists g'. split; [done|]. apply DiGraph_eq_true, graph_equiv_edges. split; [done|].
    intros a b. rewrite He', !Hedge. tauto.
Qed.

Lemma has_edge_registered g a b :
  a ∈ verteces g → b ∈ verteces g →
  ∃ l, dict_get a (_edges g) = Some l ∧ has_edge g a b = Ok (py_in b l).
Proof.
  intros Ha Hb. unfold has_edge, has_vertex.
  rewrite (proj2 (dict_mem_true a _) Ha), (proj2 (dict_mem_true b _) Hb). simpl.
  apply dict_get_is_Some in Ha as [l Hl]. exists l. by rewrite Hl.
Qed.

Lemma has_edge_unregistered g a b :
  (a ∉ verteces g → has_edge g a b = Raise (ThereIsNoVertex a)) ∧
  (a ∈ verteces g → b ∉ verteces g → has_edge g a b = Raise (ThereIsNoVertex b)).
Proof.
  unfold has_edge, has_vertex. split.
  - intros Ha. by rewrite (proj2 (dict_mem_false a _) Ha).
  - intros Ha Hb.
    by rewrite (proj2 (dict_mem_true a _) Ha), (proj2 (dict_mem_false b _) Hb).
Qed.

Lemma has_edge_true g a b : has_edge g a b = Ok true ↔ edge g a b ∧ b ∈ verteces g.
Proof.
  destruct (decide (a ∈ verteces g)) as [Ha|Ha].
  - destruct (decide (b ∈ verteces g)) as [Hb|Hb].
    + destruct (has_edge_registered g a b Ha Hb) as (l & Hl & ->). split.
      * intros [= Hin%py_in_true]. split; [by exists l|done].
      * intros [(l' & Hl' & Hin) _]. f_equal. apply py_in_true. congruence.
    + rewrite (proj2 (has_edge_unregistered g a b) Ha Hb). split; [done|]. by intros [_ ?].
  - rewrite (proj1 (has_edge_unregistered g a b) Ha). split; [done|].
    intros [He%edge_registered _]. done.
Qed.

(** X3: [add_edge] succeeds exactly when both endpoints are registered;
    otherwise it raises, naming the source when the source is missing and
    else the target, and leaves the graph as it was.  A successful call
    puts the target at the end of the adjacency list of the source unless
    the list holds it already, touches no other adjacency list, makes
    [has_edge] true for the pair and changes no other answer of
    [has_edge]. *)
Theorem add_edge_outcomes g u w :
  (u ∉ verteces g → add_edge u w g = (Raise (CouldntFindSourceVertex u), g)) ∧
  (u ∈ verteces g → w ∉ verteces g →
     add_edge u w g = (Raise (CouldntFindTargetVertex w), g)) ∧
  (u ∈ verteces g → w ∈ verteces g →
     ∃ g' l, add_edge u w g = (Ok tt, g') ∧ adj g u = Ok l ∧
       verteces g' = verteces g ∧
       adj g' u = Ok (if py_in w l then l else l ++ [w]) ∧
       (∀ a, a ≠ u → adj g' a = adj g a) ∧
       has_edge g' u w = Ok true ∧
       (∀ a b, (a, b) ≠ (u, w) → has_edge g' a b = has_edge g a b)).
Proof.
  split_and!.
  - intros Hu. unfold add_edge. by rewrite (proj2 (dict_mem_false u _) Hu).
  - intros Hu Hw. unfold add_edge.
    by rewrite (proj2 (dict_mem_true u _) Hu), (proj2 (dict_mem_false w _) Hw).
  - intros Hu Hw. destruct (dict_get u (_edges g)) as [l|] eqn:Hl;
      [|by apply dict_get_None in Hl].
    set (g' := if py_in w l then g else {| _edges := dict_set u (l ++ [w]) (_edges g) |}).
    assert (Hk : verteces g' = verteces g).
    { unfold g'. destruct (py_in w l); [done|]. unfold verteces; simpl.
      by apply dict_keys_set_mem. }
    assert (Hget : ∀ a, dict_get a (_edges g') =
              if decide (a = u) then Some (if py_in w l then l else l ++ [w])
              else dict_get a (_edges g)).
    { intros a. unfold g'. destruct (py_in w l); simpl.
      - case_decide; [by subst|done].
      - apply dict_get_set. }
    exists g', l. split_and!.
    + by apply add_edge_unfold.
    + unfold adj. by rewrite Hl.
    + done.
    + unfold adj. rewrite Hget. by rewrite decide_True.
    + intros a Ha. unfold adj. rewrite Hget. by rewrite decide_False.
    + apply has_edge_true. rewrite Hk. split; [|done].
      eexists. split; [rewrite Hget; by rewrite decide_True|].
      destruct (py_in w l) eqn:Hin; [by apply py_in_true|].
      apply elem_of_app. right. by apply list_elem_of_singleton.
    + intros a b Hab. unfold has_edge, has_vertex.
      assert (Hmem : ∀ x, dict_mem x (_edges g') = dict_mem x (_edges g)).
      { intros x. destruct (dict_mem x (_edges g)) eqn:Hx.
        - apply dict_mem_true. fold (verteces g'). rewrite Hk. by apply dict_mem_true.
        - apply dict_mem_false. fold (verteces g'). rewrite Hk. by apply dict_mem_false. }
      rewrite !Hmem, Hget. destruct (decide (a = u)) as [->|Hne]; [|done].
      rewrite Hl. assert (Hbw : b ≠ w) by congruence.
      destruct (py_in w l); [done|].
      destruct (negb (dict_mem u (_edges g))); [done|].
      destruct (negb (dict_mem b (_edges g))); [done|]. f_equal.
      unfold py_in. apply bool_decide_ext. rewrite elem_of_app, list_elem_of_singleton. tauto.
Qed.

Lemma remove_vertex_run g v :
  wf_graph g → v ∈ verteces g →
  ∃ l g', remove_vertex v g = (Ok l, g') ∧ wf_graph g'.
Proof.
  intros [Hnd Hwf] Hv. destruct g as [d]. unfold verteces in *; simpl in *.
  destruct (strip_loop v (dict_keys d) d Hnd) as (d' & Hloop & Hk & Hg); [done|].
  apply dict_get_is_Some in Hv as [l Hl].
  assert (Hmem : dict_mem v d = true) by (unfold dict_mem; by rewrite Hl).
  assert (Hl' : dict_get v d' = Some (py_remove v l)).
  { rewrite Hg, decide_True, Hl; [done|by eapply dict_get_Some_key]. }
  assert (Hnd' : NoDup (dict_keys d')) by (by rewrite Hk).
  exists (py_remove v l), {| _edges := dict_pop v d' |}. split.
  - unfold remove_vertex, get. unfold bind at 1. simpl. rewrite Hmem. simpl.
    unfold verteces; simpl. rewrite (bind_Ok _ _ _ _ _ Hloop).
    unfold pop_vertex; simpl. by rewrite Hl'.
  - split; [unfold verteces; simpl; by apply dict_pop_NoDup|]. simpl.
    intros u lu'. rewrite dict_get_pop by done.
    destruct (decide (u = v)) as [->|Hne]; [done|]. intros Hlu'.
    destruct (dict_get u d) as [lu|] eqn:Hlu.
    + destruct (Hwf u lu Hlu) as [Hndu Hregu].
      rewrite Hg, decide_True, Hlu in Hlu' by (by eapply dict_get_Some_key).
      simpl in Hlu'. injection Hlu' as <-. rewrite py_remove_filter by done.
      split; [by apply NoDup_filter|].
      intros w [Hw1 Hw2]%list_elem_of_filter. unfold verteces; simpl.
      apply dict_keys_pop; [done|]. rewrite Hk. auto.
    + rewrite Hg, Hlu in Hlu'. by destruct (decide (u ∈ dict_keys d)).
Qed.

(** X4: on a well-formed graph, registering a new vertex puts it last
    among the vertices with an empty adjacency list and is idempotent, and
    removing it again returns the empty list and gives back the very graph
    there was before. *)
Theorem add_remove_vertex_round_trip g v :
  wf_graph g → v ∉ verteces g →
  ∃ g1, add_vertex v g = (Ok tt, g1) ∧
    verteces g1 = verteces g ++ [v] ∧ has_vertex g1 v = true ∧ adj g1 v = Ok [] ∧
    (∀ u, u ≠ v → adj g1 u = adj g u) ∧
    add_vertex v g1 = (Ok tt, g1) ∧
    remove_vertex v g1 = (Ok [], g).
Proof.
  intros [Hnd Hwf] Hv. destruct g as [d]. unfold verteces in *; simpl in *.
  pose proof (proj2 (dict_mem_false v d) Hv) as Hm.
  set (d1 := dict_set v [] d).
  assert (Hk1 : dict_keys d1 = dict_keys d ++ [v]).
  { unfold d1. by rewrite dict_keys_set, Hm. }
  assert (Hg1 : dict_get v d1 = Some []).
  { unfold d1. rewrite dict_get_set. by rewrite decide_True. }
  assert (Hm1 : dict_mem v d1 = true) by (unfold dict_mem; by rewrite Hg1).
  assert (Hnd1 : NoDup (dict_keys d1)) by (by apply dict_set_NoDup).
  exists {| _edges := d1 |}. split_and!; simpl.
  - unfold add_vertex; simpl. by rewrite Hm.
  - done.
  - done.
  - unfold adj; simpl. by rewrite Hg1.
  - intros u Hu. unfold adj, d1; simpl. rewrite dict_get_set. by rewrite decide_False.
  - unfold add_vertex; simpl. by rewrite Hm1.
  - destruct (strip_loop v (dict_keys d1) d1 Hnd1) as (d' & Hloop & Hk & Hg); [done|].
    assert (Hd' : d' = d1).
    { apply dict_ext; [done|by rewrite Hk|]. intros k Hk'. rewrite Hk in Hk'.
      rewrite Hg, decide_True by done.
      destruct (dict_get k d1) as [l|] eqn:Hl; [|done]. simpl. f_equal.
      apply py_remove_absent. intros Hin. unfold d1 in Hl. rewrite dict_get_set in Hl.
      destruct (decide (k = v)) as [->|Hne].
      - injection Hl as <-. by apply elem_of_nil in Hin.
      - destruct (Hwf k l Hl) as [_ Hreg]. by apply Hv, Hreg. }
    subst d'. unfold remove_vertex, get. unfold bind at 1. simpl. rewrite Hm1. simpl.
    unfold verteces; simpl. rewrite (bind_Ok _ _ _ _ _ Hloop).
    unfold pop_vertex; simpl. rewrite Hg1. unfold d1. by rewrite dict_pop_set_absent.
Qed.

(** X5: [==] is an equivalence on graphs: every graph equals itself, the
    answer does not depend on which graph is on the left, and equality is
    transitive. *)
Theorem DiGraph_eq_equivalence g1 g2 g3 :
  DiGraph_eq g1 g1 = Ok true ∧
  DiGraph_eq g2 g1 = DiGraph_eq g1 g2 ∧
  (DiGraph_eq g1 g2 = Ok true → DiGraph_eq g2 g3 = Ok true →
   DiGraph_eq g1 g3 = Ok true).
Proof.
  split_and!.
  - apply DiGraph_eq_true, graph_equiv_edges. done.
  - destruct (DiGraph_eq_total g1 g2) as [b Hb], (DiGraph_eq_total g2 g1) as [b' Hb'].
    rewrite Hb, Hb'. f_equal.
    assert (Hsym : ∀ ga gb : @DiGraph V, DiGraph_eq ga gb = Ok true → DiGraph_eq gb ga = Ok true).
    { intros ga gb. rewrite !DiGraph_eq_true, !graph_equiv_edges.
      intros [Hv He]; split; intros; by rewrite ?Hv, ?He. }
    destruct b, b'; try done.
    + apply Hsym in Hb. congruence.
    + apply Hsym in Hb'. congruence.
  - rewrite !DiGraph_eq_true, !graph_equiv_edges. intros [Hv1 He1] [Hv2 He2].
    split; intros; by rewrite ?Hv1, ?He1, ?Hv2, ?He2.
Qed.

(** X6: on a well-formed graph, [reverse] swaps the answers of
    [has_edge]: asking the reversed graph about [(u, w)] gives what the
    original gives about [(w, u)], the exception for an unregistered vertex
    included when the other vertex is registered; and it keeps the answer
    of [has_self_loops]. *)
Theorem reverse_queries g :
  wf_graph g →
  ∃ g', reverse g = (Ok tt, g') ∧
    (∀ u w, u ∈ verteces g ∨ w ∈ verteces g → has_edge g' u w = has_edge g w u) ∧
    has_self_loops g' = has_self_loops g.
Proof.
  intros Hwf. destruct (reverse_spec g Hwf) as (g' & Hrun & Hk & He & Hwf').
  exists g'. split_and!; [done| |].
  - intros u w Hor.
    destruct (decide (u ∈ verteces g)) as [Hu|Hu], (decide (w ∈ verteces g)) as [Hw|Hw].
    + destruct (has_edge_registered g' u w) as (l' & Hl' & ->); [by apply Hk..|].
      destruct (has_edge_registered g w u) as (l & Hl & ->); [done..|].
      f_equal. unfold py_in. apply bool_decide_ext.
      trans (edge g' u w).
      * split; [intros ?; by exists l'|]. intros (l0 & Hl0 & ?). congruence.
      * rewrite He. split; [|intros ?; by exists l]. intros (l0 & Hl0 & ?). congruence.
    + rewrite (proj2 (has_edge_unregistered g' u w)) by (by rewrite ?Hk).
      by rewrite (proj1 (has_edge_unregistered g w u)).
    + rewrite (proj1 (has_edge_unregistered g' u w)) by (by rewrite ?Hk).
      by rewrite (proj2 (has_edge_unregistered g w u)).
    + by destruct Hor.
  - destruct (has_self_loops_spec g) as (b & Hb & Hiff).
    destruct (has_self_loops_spec g') as (b' & Hb' & Hiff').
    rewrite Hb, Hb'. f_equal.
    assert (Hbb : b' = true ↔ b = true).
    { rewrite Hiff, Hiff'. by setoid_rewrite He. }
    destruct b, b'; try done; [by destruct (proj2 Hbb)|by destruct (proj1 Hbb)].
Qed.

Lemma call_keeps_wf (m : @mutator V) g r g' :
  wf_graph g → call m g = (r, g') →
  wf_graph g' ∧ match r with
                | Ok _ => True
                | Raise e => is_NotFoundError e = true ∧ g' = g
                | OutOfFuel => False
                end.
Proof.
  intros Hwf. destruct m as [v|u w|v| |]; simpl.
  - destruct (add_vertex_spec g v) as (g1 & -> & _ & _ & Hwf1). intros [= <- <-]. auto.
  - destruct (decide (u ∈ verteces g)) as [Hu|Hu].
    + destruct (decide (w ∈ verteces g)) as [Hw|Hw].
      * destruct (add_edge_spec g u w Hu Hw) as (g1 & -> & _ & _ & Hwf1).
        intros [= <- <-]. auto.
      * unfold add_edge.
        rewrite (proj2 (dict_mem_true u _) Hu), (proj2 (dict_mem_false w _) Hw).
        intros [= <- <-]. auto.
    + unfold add_edge. rewrite (proj2 (dict_mem_false u _) Hu). intros [= <- <-]. auto.
  - destruct (decide (v ∈ verteces g)) as [Hv|Hv].
    + destruct (remove_vertex_run g v Hwf Hv) as (l & g1 & Hrun & Hwf1).
      rewrite (bind_Ok _ _ _ _ _ Hrun). intros [= <- <-]. auto.
    + unfold remove_vertex, get. unfold bind. simpl.
      rewrite (proj2 (dict_mem_false v _) Hv). simpl. intros [= <- <-]. auto.
  - destruct (reverse_spec g Hwf) as (g1 & -> & _ & _ & Hwf1). intros [= <- <-]. auto.
  - destruct (remove_self_loops_run g Hwf) as (g1 & -> & _ & _ & _ & Hwf1).
    intros [= <- <-]. auto.
Qed.

(** X7: the representation invariant is kept by every mutator: after
    any sequence of [add_vertex], [add_edge], [remove_vertex], [reverse]
    and [remove_self_loops] calls on a well-formed graph (the empty graph
    is one), keys are unique and adjacency lists are duplicate-free lists
    of registered vertices, whether the sequence ran to its end or stopped
    at a call that raised; the only exceptions raised are the not-found
    errors of [add_edge] and [remove_vertex], never a [KeyError]. *)
Theorem mutators_keep_wf (ms : list (@mutator V)) g r g' :
  wf_graph g → for_each ms call g = (r, g') →
  wf_graph (@DiGraph_init V) ∧ wf_graph g' ∧
  r ≠ OutOfFuel ∧ ∀ e, r = Raise e → is_NotFoundError e = true.
Proof.
  intros Hwf Hrun. split; [apply wf_graph_init|].
  revert g Hwf Hrun. induction ms as [|m ms IH]; intros g Hwf; simpl.
  - intros [= <- <-]. by split_and!.
  - unfold bind. destruct (call m g) as [[[]|e|] g1] eqn:Hm;
      destruct (call_keeps_wf m g _ _ Hwf Hm) as [Hwf1 Hr].
    + by apply IH.
    + intros [= <- <-]. split_and!; [done|done|]. intros e' [= <-]. apply Hr.
    + done.
Qed.

(** X21: the queries.  [has_edge] raises the not-found error naming
    the source when the source is unregistered, else naming the target when
    the target is; for two registered vertices it answers whether the
    target is in the adjacency list of the source, that is whether there is
    such an edge.  [has_self_loops] never raises and is true exactly when
    some vertex has an edge to itself.  [adj] raises the not-found error
    exactly for an unregistered vertex, and [is_empty] holds exactly when
    there is no vertex. *)
Theorem queries_spec g :
  (∀ a b, a ∉ verteces g → has_edge g a b = Raise (ThereIsNoVertex a)) ∧
  (∀ a b, a ∈ verteces g → b ∉ verteces g →
     has_edge g a b = Raise (ThereIsNoVertex b)) ∧
  (∀ a b, a ∈ verteces g → b ∈ verteces g →
     ∃ l, adj g a = Ok l ∧ has_edge g a b = Ok (py_in b l) ∧
          (py_in b l = true ↔ edge g a b)) ∧
  (∃ b, has_self_loops g = Ok b ∧ (b = true ↔ ∃ v, edge g v v)) ∧
  (∀ v, v ∉ verteces g ↔ adj g v = Raise (CouldntFindAVertex v)) ∧
  (∀ v, has_vertex g v = true ↔ v ∈ verteces g) ∧
  (is_empty g = true ↔ verteces g = []).
Proof.
  split_and!.
  - intros a b. apply has_edge_unregistered.
  - intros a b. apply has_edge_unregistered.
  - intros a b Ha Hb. destruct (has_edge_registered g a b Ha Hb) as (l & Hl & Hh).
    exists l. split_and!; [unfold adj; by rewrite Hl|done|].
    rewrite py_in_true. symmetry. by apply edge_adj.
  - apply has_self_loops_spec.
  - intros v. unfold adj, verteces. rewrite <- dict_get_None.
    destruct (dict_get v (_edges g)); split; done.
  - intros v. apply dict_mem_true.
  - unfold is_empty, verteces, dict_keys. rewrite Nat.eqb_eq.
    destruct (_edges g); split; done.
Qed.

Lemma ranked_acyclic (rank : V → nat) g : ranked rank g = true → acyclic g.
Proof.
  unfold ranked. rewrite forallb_forall. intros Hall.
  assert (He : ∀ u w, edge g u w → (rank u < rank w)%nat).
  { intros u w (l & Hl%dict_get_Some_elem%list_elem_of_In%Hall & Hw).
    rewrite forallb_forall in Hl. by apply Nat.ltb_lt, Hl, list_elem_of_In. }
  assert (Hw : ∀ a b n, walk g a b n → (rank a + n ≤ rank b)%nat).
  { intros a b n Hw. induction Hw as [|u b n Hw IH Hub]; [lia|].
    apply He in Hub. lia. }
  intros v n Hv%Hw. lia.
Qed.

Lemma dag_walk_index (vs : list V) g :
  NoDup vs →
  (∀ a b, edge g a b ↔ ∃ i j, (i < j)%nat ∧ vs !! i = Some a ∧ vs !! j = Some b) →
  ∀ a b n, walk g a b n →
    (n = 0%nat ∧ a = b) ∨
    ∃ i j, vs !! i = Some a ∧ vs !! j = Some b ∧ (i + n ≤ j)%nat ∧ (0 < n)%nat.
Proof.
  intros Hnd He a b n Hw. induction Hw as [|u b n Hw IH Hedge]; [by left|].
  right. apply He in Hedge as (i' & j' & Hlt & Hi' & Hj').
  destruct IH as [[-> ->]|(i & j & Hi & Hj & Hle & _)].
  - exists i', j'. split_and!; [done|done|lia|lia].
  - assert (j = i') as -> by (by eapply NoDup_lookup).
    exists i, j'. split_and!; [done|done|lia|lia].
Qed.

(** X8: for a list without repetition, [dag] returns a directed acyclic
    graph in which the list is a topological order: [has_edge] is true from
    an element to exactly the elements after it, no path of one or more
    edges returns to its start, a path of [n] edges moves at least [n]
    positions forward, and there is no self-loop. *)
Theorem dag_acyclic (vs : list V) :
  NoDup vs →
  ∃ g, dag vs = (Ok tt, g) ∧
    (∀ i j a b, vs !! i = Some a → vs !! j = Some b →
       has_edge g a b = Ok (bool_decide (i < j)%nat)) ∧
    (∀ i j a b n, vs !! i = Some a → vs !! j = Some b → walk g a b n →
       (i + n ≤ j)%nat) ∧
    acyclic g ∧
    has_self_loops g = Ok false.
Proof.
  intros Hnd. destruct (dag_spec vs) as (g & Hg & Hk & He & Hwf).
  pose proof (dag_walk_index vs g Hnd He) as Hwalk.
  assert (Hacyc : acyclic g).
  { intros v n [[? _]|(i & j & Hi & Hj & Hle & Hn)]%Hwalk; [done|].
    assert (i = j) by (by eapply NoDup_lookup). lia. }
  exists g. split_and!; [done| | |done|].
  - intros i j a b Hi Hj.
    destruct (has_edge_registered g a b) as (l & Hl & ->);
      [apply Hk; by eapply list_elem_of_lookup_2..|].
    f_equal. unfold py_in. apply bool_decide_ext.
    trans (edge g a b).
    { split; [intros ?; by exists l|]. intros (l0 & Hl0 & ?). congruence. }
    rewrite He. split.
    + intros (i' & j' & Hlt & Hi' & Hj').
      assert (i' = i) as -> by (by eapply NoDup_lookup).
      by assert (j' = j) as -> by (by eapply NoDup_lookup).
    + intros Hlt. by exists i, j.
  - intros i j a b n Hi Hj [[-> ->]|(i' & j' & Hi' & Hj' & Hle & _)]%Hwalk.
    + assert (i = j) by (by eapply NoDup_lookup). lia.
    + assert (i' = i) as -> by (by eapply NoDup_lookup).
      by assert (j' = j) as -> by (by eapply NoDup_lookup).
  - destruct (has_self_loops_spec g) as (b & Hb & Hiff). rewrite Hb. f_equal.
    destruct b; [|done]. destruct (proj1 Hiff eq_refl) as (v & Hv).
    assert (Hw : walk g v v 1) by (econstructor; [constructor|done]).
    by apply Hacyc in Hw.
Qed.
End MoreStructure.

(** ** Sorting and the logs of a visit *)

Section SortFacts.
Context {A : Type} (key : A → Z).
Implicit Types (x : A) (l : list A).

Lemma sort_insert_perm x l : sort_insert key x l ≡ₚ x :: l.
Proof.
  induction l as [|y l IH]; simpl; [done|].
  destruct (key y <? key x); [|done]. rewrite IH. apply Permutation_swap.
Qed.

Lemma py_sort_perm l : py_sort key l ≡ₚ l.
Proof.
  unfold py_sort. induction l as [|x l IH]; simpl; [done|].
  by rewrite sort_insert_perm, IH.
Qed.

Lemma sort_insert_sorted x l :
  StronglySorted (λ a b, key a ≤ key b) l →
  StronglySorted (λ a b, key a ≤ key b) (sort_insert key x l).
Proof.
  induction l as [|y l IH]; simpl; intros Hs.
  - repeat constructor.
  - apply StronglySorted_inv in Hs as [Hs Hy].
    destruct (key y <? key x) eqn:Hlt.
    + apply Z.ltb_lt in Hlt. constructor; [by apply IH|].
      rewrite Forall_forall. intros z Hz.
      rewrite sort_insert_perm in Hz. apply elem_of_cons in Hz as [->|Hz]; [lia|].
      rewrite Forall_forall in Hy. by apply Hy.
    + apply Z.ltb_ge in Hlt. constructor; [by constructor|].
      constructor; [done|]. rewrite Forall_forall in Hy |- *.
      intros z Hz. specialize (Hy z Hz). lia.
Qed.

Lemma py_sort_sorted l : StronglySorted (λ a b, key a ≤ key b) (py_sort key l).
Proof.
  unfold py_sort. induction l as [|x l IH]; simpl; [constructor|].
  by apply sort_insert_sorted.
Qed.

Lemma sort_insert_stable k x l :
  filter (λ a, key a = k) (sort_insert key x l) = filter (λ a, key a = k) (x :: l).
Proof.
  induction l as [|y l IH]; simpl; [done|].
  destruct (key y <? key x) eqn:Hlt; [|done]. apply Z.ltb_lt in Hlt.
  rewrite (filter_cons _ y), IH, (filter_cons _ x), (filter_cons _ x), (filter_cons _ y).
  destruct (decide (key x = k)), (decide (key y = k)); try done. lia.
Qed.

Lemma py_sort_stable k l :
  filter (λ a, key a = k) (py_sort key l) = filter (λ a, key a = k) l.
Proof.
  unfold py_sort. induction l as [|x l IH]; simpl; [done|].
  by rewrite sort_insert_stable, !filter_cons, IH.
Qed.

Lemma StronglySorted_reverse (R : A → A → Prop) l :
  StronglySorted R l → StronglySorted (flip R) (list.reverse l).
Proof.
  induction 1 as [|x l Hs IH Hx]; [rewrite reverse_nil; constructor|].
  rewrite reverse_cons. apply StronglySorted_app_2; [|done|repeat constructor].
  intros a b Ha Hb%list_elem_of_singleton. subst b. rewrite elem_of_reverse in Ha.
  rewrite Forall_forall in Hx. by apply Hx.
Qed.

Lemma py_sort_reverse_perm l : py_sort_reverse key l ≡ₚ l.
Proof.
  unfold py_sort_reverse. by rewrite reverse_Permutation, py_sort_perm, reverse_Permutation.
Qed.

Lemma py_sort_reverse_sorted l :
  StronglySorted (λ a b, key b ≤ key a) (py_sort_reverse key l).
Proof. apply (StronglySorted_reverse (λ a b, key a ≤ key b)), py_sort_sorted. Qed.

Lemma py_sort_reverse_stable k l :
  filter (λ a, key a = k) (py_sort_reverse key l) = filter (λ a, key a = k) l.
Proof.
  unfold py_sort_reverse. rewrite filter_reverse, py_sort_stable.
  by rewrite filter_reverse, reverse_involutive.
Qed.
End SortFacts.

Section VisitMore.
Context {V : Type} {EqV : EqDecision V} {NoneV : PyNone V}.
Implicit Types (vis : @Visit V) (u v w : V) (st : @tstate V).

(** X9: [logs] returns the logs with a discovery time above -1 (all the
    logs with [get_all]), each as often as the visit holds it, in
    non-decreasing order of the sort key, non-increasing with [descendant],
    logs with equal keys staying in the order the visit created them;
    [verteces] returns the vertices of these logs in the same order, and
    the default arguments give the sort by discovery time. *)
Theorem logs_with_sorted (sort_by : @VertexLog V → Z) (descendant get_all : bool) vis :
  let selected :=
    if get_all then dict_values (_logs vis)
    else filter (λ l, -1 < discovery_time l) (dict_values (_logs vis)) in
  logs_with sort_by descendant get_all vis ≡ₚ selected ∧
  StronglySorted
    (λ a b, if descendant then sort_by b ≤ sort_by a else sort_by a ≤ sort_by b)
    (logs_with sort_by descendant get_all vis) ∧
  (∀ k, filter (λ l, sort_by l = k) (logs_with sort_by descendant get_all vis) =
        filter (λ l, sort_by l = k) selected) ∧
  verteces_with sort_by descendant get_all vis =
    vertex <$> logs_with sort_by descendant get_all vis ∧
  logs_with discovery_time false false vis = logs vis ∧
  logs_with discovery_time false true vis = logs_all vis ∧
  verteces_with discovery_time false false vis = Visit_verteces vis.
Proof.
  intros selected. unfold logs_with. fold selected.
  split_and!; try done; destruct descendant.
  - apply py_sort_reverse_perm.
  - apply py_sort_perm.
  - apply py_sort_reverse_sorted.
  - apply py_sort_sorted.
  - intros k. apply py_sort_reverse_stable.
  - intros k. apply py_sort_stable.
Qed.

(** X22: for every visit, whatever its logs hold, [last_time] is the
    least number that is at least 0 and at least every discovery and finish
    time of the visit: it is not negative, no time exceeds it, and it
    exceeds no other number with these two properties; it is 0 on a visit
    without logs. *)
Theorem last_time_max vis :
  0 ≤ last_time vis ∧
  (∀ l, l ∈ dict_values (_logs vis) →
     discovery_time l ≤ last_time vis ∧ finish_time l ≤ last_time vis) ∧
  (∀ v, dtime vis v ≤ last_time vis ∧ ftime vis v ≤ last_time vis) ∧
  (∀ b, 0 ≤ b →
     (∀ l, l ∈ dict_values (_logs vis) → discovery_time l ≤ b ∧ finish_time l ≤ b) →
     last_time vis ≤ b) ∧
  last_time (@Visit_init V) = 0.
Proof.
  split_and!; [apply last_time_nonneg| | | |done].
  - intros l Hl. unfold last_time. by apply foldl_step_ge.
  - intros v. split; [apply dtime_le_last_time|apply ftime_le_last_time].
  - intros b Hb Hall. unfold last_time. by apply foldl_step_le.
Qed.

(** X10: [Visit.log] always succeeds and is idempotent: it creates the
    log of a vertex that has none, with the sentinel times and no parent,
    so that the vertex is not discovered, and otherwise changes nothing; in
    both cases the logs of the other vertices and [last_time] are as
    before. *)
Theorem log_idempotent v st :
  ∃ st', log v st = (Ok tt, st') ∧ log v st' = (Ok tt, st') ∧
    logged (visit st') v ∧
    (∀ u, u ≠ v → log_of (visit st') u = log_of (visit st) u) ∧
    (logged (visit st) v → st' = st) ∧
    (¬ logged (visit st) v →
       log_of (visit st') v = Some (VertexLog_init v) ∧
       is_discovered (visit st') v = false) ∧
    last_time (visit st') = last_time (visit st).
Proof.
  unfold log, bind, get, when.
  destruct (dict_mem v (_logs (visit st))) eqn:Hm; simpl.
  - exists st. rewrite Hm. simpl. apply logged_mem in Hm. by split_and!.
  - apply not_logged_mem in Hm.
    set (st' := {| visit := apply_event (NewLog v) (visit st);
                   trace := trace st ++ [NewLog v] |}).
    assert (Hl' : log_of (visit st') v = Some (VertexLog_init v)).
    { unfold st'; cbn [visit]. rewrite log_of_NewLog. by rewrite decide_True. }
    assert (Hlogged : logged (visit st') v) by (unfold logged; by rewrite Hl').
    exists st'. split_and!; try done.
    + by rewrite (proj2 (logged_mem _ _) Hlogged).
    + intros u Hu. unfold st'; cbn [visit]. rewrite log_of_NewLog. by rewrite decide_False.
    + split; [done|]. unfold is_discovered. unfold log_of in Hl'. by rewrite Hl'.
    + by apply last_time_NewLog.
Qed.
End VisitMore.

(** ** What [dfs] discovers *)

Section DfsReach.
Context {V : Type} {EqV : EqDecision V} {NoneV : PyNone V}.
Implicit Types (g : @DiGraph V) (vis : @Visit V) (u v w x n s : V) (st : @tstate V).

(** [dfs] on an undiscovered registered vertex reachable from [s]
    returns and keeps [dfs_reach]. *)
Lemma dfs_visit_reach g s :
  wf_graph g → is_empty g = false →
  ∀ fuel x st,
    dfs_pre g x (visit st) →
    (length (undiscovered g (visit st)) < fuel)%nat →
    dfs_reach g s (visit st) → reachable g s x →
    (x ≠ s → dtime (visit st) s ≠ -1 ∧
             ∃ p, parent_of (visit st) x = field_of p ∧ edge g p x ∧
                  0 < dtime (visit st) p) →
    dfs_active_reach g x (visit st) →
    wp (dfs_visit fuel g x)
       (λ _ st', dfs_post g x (visit st) (visit st') ∧ dfs_reach g s (visit st'))
       (λ _, False) st.
Proof.
  intros Hwf Hne.
  induction fuel as [|fuel IH]; intros x st Hpre Hfuel Hreach Hsx Hroot Hact; [lia|].
  simpl. rewrite Hne.
  assert (Hx : x ∈ verteces g) by apply Hpre.
  assert (Hdx : dtime (visit st) x = -1) by apply Hpre.
  pose proof (last_time_nonneg (visit st)) as HL.
  destruct Hreach as (R1 & R2 & R3 & R4 & R5 & R6).
  apply wp_bind, wp_log. intros st1 Hext1 Hsame1 Hlt1 Hl1 Hlog1.
  apply wp_bind, wp_get_last_time.
  assert (Hok1 : event_ok (visit st1) (SetDiscovery x (last_time (visit st1) + 1))) by done.
  apply wp_bind, wp_emit_ok; [done|]. intros st2 Hext2 Hv2.
  assert (Hd2 : ∀ u, dtime (visit st2) u =
                     if decide (u = x) then last_time (visit st) + 1 else dtime (visit st) u).
  { intros u. rewrite Hv2, dtime_apply, Hlt1 by done. case_decide; [done|apply Hsame1]. }
  assert (Hf2 : ∀ u, ftime (visit st2) u = ftime (visit st) u).
  { intros u. rewrite Hv2, ftime_apply by done. apply Hsame1. }
  assert (Hp2 : ∀ u, parent_of (visit st2) u = parent_of (visit st) u).
  { intros u. rewrite Hv2, parent_of_apply by done. apply Hsame1. }
  assert (LI2 : dfs_loop_inv g x (visit st) (visit st2)).
  { apply dfs_loop_inv_discover; [done|done|done|done|]. intros u.
    rewrite Hv2, logged_apply, Hlog1 by done. split; [intros [?|?]; [done|congruence]|auto]. }
  assert (RR2 : dfs_reach g s (visit st2)).
  { split_and!.
    - intros v. rewrite Hd2. case_decide; [by subst|apply R1].
    - intros v p. rewrite Hp2. apply R2.
    - intros u v. rewrite Hf2, !Hd2. intros Hu He. destruct (R3 u v Hu He) as [Hv Hlt].
      rewrite decide_False by (intros ->; done). done.
    - by rewrite Hp2.
    - intros v Hv Hvs.
      assert (Hold : ∀ p, 0 < dtime (visit st) p → dtime (visit st2) p = dtime (visit st) p).
      { intros p Hp. rewrite Hd2. case_decide; [subst; lia|done]. }
      rewrite Hd2 in Hv. rewrite Hp2, (Hd2 v). case_decide as Hvx.
      + subst v. destruct (Hroot Hvs) as (_ & p & Hp & He & Hp0).
        exists p. rewrite (Hold p Hp0). split_and!; try done.
        pose proof (dtime_le_last_time (visit st) p). lia.
      + destruct (R5 v Hv Hvs) as (p & Hp & He & Hp0 & Hlt).
        exists p. rewrite (Hold p Hp0). by split_and!.
    - intros Hac u v. rewrite !Hf2. by apply R6. }
  assert (Hs2 : dtime (visit st2) s ≠ -1).
  { rewrite Hd2. case_decide; [lia|]. apply Hroot. congruence. }
  apply dict_get_is_Some in Hx as [neighbors Hadj]. unfold adj. rewrite Hadj.
  assert (Hreg : ∀ n, n ∈ neighbors → n ∈ verteces g) by (by apply (proj2 Hwf x)).
  clear R1 R2 R3 R4 R5 R6.
  assert (Hactive : ∀ vis', dfs_loop_inv g x (visit st) vis' →
            ∀ a, dtime vis' a ≠ -1 → ftime vis' a = -1 →
                 a = x ∨ (dtime (visit st) a ≠ -1 ∧ ftime (visit st) a = -1)).
  { intros vis' (_ & _ & _ & _ & Hframe & _ & Hnew) a Ha Hfa.
    destruct (decide (dtime (visit st) a = -1)) as [Hda|Hda].
    - left. destruct (decide (a = x)) as [|Hax]; [done|].
      by destruct (Hnew a Hda Ha) as [_ Hf]; destruct (Hf Hax).
    - right. split; [done|]. by destruct (Hframe a Hda) as (_ & <- & _). }
  apply wp_bind.
  eapply wp_mono;
    [apply (wp_for_each_prefix
              (λ pre st', dfs_loop_inv g x (visit st) (visit st') ∧
                          dfs_reach g s (visit st') ∧
                          dtime (visit st') s ≠ -1 ∧
                          ∀ n, n ∈ pre → dtime (visit st') n ≠ -1)
              neighbors _ (λ _, False))| |done].
  - split_and!; try done. by intros n ?%elem_of_nil.
  - intros pre n post st3 Hsplit (LI3 & RR3 & Hs3 & Hpre3).
    assert (Hn : n ∈ neighbors) by (rewrite Hsplit, elem_of_app; right; left).
    apply wp_bind, wp_get_is_discovered.
    apply wp_when.
    2:{ intros Hdn%negb_false_iff%is_discovered_true. split_and!; try done.
        intros n' [?| ->%list_elem_of_singleton]%elem_of_app; auto. }
    intros Hdn%negb_true_iff%is_discovered_false.
    apply wp_bind, wp_log. intros st4 Hext4 Hsame4 Hlt4 Hl4 Hlog4.
    assert (Hok4 : event_ok (visit st4) (SetParent n x)) by done.
    apply wp_bind, wp_emit_ok; [done|]. intros st5 Hext5 Hv5.
    assert (Hd5 : ∀ u, dtime (visit st5) u = dtime (visit st3) u).
    { intros u. rewrite Hv5, dtime_apply by done. apply Hsame4. }
    assert (Hf5 : ∀ u, ftime (visit st5) u = ftime (visit st3) u).
    { intros u. rewrite Hv5, ftime_apply by done. apply Hsame4. }
    assert (Hp5 : ∀ u, parent_of (visit st5) u =
                       if decide (u = n) then field_of x else parent_of (visit st3) u).
    { intros u. rewrite Hv5, parent_of_apply by done. case_decide; [done|apply Hsame4]. }
    assert (Hl5 : ∀ u, logged (visit st5) u ↔ logged (visit st3) u ∨ u = n).
    { intros u. rewrite Hv5, logged_apply, Hlog4 by done.
      split; [intros [?|?]; [done|congruence]|auto]. }
    assert (Hns : n ≠ s) by (intros ->; done).
    assert (RR5 : dfs_reach g s (visit st5)).
    { destruct RR3 as (R1 & R2 & R3 & R4 & R5 & R6). split_and!.
      - intros v. rewrite Hd5. apply R1.
      - intros v p. rewrite Hp5. case_decide; [|apply R2].
        intros [-> _]%field_of_Some_iff. subst v. by apply (edge_adj g x neighbors).
      - intros u v. rewrite Hf5, !Hd5. apply R3.
      - rewrite Hp5. by rewrite decide_False.
      - intros v Hv Hvs. rewrite Hd5 in Hv.
        destruct (decide (v = n)) as [->|Hvn]; [done|].
        destruct (R5 v Hv Hvs) as (p & ? & ? & ? & ?).
        exists p. rewrite Hp5, decide_False, !Hd5 by done. by split_and!.
      - intros Hac u v. rewrite !Hf5. by apply R6. }
    assert (Hxn : edge g x n) by (by apply (edge_adj g x neighbors)).
    assert (Hpre5 : dfs_pre g n (visit st5)) by (by eapply dfs_pre_child; eauto).
    eapply wp_mono; [apply (IH n st5)| |done].
    + done.
    + rewrite (undiscovered_ext g (visit st3) (visit st5)) by done.
      assert (length (undiscovered g (visit st3)) < length (undiscovered g (visit st)))%nat;
        [|lia].
      destruct LI3 as (_ & Hdx3 & _ & _ & Hframe3 & _).
      apply (undiscovered_decrease g _ _ x); [by eapply dict_get_Some_key|done|lia|].
      intros v Hv. destruct (Hframe3 v Hv) as (-> & _). done.
    + done.
    + eapply reachable_step; [done|]. by apply (edge_adj g x neighbors).
    + intros _. rewrite Hd5, Hp5. split; [done|]. exists x.
      rewrite decide_True, Hd5 by done. split_and!; [done|done|].
      destruct LI3 as (_ & -> & _). lia.
    + intros a. rewrite Hd5, Hf5. intros Ha Hfa.
      destruct (Hactive _ LI3 a Ha Hfa) as [->|[Ha0 Hfa0]].
      * exists 0%nat. econstructor; [constructor|done].
      * destruct (Hact a Ha0 Hfa0) as [k Hk]. exists (S k). by econstructor.
    + intros [] st6 [Hpost6 RR6]. split_and!.
      * by eapply dfs_loop_inv_return; eauto.
      * done.
      * destruct Hpost6 as (_ & Hframe6 & _). rewrite <- Hd5 in Hs3.
        by destruct (Hframe6 s Hs3) as (-> & _).
      * destruct Hpost6 as (_ & Hframe6 & _ & _ & Hdn6 & _).
        intros n' [Hn'| ->%list_elem_of_singleton]%elem_of_app.
        -- specialize (Hpre3 n' Hn'). rewrite <- Hd5 in Hpre3.
           by destruct (Hframe6 n' Hpre3) as (-> & _).
        -- rewrite Hdn6. pose proof (last_time_nonneg (visit st5)). lia.
  - intros [] st7 (LI7 & RR7 & Hs7 & Hpre7). simpl.
    apply wp_bind, wp_get_last_time.
    assert (Hdx7 : dtime (visit st7) x ≠ -1).
    { destruct LI7 as (_ & -> & _). lia. }
    assert (Hok7 : event_ok (visit st7) (SetFinish x (last_time (visit st7) + 1))).
    { split_and!; [by apply dtime_logged|done|done]. }
    apply wp_emit_ok; [done|]. intros st8 Hext8 Hv8.
    assert (Hd8 : ∀ u, dtime (visit st8) u = dtime (visit st7) u).
    { intros u. by rewrite Hv8, dtime_apply. }
    assert (Hf8 : ∀ u, ftime (visit st8) u =
                       if decide (u = x) then last_time (visit st7) + 1 else ftime (visit st7) u).
    { intros u. by rewrite Hv8, ftime_apply. }
    assert (Hp8 : ∀ u, parent_of (visit st8) u = parent_of (visit st7) u).
    { intros u. by rewrite Hv8, parent_of_apply. }
    split.
    + apply (dfs_post_finish g x _ (visit st7)); [done|done|done|done|done|].
      intros u. rewrite Hv8, logged_apply by done.
      split; [intros [?|?]; [done|congruence]|auto].
    + destruct RR7 as (R1 & R2 & R3 & R4 & R5 & R6). split_and!.
      * intros v. rewrite Hd8. apply R1.
      * intros v p. rewrite Hp8. apply R2.
      * intros u v. rewrite Hf8, !Hd8. destruct (decide (u = x)) as [->|Hux]; [|apply R3].
        intros _ Hv%(edge_adj g x neighbors); [|done]. split; [by apply Hpre7|].
        pose proof (dtime_le_last_time (visit st7) v). lia.
      * by rewrite Hp8.
      * intros v Hv Hvs. rewrite Hd8 in Hv. destruct (R5 v Hv Hvs) as (p & ? & ? & ? & ?).
        exists p. rewrite Hp8, !Hd8. by split_and!.
      * intros Hac u v. rewrite !Hf8.
        assert (Hfx7 : ftime (visit st7) x = -1) by apply LI7.
        destruct (decide (u = x)) as [->|Hux].
        -- intros _ He. pose proof He as Hv%(edge_adj g x neighbors); [|done].
           assert (Hfv : ftime (visit st7) v ≠ -1).
           { intros Hfv. destruct (Hactive _ LI7 v (Hpre7 v Hv) Hfv) as [->|[Ha0 Hfa0]].
             - assert (Hw : walk g x x 1) by (econstructor; [constructor|done]).
               by apply Hac in Hw.
             - destruct (Hact v Ha0 Hfa0) as [k Hk].
               assert (Hw : walk g v v (S (S k))) by (by econstructor).
               by apply Hac in Hw. }
           rewrite decide_False by (intros ->; done). split; [done|].
           pose proof (ftime_le_last_time (visit st7) v). lia.
        -- intros Hu He. destruct (R6 Hac u v Hu He) as [Hfv Hlt].
           rewrite decide_False by (intros ->; done). done.
Qed.

Lemma logs_vertex_NoDup (d : dict V (@VertexLog V)) (P : @VertexLog V → Prop)
    `{∀ l, Decision (P l)} :
  NoDup (dict_keys d) → (∀ v l, (v, l) ∈ d → vertex l = v) →
  NoDup (vertex <$> filter P (dict_values d)).
Proof.
  induction d as [|[k l] d IH]; csimpl; intros Hnd Hkey; [constructor|].
  apply NoDup_cons in Hnd as [Hk Hnd].
  assert (IH' : NoDup (vertex <$> filter P (dict_values d))).
  { apply IH; [done|]. intros v l' Hin. apply Hkey. by right. }
  rewrite filter_cons. destruct (decide (P l)); [|done].
  csimpl. apply NoDup_cons. split; [|done].
  rewrite (Hkey k l) by left.
  intros (l' & Hl' & [_ Hin]%list_elem_of_filter)%list_elem_of_fmap.
  apply list_elem_of_fmap in Hin as ([k' l''] & -> & Hin). simpl in Hl'.
  apply Hk. apply list_elem_of_fmap. exists (k', l''). split; [|done].
  simpl. rewrite Hl'. apply Hkey. by right.
Qed.

Lemma Visit_verteces_NoDup vis : visit_wf vis → NoDup (Visit_verteces vis).
Proof.
  intros [Hnd Hkey]. unfold Visit_verteces, logs.
  rewrite py_sort_perm. by apply logs_vertex_NoDup.
Qed.

(** X11: on a well-formed graph, [dfs] from a registered source on a
    fresh visit returns (with fuel above the number of vertices) a visit in
    which the discovered vertices are exactly the vertices reachable from
    the source, each of them finished; [verteces()] lists exactly these,
    each once; the source has no parent and the parent field of every
    other discovered vertex holds a vertex discovered before it, with an
    edge from that vertex to it (the field reads [None] when that vertex
    is [None]); and each neighbour of a discovered vertex is discovered
    before that vertex finishes. *)
Theorem dfs_discovers_reachable fuel g s :
  wf_graph g → s ∈ verteces g → (length (verteces g) < fuel)%nat →
  ∃ st, dfs fuel g s None = (Ok tt, st) ∧
    (∀ v, is_discovered (visit st) v = true ↔ reachable g s v) ∧
    (∀ v, v ∈ Visit_verteces (visit st) ↔ reachable g s v) ∧
    NoDup (Visit_verteces (visit st)) ∧
    (∀ v, reachable g s v → 0 < dtime (visit st) v < ftime (visit st) v) ∧
    parent_of (visit st) s = None ∧
    (∀ v, reachable g s v → v ≠ s →
       ∃ p, parent_of (visit st) v = field_of p ∧ edge g p v ∧ reachable g s p ∧
            dtime (visit st) p < dtime (visit st) v) ∧
    (∀ u v, reachable g s u → edge g u v →
       0 < dtime (visit st) v < ftime (visit st) u).
Proof.
  intros Hwf Hs Hfuel.
  assert (Hne : is_empty g = false).
  { unfold is_empty. apply Nat.eqb_neq. unfold verteces, dict_keys in Hs.
    destruct (_edges g); [by apply elem_of_nil in Hs|done]. }
  assert (Hpre : dfs_pre g s (@Visit_init V)).
  { unfold dfs_pre, dfs_inv. split_and!; try done.
    all: try (by intros v [? ?]).
    intros v. by left. }
  assert (Hreach0 : dfs_reach g s (@Visit_init V)) by (by split_and!).
  destruct (wp_total _ _ _ (dfs_visit_reach g s Hwf Hne fuel s tstate_init Hpre
             ltac:(simpl; pose proof (length_filter (λ v, dtime (@Visit_init V) v = -1)
                                        (verteces g)); unfold undiscovered; lia)
             Hreach0 (reachable_refl g s) ltac:(done) ltac:(by intros a ?)))
    as ([] & st & Hrun & (HJ & Hframe & Hlogged & Hnew & Hds & _)
        & R1 & R2 & R3 & R4 & R5 & _).
  simpl in *. destruct HJ as (J0 & J1 & J2).
  assert (Hext : extends tstate_init st) by (by eapply dfs_traced).
  destruct (extends_init_wf st Hext) as [Hvwf Hvalid].
  assert (Hfin : ∀ v, dtime (visit st) v ≠ -1 →
            0 < dtime (visit st) v < ftime (visit st) v).
  { intros v Hv. destruct (Hnew v eq_refl Hv) as [_ Hf].
    destruct (J1 v) as [[? _]|[? [?|?]]]; done. }
  assert (Hdisc : ∀ v, reachable g s v → dtime (visit st) v ≠ -1).
  { intros v [k Hw]. induction Hw as [|u v k Hw IH He]; [by rewrite Hds|].
    apply (R3 u v); [|done]. specialize (Hfin u IH). lia. }
  exists st. split_and!; try done.
  - intros v. rewrite is_discovered_true. split; [apply R1|apply Hdisc].
  - intros v. unfold Visit_verteces. rewrite elem_of_logs_vertex by done. split.
    + intros Hv. apply R1. lia.
    + intros Hv%Hdisc%Hfin. lia.
  - by apply Visit_verteces_NoDup.
  - intros v Hv. by apply Hfin, Hdisc.
  - intros v Hv%Hdisc Hvs. destruct (R5 v Hv Hvs) as (p & Hp & He & Hp0 & Hlt).
    exists p. split_and!; [done|done| |done]. apply R1. lia.
  - intros u v Hu%Hdisc He. destruct (Hfin u Hu) as [Hdu Hfu].
    destruct (R3 u v) as [Hv Hlt]; [lia|done|]. destruct (Hfin v Hv). lia.
Qed.

Lemma registered_not_empty g s : s ∈ verteces g → is_empty g = false.
Proof.
  intros Hs. unfold is_empty. apply Nat.eqb_neq. unfold verteces, dict_keys in Hs.
  destruct (_edges g); [by apply elem_of_nil in Hs|done].
Qed.

Lemma dfs_pre_init g s : s ∈ verteces g → dfs_pre g s (@Visit_init V).
Proof.
  intros Hs. unfold dfs_pre, dfs_inv. split_and!; try done.
  all: try (by intros v [? ?]).
  intros v. by left.
Qed.

(** What a completed [dfs] on a fresh visit leaves. *)
Lemma dfs_run_facts fuel g s st1 :
  wf_graph g → s ∈ verteces g → (length (verteces g) < fuel)%nat →
  dfs fuel g s None = (Ok tt, st1) →
  dfs_post g s Visit_init (visit st1) ∧ dfs_reach g s (visit st1).
Proof.
  intros Hwf Hs Hfuel Hrun.
  pose proof (registered_not_empty g s Hs) as Hne.
  assert (Hreach0 : dfs_reach g s (@Visit_init V)) by (by split_and!).
  pose proof (dfs_visit_reach g s Hwf Hne fuel s tstate_init (dfs_pre_init g s Hs)
             ltac:(simpl; pose proof (length_filter (λ v, dtime (@Visit_init V) v = -1)
                                        (verteces g)); unfold undiscovered; lia)
             Hreach0 (reachable_refl g s) ltac:(done) ltac:(by intros a ?)) as Hwp.
  by apply (wp_run _ _ _ _ _ _ Hwp) in Hrun.
Qed.

(** X12: a second [dfs], from a vertex the first one did not discover
    and on the visit the first one returned, returns too: it continues the
    clock at [last_time() + 1], leaves the times and parents of the
    vertices discovered before untouched, gives its own source no parent,
    stamps every vertex it discovers after the earlier ones, and leaves
    every discovered vertex finished after its discovery. *)
Theorem dfs_continues_visit fuel g s1 s2 st1 :
  wf_graph g → s1 ∈ verteces g → s2 ∈ verteces g →
  (length (verteces g) < fuel)%nat →
  dfs fuel g s1 None = (Ok tt, st1) →
  is_discovered (visit st1) s2 = false →
  ∃ st2, dfs fuel g s2 (Some st1) = (Ok tt, st2) ∧
    dtime (visit st2) s2 = last_time (visit st1) + 1 ∧
    parent_of (visit st2) s2 = None ∧
    (∀ v, is_discovered (visit st1) v = true →
       dtime (visit st2) v = dtime (visit st1) v ∧
       ftime (visit st2) v = ftime (visit st1) v ∧
       parent_of (visit st2) v = parent_of (visit st1) v) ∧
    (∀ v, is_discovered (visit st1) v = false →
       is_discovered (visit st2) v = true →
       last_time (visit st1) < dtime (visit st2) v) ∧
    (∀ v, is_discovered (visit st2) v = true →
       0 < dtime (visit st2) v < ftime (visit st2) v).
Proof.
  intros Hwf Hs1 Hs2 Hfuel Hrun1 Hd2%is_discovered_false.
  pose proof (registered_not_empty g s1 Hs1) as Hne.
  destruct (dfs_run_facts fuel g s1 st1 Hwf Hs1 Hfuel Hrun1)
    as [((J0 & J1 & J2) & _ & Hlogged1 & Hnew1 & _) _].
  assert (Hfin1 : ∀ v, dtime (visit st1) v ≠ -1 → ftime (visit st1) v ≠ -1).
  { intros v Hv. by apply (Hnew1 v). }
  assert (Hnl : ¬ logged (visit st1) s2) by (intros Hl; by apply Hlogged1 in Hl).
  assert (Hp2 : parent_of (visit st1) s2 = None).
  { unfold parent_of. unfold logged in Hnl. destruct (log_of (visit st1) s2); [|done].
    destruct Hnl. by eexists. }
  assert (Hpre : dfs_pre g s2 (visit st1)).
  { split_and!; try done.
    - intros v Hv _. by apply Hlogged1.
    - intros p. by rewrite Hp2. }
  destruct (wp_total _ _ _ (dfs_visit_spec g Hwf Hne fuel s2 st1 Hpre
             ltac:(pose proof (length_filter (λ v, dtime (visit st1) v = -1)
                                 (verteces g)); unfold undiscovered; lia)))
    as ([] & st2 & Hrun2 & (K0 & K1 & K2) & Hframe & Hlogged2 & Hnew2 & Hds2 & Hps2).
  exists st2. split_and!; try done.
  - by rewrite Hps2.
  - intros v Hv%is_discovered_true. by apply Hframe.
  - intros v Hv1%is_discovered_false Hv2%is_discovered_true. by apply Hnew2.
  - intros v Hv%is_discovered_true.
    assert (Hf : ftime (visit st2) v ≠ -1).
    { destruct (decide (dtime (visit st1) v = -1)) as [Hv1|Hv1].
      - by apply Hnew2.
      - destruct (Hframe v Hv1) as (_ & -> & _). by apply Hfin1. }
    destruct (K1 v) as [[? _]|[? [?|?]]]; done.
Qed.

(** X13: [dfs] does not look at whether its source is already
    discovered: called again, on the visit a [dfs] returned, from a vertex
    this visit holds, it succeeds and overwrites the two times of that
    vertex with the next two clock values, and changes nothing else. *)
Theorem dfs_again_restamps fuel g s v st1 :
  wf_graph g → s ∈ verteces g → (length (verteces g) < fuel)%nat →
  dfs fuel g s None = (Ok tt, st1) → reachable g s v →
  ∃ st2, dfs fuel g v (Some st1) = (Ok tt, st2) ∧
    dtime (visit st2) v = last_time (visit st1) + 1 ∧
    ftime (visit st2) v = last_time (visit st1) + 2 ∧
    ftime (visit st1) v < dtime (visit st2) v ∧
    (∀ u, parent_of (visit st2) u = parent_of (visit st1) u) ∧
    (∀ u, u ≠ v → dtime (visit st2) u = dtime (visit st1) u ∧
                  ftime (visit st2) u = ftime (visit st1) u).
Proof.
  intros Hwf Hs Hfuel Hrun1 Hv.
  pose proof (registered_not_empty g s Hs) as Hne.
  destruct (dfs_run_facts fuel g s st1 Hwf Hs Hfuel Hrun1)
    as [((J0 & J1 & J2) & _ & Hlogged1 & Hnew1 & Hds & _) (R1 & R2 & R3 & R4 & R5 & _)].
  assert (Hfin1 : ∀ u, dtime (visit st1) u ≠ -1 → ftime (visit st1) u ≠ -1).
  { intros u Hu. by apply (Hnew1 u). }
  assert (Hdisc : ∀ u, reachable g s u → dtime (visit st1) u ≠ -1).
  { intros u [k Hw]. induction Hw as [|u w k Hw IH He]; [by rewrite Hds|].
    apply (R3 u w); [by apply Hfin1|done]. }
  assert (Hdv : dtime (visit st1) v ≠ -1) by (by apply Hdisc).
  assert (Hlv : logged (visit st1) v) by (by apply dtime_logged).
  pose proof (ftime_le_last_time (visit st1) v) as Hfv.
  destruct fuel as [|fuel]; [lia|].
  cut (wp (dfs_visit (S fuel) g v)
         (λ _ st2,
            dtime (visit st2) v = last_time (visit st1) + 1 ∧
            ftime (visit st2) v = last_time (visit st1) + 2 ∧
            ftime (visit st1) v < dtime (visit st2) v ∧
            (∀ u, parent_of (visit st2) u = parent_of (visit st1) u) ∧
            (∀ u, u ≠ v → dtime (visit st2) u = dtime (visit st1) u ∧
                          ftime (visit st2) u = ftime (visit st1) u))
         (λ _, False) st1).
  { intros ([] & st2 & Hrun2 & HQ)%wp_total. by exists st2. }
  simpl. rewrite Hne.
  apply wp_bind, wp_log. intros sta Hexta Hsamea Hlta Hla Hloga.
  apply wp_bind, wp_get_last_time.
  assert (Hoka : event_ok (visit sta) (SetDiscovery v (last_time (visit sta) + 1))) by done.
  apply wp_bind, wp_emit_ok; [done|]. intros stb Hextb Hvb.
  assert (Hdb : ∀ u, dtime (visit stb) u =
                     if decide (u = v) then last_time (visit st1) + 1 else dtime (visit st1) u).
  { intros u. rewrite Hvb, dtime_apply, Hlta by done. case_decide; [done|apply Hsamea]. }
  assert (Hfb : ∀ u, ftime (visit stb) u = ftime (visit st1) u).
  { intros u. rewrite Hvb, ftime_apply by done. apply Hsamea. }
  assert (Hpb : ∀ u, parent_of (visit stb) u = parent_of (visit st1) u).
  { intros u. rewrite Hvb, parent_of_apply by done. apply Hsamea. }
  assert (Hltb : last_time (visit stb) = last_time (visit st1) + 1).
  { rewrite Hvb, last_time_SetDiscovery, Hlta; [done|done|lia]. }
  assert (Hreg : v ∈ verteces g) by (by apply J0).
  apply dict_get_is_Some in Hreg as [neighbors Hadj]. unfold adj. rewrite Hadj.
  apply wp_bind.
  eapply wp_mono;
    [apply (wp_for_each (λ st', visit st' = visit stb) _ _ (λ _, False)); [done|]| |done].
  - intros n st3 Hn Hv3. apply wp_bind, wp_get_is_discovered. rewrite Hv3.
    apply wp_when; [|done]. intros Hdn%negb_true_iff%is_discovered_false.
    rewrite Hdb in Hdn. pose proof (last_time_nonneg (visit st1)).
    case_decide; [lia|]. destruct (R3 v n) as [Hn' _]; [by apply Hfin1|by exists neighbors|done].
  - intros [] st7 Hv7. simpl. apply wp_bind, wp_get_last_time.
    assert (Hok7 : event_ok (visit st7) (SetFinish v (last_time (visit st7) + 1))).
    { rewrite Hv7. split_and!; [by eapply extends_logged|rewrite Hdb|done].
      rewrite decide_True by done. pose proof (last_time_nonneg (visit st1)). lia. }
    apply wp_emit_ok; [done|]. intros st8 Hext8 Hv8. rewrite Hv7 in Hv8, Hok7.
    split_and!.
    + rewrite Hv8, dtime_apply, Hdb by done. by rewrite decide_True.
    + rewrite Hv8, ftime_apply, Hltb by done. rewrite decide_True by done. lia.
    + rewrite Hv8, dtime_apply, Hdb by done. rewrite decide_True by done. lia.
    + intros u. by rewrite Hv8, parent_of_apply, Hpb.
    + intros u Hu. rewrite Hv8, dtime_apply, ftime_apply, Hdb, Hfb by done.
      by rewrite !decide_False.
Qed.

Lemma StronglySorted_lookup_lt {A} (R : A → A → Prop) (l : list A) i j a b :
  StronglySorted R l → l !! i = Some a → l !! j = Some b → (i < j)%nat → R a b.
Proof.
  intros Hs. revert i j. induction Hs as [|x l Hs IH Hx]; intros i j Hi Hj Hlt; [done|].
  destruct i as [|i], j as [|j]; simpl in *; try lia.
  - injection Hi as ->. rewrite Forall_forall in Hx. apply Hx.
    by eapply list_elem_of_lookup_2.
  - apply (IH i j); [done|done|lia].
Qed.

Lemma logs_with_log_of (sort_by : @VertexLog V → Z) (descendant : bool) vis l :
  visit_wf vis → l ∈ logs_with sort_by descendant false vis →
  log_of vis (vertex l) = Some l ∧ -1 < discovery_time l.
Proof.
  intros Hwf Hl. apply (elem_of_logs vis l Hwf). unfold logs. rewrite py_sort_perm.
  unfold logs_with in Hl. destruct descendant.
  - by rewrite py_sort_reverse_perm in Hl.
  - by rewrite py_sort_perm in Hl.
Qed.

Lemma verteces_with_perm (sort_by : @VertexLog V → Z) (descendant : bool) vis :
  verteces_with sort_by descendant false vis ≡ₚ Visit_verteces vis.
Proof.
  unfold verteces_with, Visit_verteces, logs, logs_with. apply fmap_Permutation.
  destruct descendant.
  - by rewrite py_sort_reverse_perm, py_sort_perm.
  - by rewrite !py_sort_perm.
Qed.

(** X20: on a well-formed graph without cycle, after [dfs] from a
    registered source every neighbour of a discovered vertex has finished
    before that vertex, so that the vertices listed by decreasing finish
    time, [verteces(sort_by=finish_time, descendant=True)], are the
    vertices reachable from the source in a topological order: each once,
    and every edge goes from an earlier to a later position. *)
Theorem dfs_topological_order fuel g s :
  wf_graph g → acyclic g → s ∈ verteces g → (length (verteces g) < fuel)%nat →
  ∃ st, dfs fuel g s None = (Ok tt, st) ∧
    (∀ u v, reachable g s u → edge g u v →
       ftime (visit st) v < ftime (visit st) u) ∧
    (∀ v, v ∈ verteces_with finish_time true false (visit st) ↔ reachable g s v) ∧
    NoDup (verteces_with finish_time true false (visit st)) ∧
    (∀ u v i j, edge g u v →
       verteces_with finish_time true false (visit st) !! i = Some u →
       verteces_with finish_time true false (visit st) !! j = Some v →
       (i < j)%nat).
Proof.
  intros Hwf Hac Hs Hfuel.
  pose proof (registered_not_empty g s Hs) as Hne.
  assert (Hreach0 : dfs_reach g s (@Visit_init V)) by (by split_and!).
  destruct (wp_total _ _ _ (dfs_visit_reach g s Hwf Hne fuel s tstate_init
             (dfs_pre_init g s Hs)
             ltac:(simpl; pose proof (length_filter (λ v, dtime (@Visit_init V) v = -1)
                                        (verteces g)); unfold undiscovered; lia)
             Hreach0 (reachable_refl g s) ltac:(done) ltac:(by intros a ?)))
    as ([] & st & Hrun & (HJ & Hframe & Hlogged & Hnew & Hds & _)
        & R1 & R2 & R3 & R4 & R5 & R6).
  simpl in *. destruct HJ as (J0 & J1 & J2). specialize (R6 Hac).
  assert (Hext : extends tstate_init st) by (by eapply dfs_traced).
  destruct (extends_init_wf st Hext) as [Hvwf Hvalid].
  assert (Hfin : ∀ v, dtime (visit st) v ≠ -1 →
            0 < dtime (visit st) v < ftime (visit st) v).
  { intros v Hv. destruct (Hnew v eq_refl Hv) as [_ Hf].
    destruct (J1 v) as [[? _]|[? [?|?]]]; done. }
  assert (Hdisc : ∀ v, reachable g s v → dtime (visit st) v ≠ -1).
  { intros v [k Hw]. induction Hw as [|u v k Hw IH He]; [by rewrite Hds|].
    apply (R3 u v); [|done]. specialize (Hfin u IH). lia. }
  assert (Htopo : ∀ u v, dtime (visit st) u ≠ -1 → edge g u v →
            ftime (visit st) v < ftime (visit st) u).
  { intros u v Hu He. apply (R6 u v); [|done]. specialize (Hfin u Hu). lia. }
  assert (Hmem : ∀ v, v ∈ verteces_with finish_time true false (visit st)
                      ↔ dtime (visit st) v ≠ -1).
  { intros v. rewrite verteces_with_perm. unfold Visit_verteces.
    rewrite elem_of_logs_vertex by done. split; [lia|]. intros Hv%Hfin. lia. }
  exists st. split_and!; [done| | | |].
  - intros u v Hu%Hdisc He. by apply Htopo.
  - intros v. rewrite Hmem. split; [apply R1|apply Hdisc].
  - rewrite verteces_with_perm. by apply Visit_verteces_NoDup.
  - intros u v i j He Hi Hj.
    assert (Hu : dtime (visit st) u ≠ -1) by (by eapply Hmem, list_elem_of_lookup_2).
    pose proof (Htopo u v Hu He) as Hlt.
    unfold verteces_with in Hi, Hj.
    apply list_lookup_fmap_Some in Hi as (lu & -> & Hlu).
    apply list_lookup_fmap_Some in Hj as (lv & -> & Hlv).
    assert (Hfu : ftime (visit st) (vertex lu) = finish_time lu).
    { destruct (logs_with_log_of finish_time true (visit st) lu Hvwf) as [Hl _];
        [by eapply list_elem_of_lookup_2|]. unfold ftime. by rewrite Hl. }
    assert (Hfv : ftime (visit st) (vertex lv) = finish_time lv).
    { destruct (logs_with_log_of finish_time true (visit st) lv Hvwf) as [Hl _];
        [by eapply list_elem_of_lookup_2|]. unfold ftime. by rewrite Hl. }
    rewrite Hfu, Hfv in Hlt.
    destruct (decide (i < j)%nat) as [|Hge]; [done|]. exfalso.
    destruct (decide (i = j)) as [->|Hij].
    + assert (lu = lv) as -> by congruence. lia.
    + pose proof (StronglySorted_lookup_lt _ _ j i lv lu
                    (py_sort_reverse_sorted finish_time _) Hlv Hlu ltac:(lia)) as Hle.
      simpl in Hle. lia.
Qed.
End DfsReach.

(** ** What [bfs] discovers *)

Section BfsReach.
Context {V : Type} {EqV : EqDecision V} {NoneV : PyNone V}.
Implicit Types (g : @DiGraph V) (vis : @Visit V) (u v w x n s : V) (st : @tstate V)
  (q queue pre : list V).






(** X15: what the traversals do with an input they refuse.  On the
    empty graph [bfs] raises the empty-graph error whatever the source, and
    so does [dfs], which then leaves the visit it was given untouched; on a
    non-empty graph [bfs] raises the not-found error for an unregistered
    source; [distances] raises the not-found error for an unregistered
    source on every graph, the empty one included.  None of them needs
    more than one unit of fuel to fail. *)
Theorem traversals_refuse g s :
  (is_empty g = true →
     (∀ fuel, bfs fuel g s = (Raise CannotBFSEmpty, tstate_init)) ∧
     (∀ fuel st, dfs (S fuel) g s (Some st) = (Raise CannotDFSEmpty, st)) ∧
     (∀ fuel, dfs (S fuel) g s None = (Raise CannotDFSEmpty, tstate_init)) ∧
     (∀ fuel, distances fuel g s = Raise (CantFindVertex s)) ∧
     s ∉ verteces g) ∧
  (is_empty g = false → s ∉ verteces g →
     (∀ fuel, bfs fuel g s = (Raise (CantFindVertex s), tstate_init)) ∧
     (∀ fuel, distances fuel g s = Raise (CantFindVertex s))) ∧
  is_EmptyGraphError (@CannotBFSEmpty V) = true ∧
  is_EmptyGraphError (@CannotDFSEmpty V) = true ∧
  is_NotFoundError (CantFindVertex s) = true.
Proof.
  split_and!; try done.
  - intros Hemp.
    assert (Hs : s ∉ verteces g).
    { unfold is_empty in Hemp. apply Nat.eqb_eq in Hemp. unfold verteces.
      destruct (_edges g); [apply not_elem_of_nil|done]. }
    split_and!; try done.
    + intros fuel. unfold bfs. by rewrite Hemp.
    + intros fuel st. unfold dfs. simpl. by rewrite Hemp.
    + intros fuel. unfold dfs. simpl. by rewrite Hemp.
    + intros fuel. unfold distances. by rewrite (proj2 (py_in_false s _) Hs).
  - intros Hne Hs. split; intros fuel.
    + unfold bfs. by rewrite Hne, (proj2 (py_in_false s _) Hs).
    + unfold distances. by rewrite (proj2 (py_in_false s _) Hs).
Qed.
End BfsReach.

(** ** More on the result of [distances] *)

Section DistancesMore.
Context {V : Type} {EqV : EqDecision V} {NoneV : PyNone V}.
Implicit Types (g : @DiGraph V) (vis : @Visit V) (u v w x s : V) (st : @tstate V).

(** The dictionary [distances] returns, read through shortest paths. *)
Lemma distances_result fuel g s :
  wf_graph g → none_free g → s ∈ verteces g →
  (bfs_potential g Visit_init [s] < fuel)%nat →
  ∃ ret, distances fuel g s = Ok ret ∧
    dict_keys ret = verteces g ∧
    (∀ v, reachable g s v → v ∈ verteces g) ∧
    (∀ v, v ∈ verteces g →
       (dict_get v ret = Some (-1) ∧ ¬ reachable g s v) ∨
       (∃ n, dict_get v ret = Some (Z.of_nat n) ∧ shortest g s v n)).
Proof.
  intros Hwf Hnf Hs Hfuel.
  destruct (distances_run_spec fuel g s Hwf Hnf Hs Hfuel) as (st & Hrun & Hinv).
  destruct (dist_inv_final g s st Hinv) as (Hdisc & Hupper & Hsound).
  destruct (extends_init_wf st (proj1 Hinv)) as [Hvwf Hvalid].
  destruct Hinv as (_ & (D0 & D1 & _) & _). simpl in *.
  set (f := λ v, default 0 (dist_of (visit st) v)).
  set (ret0 := foldl (λ ret vertex, dict_set vertex (-1) ret) [] (verteces g)).
  destruct (distances_init_ret (verteces g) []) as [Hk0 Hg0]; [apply Hwf|].
  fold ret0 in Hk0, Hg0. simpl in Hk0.
  assert (Hlogs : ∀ l, l ∈ logs (visit st) →
            logged (visit st) (vertex l) ∧ distance l = Some (f (vertex l))).
  { intros l [Hl _]%elem_of_logs; [|done].
    assert (Hlv : logged (visit st) (vertex l)) by (by exists l).
    split; [done|]. destruct (Hsound _ Hlv) as (d & Hd & _).
    unfold f. rewrite Hd. simpl. unfold dist_of in Hd. by rewrite Hl in Hd. }
  destruct (distances_collect_spec f (logs (visit st)) ret0) as (ret & Hcol & Hk & Hg).
  { intros l Hl. by apply Hlogs. }
  { intros l Hl. rewrite Hk0. apply D0. by apply Hlogs. }
  assert (Hlookup : ∀ v, v ∈ verteces g →
            dict_get v ret = if decide (logged (visit st) v)
                             then Some (f v) else Some (-1)).
  { intros v Hv. rewrite Hg, Hg0.
    assert (Hiff : v ∈ vertex <$> logs (visit st) ↔ logged (visit st) v).
    { rewrite elem_of_logs_vertex by done. split.
      - intros Hd. apply dtime_logged. lia.
      - intros Hl. apply Hdisc in Hl.
        assert (-1 ≤ dtime (visit st) v); [|lia].
        unfold dtime. destruct (log_of (visit st) v) as [l|] eqn:Hlv; simpl; [|lia].
        apply Hvalid, elem_of_times. exists l. split; [by eapply log_of_values|by left]. }
    destruct (decide (logged (visit st) v)) as [Hl|Hl].
    - rewrite decide_True by (by apply Hiff). done.
    - rewrite decide_False by (by rewrite Hiff). by rewrite decide_True. }
  assert (Hreach : ∀ v, reachable g s v →
            ∃ n, shortest g s v n ∧ logged (visit st) v ∧ f v = Z.of_nat n).
  { intros v [m Hw]. destruct (Hupper v m Hw) as (d & Hd & _).
    assert (Hl : logged (visit st) v) by (by eapply dist_of_logged).
    destruct (Hsound v Hl) as (n & Hn & Hwn). exists n. split_and!; [|done|].
    - split; [done|]. intros m' Hw'. destruct (Hupper v m' Hw') as (d' & Hd' & Hle).
      rewrite Hn in Hd'. injection Hd' as <-. lia.
    - unfold f. by rewrite Hn. }
  exists ret. split_and!.
  - unfold distances.
    rewrite (proj2 (py_in_true s (verteces g)) Hs). simpl. rewrite Hrun. done.
  - by rewrite Hk, Hk0.
  - intros v Hr. destruct (Hreach v Hr) as (n & Hsh & Hl & _). by apply D0.
  - intros v Hv. rewrite Hlookup by done.
    destruct (decide (logged (visit st) v)) as [Hl|Hl].
    + right. destruct (Hsound v Hl) as (d & _ & Hw).
      destruct (Hreach v (ex_intro _ d Hw)) as (n & Hn & _ & Hf).
      exists n. by rewrite Hf.
    + left. split; [done|]. intros Hr. by destruct (Hreach v Hr) as (_ & _ & ? & _).
Qed.





End DistancesMore.

(** ** The factories [list_graph] and [star_graph] *)

Section BuildFacts.
Context {V : Type} {EqV : EqDecision V} {NoneV : PyNone V}.
Implicit Types (g : @DiGraph V) (u v w : V) (l vs ws : list V) (d : dict V (list V)).

Lemma dict_set_set {A} (k : V) (a b : A) (d0 : dict V A) :
  dict_set k a (dict_set k b d0) = dict_set k a d0.
Proof.
  induction d0 as [|[k' a'] d0 IH]; simpl.
  - by rewrite decide_True.
  - destruct (decide (k = k')) as [->|Hne]; simpl.
    + by rewrite decide_True.
    + rewrite decide_False by done. by rewrite IH.
Qed.

Lemma dict_get_fmap {A} (f : V → A) vs (k : V) :
  dict_get k ((λ v, (v, f v)) <$> vs) = if decide (k ∈ vs) then Some (f k) else None.
Proof.
  induction vs as [|v vs IH]; csimpl.
  - destruct (decide (k ∈ [])) as [Hin|_]; [by apply elem_of_nil in Hin|done].
  - destruct (decide (k = v)) as [->|Hne].
    + by rewrite decide_True by left.
    + rewrite IH. destruct (decide (k ∈ vs)).
      * by rewrite decide_True by (by right).
      * rewrite decide_False; [done|]. by intros [?|?]%elem_of_cons.
Qed.

Lemma dict_keys_fmap {A} (f : V → A) vs : dict_keys ((λ v, (v, f v)) <$> vs) = vs.
Proof. unfold dict_keys. rewrite <- list_fmap_compose. apply list_fmap_id. Qed.

(** Registering new, pairwise different vertices appends them, in order,
    with empty adjacency lists. *)
Lemma add_vertices_exact vs d :
  NoDup (dict_keys d ++ vs) →
  for_each vs add_vertex {| _edges := d |}
  = (Ok tt, {| _edges := d ++ ((λ v, (v, [])) <$> vs) |}).
Proof.
  revert d. induction vs as [|v vs IH]; intros d Hnd; csimpl.
  - by rewrite app_nil_r.
  - assert (Hv : v ∉ dict_keys d).
    { apply NoDup_app in Hnd as (_ & Hdisj & _). intros Hin. apply (Hdisj v Hin). left. }
    unfold bind, add_vertex at 1. simpl.
    rewrite (proj2 (dict_mem_false v d) Hv), dict_set_absent by done.
    rewrite IH.
    + by rewrite <- app_assoc.
    + unfold dict_keys in *. rewrite fmap_app. csimpl. by rewrite <- app_assoc.
Qed.

(** Adding edges from one source to new, pairwise different registered
    targets appends them, in order, to its adjacency list. *)
Lemma add_edges_from u ws g l0 :
  dict_get u (_edges g) = Some l0 → NoDup (l0 ++ ws) →
  (∀ w, w ∈ ws → w ∈ verteces g) →
  for_each ws (λ w, add_edge u w) g
  = (Ok tt, {| _edges := dict_set u (l0 ++ ws) (_edges g) |}).
Proof.
  revert g l0. induction ws as [|w ws IH]; intros g l0 Hl0 Hnd Hreg; simpl.
  - rewrite app_nil_r, dict_set_same by done. by destruct g.
  - assert (Hw : w ∉ l0).
    { apply NoDup_app in Hnd as (_ & Hdisj & _). intros Hin. apply (Hdisj w Hin). left. }
    unfold bind. rewrite (add_edge_unfold g u w l0) by (done || apply Hreg; left).
    rewrite (proj2 (py_in_false w l0) Hw).
    rewrite (IH _ (l0 ++ [w])); simpl.
    + by rewrite dict_set_set, <- app_assoc.
    + rewrite dict_get_set. by rewrite decide_True.
    + by rewrite <- app_assoc.
    + intros w' Hw'. unfold verteces; simpl. rewrite dict_keys_set_mem.
      * apply Hreg. by right.
      * by eapply dict_get_Some_key.
Qed.

(** One new edge from each of several different sources without edges. *)
Lemma add_edge_each (f : V → V) ks g :
  NoDup ks →
  (∀ k, k ∈ ks → dict_get k (_edges g) = Some [] ∧ f k ∈ verteces g) →
  ∃ g', for_each ks (λ k, add_edge k (f k)) g = (Ok tt, g') ∧
    verteces g' = verteces g ∧
    ∀ u, dict_get u (_edges g') =
         if decide (u ∈ ks) then Some [f u] else dict_get u (_edges g).
Proof.
  revert g. induction ks as [|k ks IH]; intros g Hnd Hks; simpl.
  - exists g. by split_and!.
  - apply NoDup_cons in Hnd as [Hk Hnd].
    destruct (Hks k) as [Hgk Hfk]; [left|].
    unfold bind. rewrite (add_edge_unfold g k (f k) []) by done.
    rewrite (proj2 (py_in_false (f k) []) (not_elem_of_nil _)). simpl.
    set (g1 := {| _edges := dict_set k [f k] (_edges g) |}).
    assert (Hk1 : verteces g1 = verteces g).
    { unfold verteces; simpl. apply dict_keys_set_mem. by eapply dict_get_Some_key. }
    destruct (IH g1 Hnd) as (g' & Hrun & Hkeys & Hget).
    { intros k' Hk'. destruct (Hks k') as [? ?]; [by right|]. rewrite Hk1. split; [|done].
      simpl. rewrite dict_get_set. rewrite decide_False; [done|]. by intros ->. }
    exists g'. split_and!; [done|congruence|].
    intros u. rewrite Hget. simpl. rewrite dict_get_set.
    destruct (decide (u ∈ ks)) as [Hin|Hnin].
    + by rewrite decide_True by (by right).
    + destruct (decide (u = k)) as [->|Hne].
      * by rewrite decide_True by left.
      * rewrite decide_False; [done|]. by intros [?|?]%elem_of_cons.
Qed.
End BuildFacts.

Section Factories.
Implicit Types (g : @DiGraph Z) (n k a b s v : Z).

(** A graph over the integers has no vertex [None]. *)
Lemma none_free_Z g : none_free g.
Proof. by intros v _. Qed.

Lemma elem_of_py_range a b x : x ∈ py_range a b ↔ a ≤ x < b.
Proof.
  unfold py_range. rewrite list_elem_of_fmap. setoid_rewrite elem_of_seq. split.
  - intros (i & -> & Hi). lia.
  - intros Hx. exists (Z.to_nat (x - a)). lia.
Qed.

Lemma py_range_NoDup a b : NoDup (py_range a b).
Proof.
  unfold py_range. apply NoDup_fmap_2; [|apply NoDup_seq]. intros i j. lia.
Qed.

Lemma py_range_length a b : length (py_range a b) = Z.to_nat (b - a).
Proof. unfold py_range. by rewrite length_fmap, length_seq. Qed.

Lemma built_ok c g :
  c DiGraph_init = (Ok tt, g) → built c = Ok g.
Proof. unfold built. by intros ->. Qed.

Lemma list_graph_run n :
  0 < n →
  ∃ g, list_graph n = Ok g ∧
    verteces g = py_range 1 (n + 1) ∧
    (∀ k, dict_get k (_edges g) =
          if decide (1 ≤ k ≤ n) then Some (if k <? n then [k + 1] else []) else None).
Proof.
  intros Hn. unfold list_graph.
  rewrite (proj2 (Z.eqb_neq n 0)), (proj2 (Z.ltb_ge n 0)) by lia.
  set (g0 := {| _edges := (λ v : Z, (v, @nil Z)) <$> py_range 1 (n + 1) |}).
  assert (H0 : for_each (py_range 1 (n + 1)) add_vertex DiGraph_init = (Ok tt, g0)).
  { unfold DiGraph_init. rewrite add_vertices_exact; [done|]. apply py_range_NoDup. }
  assert (Hk0 : verteces g0 = py_range 1 (n + 1)).
  { unfold verteces, g0; simpl. apply dict_keys_fmap. }
  assert (Hg0 : ∀ k, dict_get k (_edges g0) = if decide (1 ≤ k ≤ n) then Some [] else None).
  { intros k. unfold g0; simpl. rewrite dict_get_fmap.
    destruct (decide (k ∈ py_range 1 (n + 1))) as [Hk|Hk]; rewrite elem_of_py_range in Hk.
    - by rewrite decide_True by lia.
    - by rewrite decide_False by lia. }
  destruct (add_edge_each (λ k, k + 1) (py_range 1 n) g0 (py_range_NoDup _ _))
    as (g & Hrun & Hkeys & Hget).
  { intros k Hk%elem_of_py_range. rewrite Hg0, Hk0, elem_of_py_range.
    rewrite decide_True by lia. split; [done|lia]. }
  exists g. split_and!.
  - apply built_ok. by rewrite (bind_Ok _ _ _ _ _ H0).
  - congruence.
  - intros k. rewrite Hget, Hg0.
    destruct (decide (k ∈ py_range 1 n)) as [Hk|Hk]; rewrite elem_of_py_range in Hk.
    + rewrite decide_True by lia. by rewrite (proj2 (Z.ltb_lt k n)) by lia.
    + destruct (decide (1 ≤ k ≤ n)); [|done].
      by rewrite (proj2 (Z.ltb_ge k n)) by lia.
Qed.

Lemma list_graph_edge n g :
  (∀ k, dict_get k (_edges g) =
        if decide (1 ≤ k ≤ n) then Some (if k <? n then [k + 1] else []) else None) →
  ∀ a b, edge g a b ↔ 1 ≤ a < n ∧ b = a + 1.
Proof.
  intros Hget a b. unfold edge. rewrite Hget. split.
  - intros (l & Hl & Hb). destruct (decide (1 ≤ a ≤ n)); [|done]. injection Hl as <-.
    destruct (a <? n) eqn:Hlt; [|by apply elem_of_nil in Hb].
    apply Z.ltb_lt in Hlt. apply list_elem_of_singleton in Hb. lia.
  - intros [Ha ->]. exists [a + 1]. rewrite decide_True by lia.
    rewrite (proj2 (Z.ltb_lt a n)) by lia. split; [done|]. by apply list_elem_of_singleton.
Qed.

Lemma wf_graph_from_get g (keys : list Z) (adjs : Z → list Z) :
  verteces g = keys → NoDup keys →
  (∀ k, dict_get k (_edges g) = if decide (k ∈ keys) then Some (adjs k) else None) →
  (∀ k, k ∈ keys → NoDup (adjs k) ∧ ∀ w, w ∈ adjs k → w ∈ keys) →
  wf_graph g.
Proof.
  intros Hk Hnd Hget Hadj. split; [by rewrite Hk|].
  intros v l. rewrite Hget. destruct (decide (v ∈ keys)); [|done]. intros [= <-].
  rewrite Hk. by apply Hadj.
Qed.

Lemma list_graph_facts n :
  0 < n →
  ∃ g, list_graph n = Ok g ∧
    verteces g = py_range 1 (n + 1) ∧
    (∀ k, dict_get k (_edges g) =
          if decide (1 ≤ k ≤ n) then Some (if k <? n then [k + 1] else []) else None) ∧
    (∀ a b, edge g a b ↔ 1 ≤ a < n ∧ b = a + 1) ∧
    (∀ a b m, walk g a b m → b = a + Z.of_nat m) ∧
    wf_graph g.
Proof.
  intros Hn. destruct (list_graph_run n Hn) as (g & Hrun & Hk & Hget).
  pose proof (list_graph_edge n g Hget) as He.
  exists g. split_and!; try done.
  - intros a b m Hw. induction Hw as [|u b m Hw IH Hub]; [lia|].
    apply He in Hub. lia.
  - apply (wf_graph_from_get g (py_range 1 (n + 1))
             (λ k, if k <? n then [k + 1] else [])); [done|apply py_range_NoDup| |].
    + intros k. rewrite Hget.
      destruct (decide (k ∈ py_range 1 (n + 1))) as [Hk'|Hk'];
        rewrite elem_of_py_range in Hk'.
      * by rewrite decide_True by lia.
      * by rewrite decide_False by lia.
    + intros k Hk'%elem_of_py_range. destruct (k <? n) eqn:Hlt.
      * apply Z.ltb_lt in Hlt. split; [apply NoDup_singleton|].
        intros w ->%list_elem_of_singleton. apply elem_of_py_range. lia.
      * split; [apply NoDup_nil_2|]. by intros w ?%elem_of_nil.
Qed.

(** X17: [list_graph n] raises for a negative [n], returns the empty
    graph for 0, and otherwise the graph whose vertices are 1, ..., n, in
    this order, in which each vertex below [n] has the next integer as its
    only neighbour and [n] has none: the path 1 -> 2 -> ... -> n, a
    well-formed graph without cycle. *)
Theorem list_graph_spec n :
  (n < 0 → list_graph n = Raise (FoundNegativeN n)) ∧
  (n = 0 → list_graph n = Ok DiGraph_init) ∧
  (0 < n →
     ∃ g, list_graph n = Ok g ∧
       verteces g = py_range 1 (n + 1) ∧
       (∀ k, 1 ≤ k ≤ n → adj g k = Ok (if k <? n then [k + 1] else [])) ∧
       (∀ a b, edge g a b ↔ 1 ≤ a < n ∧ b = a + 1) ∧
       (∀ a b m, walk g a b m → b = a + Z.of_nat m) ∧
       acyclic g ∧ wf_graph g).
Proof.
  split_and!.
  - intros Hn. unfold list_graph.
    by rewrite (proj2 (Z.eqb_neq n 0)), (proj2 (Z.ltb_lt n 0)) by lia.
  - by intros ->.
  - intros Hn. destruct (list_graph_facts n Hn) as (g & Hrun & Hk & Hget & He & Hwalk & Hwf).
    exists g. split_and!; try done.
    + intros k Hk'. unfold adj. rewrite Hget. by rewrite decide_True.
    + intros v m Hw%Hwalk. lia.
Qed.

Lemma star_graph_run n :
  0 < n →
  ∃ g, star_graph n = Ok g ∧
    verteces g = py_range 1 (n + 1) ∧
    (∀ k, dict_get k (_edges g) =
          if decide (1 ≤ k ≤ n)
          then Some (if decide (k = 1) then py_range 2 (n + 1) else []) else None).
Proof.
  intros Hn. unfold star_graph.
  rewrite (proj2 (Z.eqb_neq n 0)), (proj2 (Z.ltb_ge n 0)) by lia.
  set (g0 := {| _edges := (λ v : Z, (v, @nil Z)) <$> py_range 1 (n + 1) |}).
  assert (H0 : for_each (py_range 1 (n + 1)) add_vertex DiGraph_init = (Ok tt, g0)).
  { unfold DiGraph_init. rewrite add_vertices_exact; [done|]. apply py_range_NoDup. }
  assert (Hk0 : verteces g0 = py_range 1 (n + 1)).
  { unfold verteces, g0; simpl. apply dict_keys_fmap. }
  assert (Hg0 : ∀ k, dict_get k (_edges g0) = if decide (1 ≤ k ≤ n) then Some [] else None).
  { intros k. unfold g0; simpl. rewrite dict_get_fmap.
    destruct (decide (k ∈ py_range 1 (n + 1))) as [Hk|Hk]; rewrite elem_of_py_range in Hk.
    - by rewrite decide_True by lia.
    - by rewrite decide_False by lia. }
  pose proof (add_edges_from 1 (py_range 2 (n + 1)) g0 []) as Hrun.
  rewrite Hg0, decide_True in Hrun by lia. specialize (Hrun eq_refl (py_range_NoDup _ _)).
  assert (Hreg : ∀ w, w ∈ py_range 2 (n + 1) → w ∈ verteces g0).
  { intros w Hw%elem_of_py_range. rewrite Hk0. apply elem_of_py_range. lia. }
  specialize (Hrun Hreg). simpl in Hrun.
  eexists. split_and!.
  - apply built_ok. by rewrite (bind_Ok _ _ _ _ _ H0), Hrun.
  - unfold verteces; simpl. rewrite dict_keys_set_mem; [apply Hk0|].
    change (1 ∈ verteces g0). rewrite Hk0. apply elem_of_py_range. lia.
  - intros k. simpl. rewrite dict_get_set, Hg0.
    destruct (decide (k = 1)) as [->|Hne]; [by rewrite decide_True by lia|done].
Qed.

(** X18: [star_graph n] raises for a negative [n], returns the empty
    graph for 0, and otherwise the graph whose vertices are 1, ..., n, in
    this order, in which vertex 1 has the neighbours 2, ..., n, in this
    order, and no other vertex has a neighbour; no path has more than one
    edge. *)
Theorem star_graph_spec n :
  (n < 0 → star_graph n = Raise (FoundNegativeN n)) ∧
  (n = 0 → star_graph n = Ok DiGraph_init) ∧
  (0 < n →
     ∃ g, star_graph n = Ok g ∧
       verteces g = py_range 1 (n + 1) ∧
       adj g 1 = Ok (py_range 2 (n + 1)) ∧
       (∀ k, 2 ≤ k ≤ n → adj g k = Ok []) ∧
       (∀ a b, edge g a b ↔ a = 1 ∧ 2 ≤ b ≤ n) ∧
       (∀ a b m, walk g a b m → (m ≤ 1)%nat) ∧
       acyclic g ∧ wf_graph g).
Proof.
  split_and!.
  - intros Hn. unfold star_graph.
    by rewrite (proj2 (Z.eqb_neq n 0)), (proj2 (Z.ltb_lt n 0)) by lia.
  - by intros ->.
  - intros Hn. destruct (star_graph_run n Hn) as (g & Hrun & Hk & Hget).
    assert (He : ∀ a b, edge g a b ↔ a = 1 ∧ 2 ≤ b ≤ n).
    { intros a b. unfold edge. rewrite Hget. split.
      - intros (l & Hl & Hb). destruct (decide (1 ≤ a ≤ n)); [|done]. injection Hl as <-.
        destruct (decide (a = 1)); [|by apply elem_of_nil in Hb].
        apply elem_of_py_range in Hb. lia.
      - intros [-> Hb]. eexists. rewrite decide_True by lia. split; [done|].
        rewrite decide_True by done. apply elem_of_py_range. lia. }
    assert (Hwalk : ∀ a b m, walk g a b m → (m ≤ 1)%nat ∧ (m = 1%nat → 2 ≤ b)).
    { intros a b m Hw. induction Hw as [|u b m Hw IH Hub]; [split; [lia|done]|].
      apply He in Hub as [-> Hb]. destruct IH as [Hm Hu].
      destruct m as [|m]; [split; [lia|intros _; lia]|].
      assert (m = 0%nat) as -> by lia. specialize (Hu eq_refl). lia. }
    exists g. split_and!; try done.
    + unfold adj. rewrite Hget. rewrite decide_True by lia. by rewrite decide_True.
    + intros k Hk'. unfold adj. rewrite Hget. rewrite decide_True by lia.
      by rewrite decide_False by lia.
    + intros a b m Hw. by apply (Hwalk a b m).
    + intros v m Hw. destruct (Hwalk v v m Hw) as [Hm Hv].
      destruct m as [|m]; [done|]. assert (m = 0%nat) as -> by lia.
      inversion Hw as [|u v' m' Hw' Hub]; subst. inversion Hw'; subst.
      apply He in Hub. lia.
    + apply (wf_graph_from_get g (py_range 1 (n + 1))
               (λ k, if decide (k = 1) then py_range 2 (n + 1) else []));
        [done|apply py_range_NoDup| |].
      * intros k. rewrite Hget.
        destruct (decide (k ∈ py_range 1 (n + 1))) as [Hk'|Hk'];
          rewrite elem_of_py_range in Hk'.
        -- by rewrite decide_True by lia.
        -- by rewrite decide_False by lia.
      * intros k Hk'%elem_of_py_range. destruct (decide (k = 1)).
        -- split; [apply py_range_NoDup|].
           intros w Hw%elem_of_py_range. apply elem_of_py_range. lia.
        -- split; [apply NoDup_nil_2|]. by intros w ?%elem_of_nil.
Qed.

Lemma sum_list_bound {A} (f : A → nat) (c : nat) (l : list A) :
  (∀ x, x ∈ l → (f x ≤ c)%nat) → (sum_list (f <$> l) ≤ c * length l)%nat.
Proof.
  induction l as [|x l IH]; intros Hall; csimpl; [lia|].
  pose proof (Hall x ltac:(left)). specialize (IH ltac:(intros y Hy; apply Hall; by right)).
  lia.
Qed.

(** X19: in the graph [list_graph n], [distances] from a vertex [s]
    (with fuel above twice [n] plus one) gives every vertex [v] from [s] on
    the distance [v - s], and -1 to the vertices before [s]; the keys of
    the dictionary are 1, ..., n, in this order. *)
Theorem list_graph_distances n s fuel :
  1 ≤ s ≤ n → (2 * Z.to_nat n + 1 < fuel)%nat →
  ∃ g ret, list_graph n = Ok g ∧ distances fuel g s = Ok ret ∧
    dict_keys ret = py_range 1 (n + 1) ∧
    ∀ v, 1 ≤ v ≤ n → dict_get v ret = Some (if v <? s then -1 else v - s).
Proof.
  intros Hs Hfuel.
  destruct (list_graph_facts n) as (g & Hrun & Hk & Hget & He & Hwalk & Hwf); [lia|].
  assert (Hsg : s ∈ verteces g) by (rewrite Hk; apply elem_of_py_range; lia).
  assert (Hpot : (bfs_potential g Visit_init [s] < fuel)%nat).
  { unfold bfs_potential, undiscovered. simpl.
    pose proof (sum_list_bound (λ v, S (out_degree g v)) 2
                  (filter (λ v, dtime (@Visit_init Z) v = -1) (verteces g))) as Hb.
    pose proof (length_filter (λ v, dtime (@Visit_init Z) v = -1) (verteces g)) as Hlen.
    assert (Hn : length (verteces g) = Z.to_nat n).
    { rewrite Hk, py_range_length. lia. }
    assert (Hdeg : ∀ x, (S (out_degree g x) ≤ 2)%nat).
    { intros x. unfold out_degree. rewrite Hget. destruct (decide _); [|simpl; lia].
      destruct (x <? n); simpl; lia. }
    specialize (Hb ltac:(intros x _; apply Hdeg)). lia. }
  destruct (distances_result fuel g s Hwf (none_free_Z g) Hsg Hpot)
    as (ret & Hd & Hkeys & Hreg & Hcase).
  assert (Hup : ∀ m : nat, s + Z.of_nat m ≤ n → walk g s (s + Z.of_nat m) m).
  { induction m as [|m IH]; intros Hm.
    - replace (s + Z.of_nat 0) with s by lia. constructor.
    - apply (walk_step g s (s + Z.of_nat m)); [apply IH; lia|]. apply He. lia. }
  exists g, ret. split_and!; [done|done|congruence|].
  intros v Hv. assert (Hvg : v ∈ verteces g) by (rewrite Hk; apply elem_of_py_range; lia).
  destruct (Hcase v Hvg) as [[Hm Hnr]|(m & Hm & [Hw _])].
  - rewrite Hm. destruct (v <? s) eqn:Hlt; [done|]. apply Z.ltb_ge in Hlt.
    destruct Hnr. exists (Z.to_nat (v - s)).
    replace v with (s + Z.of_nat (Z.to_nat (v - s))) at 1 by lia. apply Hup. lia.
  - rewrite Hm. apply Hwalk in Hw. rewrite (proj2 (Z.ltb_ge v s)) by lia. f_equal. lia.
Qed.
End Factories.

(** ** The tree of shortest paths of [bfs] *)

Section DistancesTree.
Context {V : Type} {EqV : EqDecision V} {NoneV : PyNone V}.
Implicit Types (g : @DiGraph V) (vis : @Visit V) (u v w x n s : V) (st : @tstate V)
  (q queue pre : list V) (k : Z).





End DistancesTree.

Section BfsSimulation.
Context {V : Type} {EqV : EqDecision V} {NoneV : PyNone V}.
Implicit Types (g : @DiGraph V) (vis : @Visit V) (u v w x n s : V)
  (st stb std : @tstate V) (q queue : list V).









End BfsSimulation.

Section BfsTree.
Context {V : Type} {EqV : EqDecision V} {NoneV : PyNone V}.
Implicit Types (g : @DiGraph V) (u v p s : V) (st : @tstate V).

End BfsTree.

(** * Concrete instances *)

Lemma g_ex_wf : wf_graph g_ex.
Proof. apply wf_graphb_spec. reflexivity. Qed.


(** The traversals evaluated on [g_ex] from vertex 1. *)

Example dfs_g_ex :
  let vis := visit (dfs 10 g_ex 1%nat None).2 in
  (dfs 10 g_ex 1%nat None).1 = Ok tt ∧
  map (λ v, (v, dtime vis v, ftime vis v, parent_of vis v)) (Visit_verteces vis) =
    [(1%nat, 1, 8, None); (2%nat, 2, 5, Some 1%nat);
     (4%nat, 3, 4, Some 2%nat); (3%nat, 6, 7, Some 1%nat)].
Proof. by split. Qed.

Example bfs_g_ex :
  let vis := visit (bfs 20 g_ex 1%nat).2 in
  (bfs 20 g_ex 1%nat).1 = Ok tt ∧
  map (λ v, (v, dtime vis v, ftime vis v, parent_of vis v)) (Visit_verteces vis) =
    [(1%nat, 1, -1, None); (2%nat, 2, -1, Some 1%nat);
     (3%nat, 3, -1, Some 1%nat); (4%nat, 4, -1, Some 2%nat)].
Proof. by split. Qed.

Example distances_g_ex :
  distances 20 g_ex 1%nat =
  Ok [(1%nat, 0); (2%nat, 1); (3%nat, 1); (4%nat, 2); (5%nat, -1)].
Proof. reflexivity. Qed.

Example reverse_g_ex :
  reverse g_ex =
  (Ok tt, {| _edges := [(1, [3; 5]); (2, [1]); (3, [1]); (4, [2; 3]); (5, [5])]%nat |}).
Proof. reflexivity. Qed.

(** Both traversals refuse the empty graph. *)
Example traversals_empty_graph :
  dfs 1 DiGraph_init 1%nat None = (Raise CannotDFSEmpty, tstate_init) ∧
  bfs 1 DiGraph_init 1%nat = (Raise CannotBFSEmpty, tstate_init) ∧
  is_EmptyGraphError (@CannotDFSEmpty nat) = true ∧
  is_EmptyGraphError (@CannotBFSEmpty nat) = true.
Proof. by split_and!. Qed.

(** ** The theorems applied to [g_ex] *)


Lemma dfs_parenthesis_witness :
  wf_graph g_ex ∧ 1%nat ∈ verteces g_ex ∧ (length (verteces g_ex) < 10)%nat ∧
  ∃ st, dfs 10 g_ex 1%nat None = (Ok tt, st) ∧
    dtime (visit st) 1%nat = 1 ∧
    (∀ v, dtime (visit st) v ≠ -1 →
       0 < dtime (visit st) v ∧ dtime (visit st) v < ftime (visit st) v) ∧
    (∀ v d, descendant (visit st) v d →
       dtime (visit st) v < dtime (visit st) d ∧
       dtime (visit st) d < ftime (visit st) d ∧
       ftime (visit st) d < ftime (visit st) v).
Proof.
  assert (H1 : 1%nat ∈ verteces g_ex) by (apply (bool_decide_unpack _); exact I).
  assert (H2 : (length (verteces g_ex) < 10)%nat) by (apply Nat.ltb_lt; reflexivity).
  split_and!; [exact g_ex_wf|exact H1|exact H2|].
  exact (dfs_parenthesis 10 g_ex 1%nat g_ex_wf H1 H2).
Defined.

Lemma traversal_clock_witness :
  let run := dfs 10 g_ex 1%nat None in
  (dfs 10 g_ex 1%nat None = (run.1, run.2) ∨ bfs 10 g_ex 1%nat = (run.1, run.2)) ∧
  visit run.2 = replay (trace run.2) Visit_init ∧
  last_time (@Visit_init nat) = 0 ∧
  (∀ tr1 e tr2 t, trace run.2 = tr1 ++ e :: tr2 → event_time e = Some t →
     t = last_time (replay tr1 Visit_init) + 1) ∧
  (∀ tr1 tr2, trace run.2 = tr1 ++ tr2 →
     last_time (replay tr1 Visit_init) = spec_last_time (replay tr1 Visit_init)) ∧
  (∀ i t, timestamps (trace run.2) !! i = Some t → t = Z.of_nat i + 1) ∧
  StronglySorted Z.lt (discovery_times (trace run.2)) ∧
  (∀ t, head (discovery_times (trace run.2)) = Some t → t = 1).
Proof.
  intros run.
  assert (H1 : dfs 10 g_ex 1%nat None = (run.1, run.2) ∨
               bfs 10 g_ex 1%nat = (run.1, run.2)) by (left; apply surjective_pairing).
  split; [exact H1|].
  exact (traversal_clock 10 g_ex 1%nat run.1 run.2 H1).
Defined.

Lemma remove_vertex_spec_witness :
  wf_graph g_ex ∧
  (∀ l, dict_get 5%nat (_edges g_ex) = Some l →
     ∃ g', remove_vertex 5%nat g_ex = (Ok (py_remove 5%nat l), g') ∧
       (∀ u, u ∈ verteces g' ↔ u ∈ verteces g_ex ∧ u ≠ 5%nat) ∧
       (∀ u lu, u ≠ 5%nat → dict_get u (_edges g_ex) = Some lu →
          dict_get u (_edges g') = Some (filter (λ w, w ≠ 5%nat) lu)) ∧
       (5%nat ∉ l → py_remove 5%nat l = l) ∧
       wf_graph g') ∧
  (5%nat ∉ verteces g_ex →
     remove_vertex 5%nat g_ex = (Raise (CouldntFindVertex 5%nat), g_ex) ∧
     is_NotFoundError (CouldntFindVertex 5%nat) = true).
Proof.
  split; [exact g_ex_wf|]. exact (remove_vertex_spec g_ex 5%nat g_ex_wf).
Defined.

(** C4 as stated fails: vertex 5 has the adjacency sequence [[5, 1]] when
    [remove_vertex(5)] is called, and the call returns [[1]]. *)
Lemma remove_vertex_self_loop_counterexample :
  wf_graph g_ex ∧ adj g_ex 5%nat = Ok [5; 1]%nat ∧
  (remove_vertex 5%nat g_ex).1 = Ok [1%nat] ∧
  (remove_vertex 5%nat g_ex).1 ≠ Ok [5; 1]%nat.
Proof. split_and!; [exact g_ex_wf|reflexivity|reflexivity|discriminate]. Qed.

Lemma add_edge_twice_once_witness :
  wf_graph g_ex ∧ 2%nat ∈ verteces g_ex ∧ 3%nat ∈ verteces g_ex ∧
  ∃ g1 l,
    add_edge 2%nat 3%nat g_ex = (Ok tt, g1) ∧
    add_edge 2%nat 3%nat g1 = (Ok tt, g1) ∧
    adj g1 2%nat = Ok l ∧ occurrences 3%nat l = 1%nat ∧
    wf_graph g1.
Proof.
  assert (H1 : 2%nat ∈ verteces g_ex) by (apply (bool_decide_unpack _); exact I).
  assert (H2 : 3%nat ∈ verteces g_ex) by (apply (bool_decide_unpack _); exact I).
  split_and!; [exact g_ex_wf|exact H1|exact H2|].
  exact (add_edge_twice_once g_ex 2%nat 3%nat g_ex_wf H1 H2).
Defined.

Lemma reverse_involution_witness :
  wf_graph g_ex ∧
  ∃ g1 g2,
    reverse g_ex = (Ok tt, g1) ∧ reverse g1 = (Ok tt, g2) ∧
    (∀ v, v ∈ verteces g1 ↔ v ∈ verteces g_ex) ∧
    (∀ u w, edge g1 w u ↔ edge g_ex u w) ∧
    DiGraph_eq g2 g_ex = Ok true.
Proof. split; [exact g_ex_wf|]. exact (reverse_involution g_ex g_ex_wf). Defined.


(** C1 fails on a graph that has [None] as a vertex.  The graph
    [{None: [1, 2], 1: [2], 2: []}] is built by [add_vertex] and
    [add_edge]; vertex 2 is one edge away from [None], and
    [distances(None)] gives it 2: the parent [None] stored for 2 reads as
    unset, so the edge from 1 writes the parent and the distance again. *)
Theorem distances_None_vertex_not_minimal :
  (for_each [None; Some 1; Some 2]%nat add_vertex >>
   add_edges [(None, Some 1); (None, Some 2); (Some 1, Some 2)]%nat) DiGraph_init
    = (Ok tt, g_None) ∧
  wf_graph g_None ∧
  distances 20 g_None None = Ok [(None, 0); (Some 1%nat, 1); (Some 2%nat, 2)] ∧
  shortest g_None None (Some 2%nat) 1.
Proof.
  split_and!; [reflexivity|apply wf_graphb_spec; reflexivity|reflexivity|].
  split.
  - apply (walk_step _ _ None); [constructor|].
    exists [Some 1; Some 2]%nat. split; [reflexivity|].
    apply (bool_decide_unpack _). exact I.
  - intros m Hm. destruct m; [inversion Hm|lia].
Qed.

(** C8 fails on the same graph: [bfs(None)] writes the parent of vertex 2
    twice, first [None] when [None] is discovered, which leaves the field
    reading unset, then 1 when 1 is discovered. *)
Theorem bfs_None_vertex_parent_rewritten :
  let st := (bfs 20 g_None None).2 in
  (bfs 20 g_None None).1 = Ok tt ∧
  trace st =
    [NewLog None; SetDiscovery None 1;
     NewLog (Some 1%nat); SetParent (Some 1%nat) None;
     NewLog (Some 2%nat); SetParent (Some 2%nat) None;
     SetDiscovery (Some 1%nat) 2; SetParent (Some 2%nat) (Some 1%nat);
     SetDiscovery (Some 2%nat) 3] ∧
  parent_writes (trace st) = [Some 1; Some 2; Some 2]%nat ∧
  ¬ NoDup (parent_writes (trace st)) ∧
  parent_of (visit st) (Some 1%nat) = None ∧
  parent_of (visit st) (Some 2%nat) = Some (Some 1%nat).
Proof.
  split_and!; try reflexivity.
  intros Hnd. apply NoDup_cons in Hnd as [_ Hnd]. apply NoDup_cons in Hnd as [Hin _].
  apply Hin. left.
Qed.

(** With [None] as a vertex a parent of [bfs] need not be discovered
    first: in [{None: [2, 1], 2: [], 1: [2]}] vertex 2 is discovered second
    and ends with the parent 1, discovered third. *)
Example bfs_None_vertex_parent_order :
  let g := {| _edges := [(None, [Some 2; Some 1]); (Some 2, []);
                         (Some 1, [Some 2])]%nat |} in
  let vis := visit (bfs 20 g None).2 in
  (bfs 20 g None).1 = Ok tt ∧
  map (λ v, (v, dtime vis v, parent_of vis v)) (Visit_verteces vis) =
    [(None, 1, None); (Some 2%nat, 2, Some (Some 1%nat)); (Some 1%nat, 3, None)].
Proof. by split. Qed.

(** C9 fails on a list that repeats a vertex: [dag([1, 1])] is the graph
    [{1: [1]}], which has a self-loop. *)
Theorem dag_repeated_vertex_self_loop :
  dag [1; 1]%nat = (Ok tt, {| _edges := [(1%nat, [1%nat])] |}) ∧
  has_self_loops {| _edges := [(1%nat, [1%nat])] |} = Ok true ∧
  has_edge {| _edges := [(1%nat, [1%nat])] |} 1%nat 1%nat = Ok true.
Proof. by split_and!. Qed.

Lemma dfs_unregistered_source_mutates_witness :
  is_empty g_ex = false ∧ (7%nat ∉ verteces g_ex) ∧
  ∃ st',
    dfs 1 g_ex 7%nat (Some tstate_init) = (Raise (CouldntFindAVertex 7%nat), st') ∧
    is_NotFoundError (CouldntFindAVertex 7%nat) = true ∧
    logged (visit st') 7%nat ∧
    dtime (visit st') 7%nat = last_time (visit (@tstate_init nat)) + 1 ∧
    visit st' ≠ visit (@tstate_init nat).
Proof.
  assert (H1 : is_empty g_ex = false) by reflexivity.
  assert (H2 : 7%nat ∉ verteces g_ex) by (apply (bool_decide_unpack _); exact I).
  split_and!; [exact H1|exact H2|].
  exact (dfs_unregistered_source_mutates 0 g_ex 7%nat tstate_init H1 H2).
Defined.

(** ** More instances *)

Lemma g_acyclic_wf : wf_graph g_acyclic.
Proof. apply wf_graphb_spec. reflexivity. Qed.

Lemma g_acyclic_acyclic : acyclic g_acyclic.
Proof. apply (ranked_acyclic id). reflexivity. Qed.

Lemma g_ex_reachable_4 : reachable g_ex 1%nat 4%nat.
Proof.
  exists 2%nat. apply (walk_step _ _ 2%nat); [apply (walk_step _ _ 1%nat); [constructor|]|].
  - exists [2; 3]%nat. split; [reflexivity|]. apply (bool_decide_unpack _). exact I.
  - exists [4]%nat. split; [reflexivity|]. apply (bool_decide_unpack _). exact I.
Qed.

Lemma remove_self_loops_spec_witness :
  wf_graph g_ex ∧
  ∃ g', remove_self_loops g_ex = (Ok tt, g') ∧
    verteces g' = verteces g_ex ∧
    (∀ u l, adj g_ex u = Ok l → adj g' u = Ok (filter (λ w, w ≠ u) l)) ∧
    (∀ a b, edge g' a b ↔ edge g_ex a b ∧ a ≠ b) ∧
    has_self_loops g' = Ok false ∧
    remove_self_loops g' = (Ok tt, g') ∧
    wf_graph g'.
Proof. split; [exact g_ex_wf|]. exact (remove_self_loops_spec g_ex g_ex_wf). Defined.

Lemma add_remove_vertex_round_trip_witness :
  wf_graph g_ex ∧ (7%nat ∉ verteces g_ex) ∧
  ∃ g1, add_vertex 7%nat g_ex = (Ok tt, g1) ∧
    verteces g1 = verteces g_ex ++ [7%nat] ∧ has_vertex g1 7%nat = true ∧
    adj g1 7%nat = Ok [] ∧
    (∀ u, u ≠ 7%nat → adj g1 u = adj g_ex u) ∧
    add_vertex 7%nat g1 = (Ok tt, g1) ∧
    remove_vertex 7%nat g1 = (Ok [], g_ex).
Proof.
  assert (H1 : 7%nat ∉ verteces g_ex) by (apply (bool_decide_unpack _); exact I).
  split_and!; [exact g_ex_wf|exact H1|].
  exact (add_remove_vertex_round_trip g_ex 7%nat g_ex_wf H1).
Defined.

Lemma reverse_queries_witness :
  wf_graph g_ex ∧
  ∃ g', reverse g_ex = (Ok tt, g') ∧
    (∀ u w, u ∈ verteces g_ex ∨ w ∈ verteces g_ex →
       has_edge g' u w = has_edge g_ex w u) ∧
    has_self_loops g' = has_self_loops g_ex.
Proof. split; [exact g_ex_wf|]. exact (reverse_queries g_ex g_ex_wf). Defined.

Lemma mutators_keep_wf_witness :
  let ms := [AddVertex 1; AddVertex 2; AddEdge 1 2; AddEdge 2 2; RemoveSelfLoops;
             Reverse; RemoveVertex 1; AddEdge 1 2]%nat in
  let run := for_each ms call (@DiGraph_init nat) in
  wf_graph (@DiGraph_init nat) ∧
  for_each ms call (@DiGraph_init nat) = (run.1, run.2) ∧
  wf_graph (@DiGraph_init nat) ∧ wf_graph run.2 ∧
  run.1 ≠ OutOfFuel ∧ ∀ e, run.1 = Raise e → is_NotFoundError e = true.
Proof.
  intros ms run.
  assert (H1 : for_each ms call (@DiGraph_init nat) = (run.1, run.2))
    by apply surjective_pairing.
  split_and!; [exact wf_graph_init|exact H1|..];
    apply (mutators_keep_wf ms DiGraph_init run.1 run.2 wf_graph_init H1).
Defined.

Lemma dag_acyclic_witness :
  NoDup [1; 2; 3]%nat ∧
  ∃ g, dag [1; 2; 3]%nat = (Ok tt, g) ∧
    (∀ i j a b, [1; 2; 3]%nat !! i = Some a → [1; 2; 3]%nat !! j = Some b →
       has_edge g a b = Ok (bool_decide (i < j)%nat)) ∧
    (∀ i j a b n, [1; 2; 3]%nat !! i = Some a → [1; 2; 3]%nat !! j = Some b →
       walk g a b n → (i + n ≤ j)%nat) ∧
    acyclic g ∧
    has_self_loops g = Ok false.
Proof.
  assert (H1 : NoDup [1; 2; 3]%nat) by (apply (bool_decide_unpack _); exact I).
  split; [exact H1|]. exact (dag_acyclic [1; 2; 3]%nat H1).
Defined.

Lemma dfs_discovers_reachable_witness :
  wf_graph g_ex ∧ 1%nat ∈ verteces g_ex ∧ (length (verteces g_ex) < 10)%nat ∧
  ∃ st, dfs 10 g_ex 1%nat None = (Ok tt, st) ∧
    (∀ v, is_discovered (visit st) v = true ↔ reachable g_ex 1%nat v) ∧
    (∀ v, v ∈ Visit_verteces (visit st) ↔ reachable g_ex 1%nat v) ∧
    NoDup (Visit_verteces (visit st)) ∧
    (∀ v, reachable g_ex 1%nat v → 0 < dtime (visit st) v < ftime (visit st) v) ∧
    parent_of (visit st) 1%nat = None ∧
    (∀ v, reachable g_ex 1%nat v → v ≠ 1%nat →
       ∃ p, parent_of (visit st) v = field_of p ∧ edge g_ex p v ∧
            reachable g_ex 1%nat p ∧ dtime (visit st) p < dtime (visit st) v) ∧
    (∀ u v, reachable g_ex 1%nat u → edge g_ex u v →
       0 < dtime (visit st) v < ftime (visit st) u).
Proof.
  assert (H1 : 1%nat ∈ verteces g_ex) by (apply (bool_decide_unpack _); exact I).
  assert (H2 : (length (verteces g_ex) < 10)%nat) by (apply Nat.ltb_lt; reflexivity).
  split_and!; [exact g_ex_wf|exact H1|exact H2|].
  exact (dfs_discovers_reachable 10 g_ex 1%nat g_ex_wf H1 H2).
Defined.

Lemma dfs_continues_visit_witness :
  let st1 := (dfs 10 g_ex 1%nat None).2 in
  wf_graph g_ex ∧ 1%nat ∈ verteces g_ex ∧ 5%nat ∈ verteces g_ex ∧
  (length (verteces g_ex) < 10)%nat ∧
  dfs 10 g_ex 1%nat None = (Ok tt, st1) ∧
  is_discovered (visit st1) 5%nat = false ∧
  ∃ st2, dfs 10 g_ex 5%nat (Some st1) = (Ok tt, st2) ∧
    dtime (visit st2) 5%nat = last_time (visit st1) + 1 ∧
    parent_of (visit st2) 5%nat = None ∧
    (∀ v, is_discovered (visit st1) v = true →
       dtime (visit st2) v = dtime (visit st1) v ∧
       ftime (visit st2) v = ftime (visit st1) v ∧
       parent_of (visit st2) v = parent_of (visit st1) v) ∧
    (∀ v, is_discovered (visit st1) v = false →
       is_discovered (visit st2) v = true →
       last_time (visit st1) < dtime (visit st2) v) ∧
    (∀ v, is_discovered (visit st2) v = true →
       0 < dtime (visit st2) v < ftime (visit st2) v).
Proof.
  intros st1.
  assert (H1 : 1%nat ∈ verteces g_ex) by (apply (bool_decide_unpack _); exact I).
  assert (H2 : 5%nat ∈ verteces g_ex) by (apply (bool_decide_unpack _); exact I).
  assert (H3 : (length (verteces g_ex) < 10)%nat) by (apply Nat.ltb_lt; reflexivity).
  assert (H4 : dfs 10 g_ex 1%nat None = (Ok tt, st1)) by reflexivity.
  assert (H5 : is_discovered (visit st1) 5%nat = false) by reflexivity.
  split_and!; [exact g_ex_wf|exact H1|exact H2|exact H3|exact H4|exact H5|].
  exact (dfs_continues_visit 10 g_ex 1%nat 5%nat st1 g_ex_wf H1 H2 H3 H4 H5).
Defined.

Lemma dfs_again_restamps_witness :
  let st1 := (dfs 10 g_ex 1%nat None).2 in
  wf_graph g_ex ∧ 1%nat ∈ verteces g_ex ∧ (length (verteces g_ex) < 10)%nat ∧
  dfs 10 g_ex 1%nat None = (Ok tt, st1) ∧ reachable g_ex 1%nat 4%nat ∧
  ∃ st2, dfs 10 g_ex 4%nat (Some st1) = (Ok tt, st2) ∧
    dtime (visit st2) 4%nat = last_time (visit st1) + 1 ∧
    ftime (visit st2) 4%nat = last_time (visit st1) + 2 ∧
    ftime (visit st1) 4%nat < dtime (visit st2) 4%nat ∧
    (∀ u, parent_of (visit st2) u = parent_of (visit st1) u) ∧
    (∀ u, u ≠ 4%nat → dtime (visit st2) u = dtime (visit st1) u ∧
                      ftime (visit st2) u = ftime (visit st1) u).
Proof.
  intros st1.
  assert (H1 : 1%nat ∈ verteces g_ex) by (apply (bool_decide_unpack _); exact I).
  assert (H3 : (length (verteces g_ex) < 10)%nat) by (apply Nat.ltb_lt; reflexivity).
  assert (H4 : dfs 10 g_ex 1%nat None = (Ok tt, st1)) by reflexivity.
  split_and!; [exact g_ex_wf|exact H1|exact H3|exact H4|exact g_ex_reachable_4|].
  exact (dfs_again_restamps 10 g_ex 1%nat 4%nat st1 g_ex_wf H1 H3 H4 g_ex_reachable_4).
Defined.



Lemma list_graph_distances_witness :
  1 ≤ 2 ≤ 3 ∧ (2 * Z.to_nat 3 + 1 < 8)%nat ∧
  ∃ g ret, list_graph 3 = Ok g ∧ distances 8 g 2 = Ok ret ∧
    dict_keys ret = py_range 1 (3 + 1) ∧
    ∀ v, 1 ≤ v ≤ 3 → dict_get v ret = Some (if v <? 2 then -1 else v - 2).
Proof.
  assert (H1 : 1 ≤ 2 ≤ 3) by lia.
  assert (H2 : (2 * Z.to_nat 3 + 1 < 8)%nat) by (apply Nat.ltb_lt; reflexivity).
  split; [exact H1|]. split; [exact H2|].
  exact (list_graph_distances 3 2 8 H1 H2).
Defined.

Lemma dfs_topological_order_witness :
  wf_graph g_acyclic ∧ acyclic g_acyclic ∧ 1%nat ∈ verteces g_acyclic ∧
  (length (verteces g_acyclic) < 10)%nat ∧
  ∃ st, dfs 10 g_acyclic 1%nat None = (Ok tt, st) ∧
    (∀ u v, reachable g_acyclic 1%nat u → edge g_acyclic u v →
       ftime (visit st) v < ftime (visit st) u) ∧
    (∀ v, v ∈ verteces_with finish_time true false (visit st)
          ↔ reachable g_acyclic 1%nat v) ∧
    NoDup (verteces_with finish_time true false (visit st)) ∧
    (∀ u v i j, edge g_acyclic u v →
       verteces_with finish_time true false (visit st) !! i = Some u →
       verteces_with finish_time true false (visit st) !! j = Some v →
       (i < j)%nat).
Proof.
  assert (H1 : 1%nat ∈ verteces g_acyclic) by (apply (bool_decide_unpack _); exact I).
  assert (H2 : (length (verteces g_acyclic) < 10)%nat) by (apply Nat.ltb_lt; reflexivity).
  split_and!; [exact g_acyclic_wf|exact g_acyclic_acyclic|exact H1|exact H2|].
  exact (dfs_topological_order 10 g_acyclic 1%nat g_acyclic_wf g_acyclic_acyclic H1 H2).
Defined.

(** The factories and the topological order, evaluated. *)

Example factories_evaluated :
  list_graph 4 = Ok {| _edges := [(1, [2]); (2, [3]); (3, [4]); (4, [])] |} ∧
  star_graph 4 = Ok {| _edges := [(1, [2; 3; 4]); (2, []); (3, []); (4, [])] |} ∧
  list_graph (-2) = Raise (FoundNegativeN (-2)) ∧
  full_graph [1; 2; 1]%nat
    = (Ok tt, {| _edges := [(1, [1; 2]); (2, [1; 2])]%nat |}) ∧
  (remove_self_loops g_ex).2
    = {| _edges := [(1, [2; 3]); (2, [4]); (3, [4; 1]); (4, []); (5, [1])]%nat |}.
Proof. by split_and!. Qed.

Example topological_order_evaluated :
  verteces_with finish_time true false (visit (dfs 10 g_acyclic 1%nat None).2)
  = [1; 3; 2; 4]%nat.
Proof. reflexivity. Qed.

